(** * The opcode graph of the JSON encoder (encode_opcode.go)

    A shallow embedding of the instruction graph built by the encoder's
    compiler: the [opcode] struct, the heap of opcode nodes it points into,
    the graph constructors, and the graph transformations [copy],
    [beforeLastCode], [totalLength], [decOpcodeIndex], [dump] and
    [linkPrevToNextField].

    Conventions.
    - A [*opcode] is a [ptr]: [None] is nil, [Some a] the address of a node.
      The heap is a finite map from addresses to nodes; [&opcode{...}]
      allocates at an address that is not yet in the heap.
    - [uintptr] values are integers in [0, 2^64) (a 64-bit platform, so
      [uintptrSize] is 8); [int] values are integers in [-2^63, 2^63).
      Arithmetic that can overflow is wrapped explicitly.
    - A loop that the Go code runs until a condition holds is a function
      with a fuel argument.  A result is [Ret v], [Panic] (a nil pointer
      dereference or another runtime panic) or [OutOfFuel]. *)

From Stdlib Require Import ZArith Lia List String Ascii.
From stdpp Require Import base tactics option list gmap fin_sets pretty.

Local Open Scope Z_scope.

(** ** Machine integers *)

Definition uintptrSize : Z := 8.

Definition wrap_uintptr (z : Z) : Z := z mod 2 ^ 64.

Definition wrap_int (z : Z) : Z := (z + 2 ^ 63) mod 2 ^ 64 - 2 ^ 63.

(** [func opcodeOffset(idx int) uintptr]: [uintptr(idx) * uintptrSize]. *)
Definition opcodeOffset (idx : Z) : Z :=
  wrap_uintptr (wrap_uintptr idx * uintptrSize).

(** ** Results of computations that may panic or run out of fuel *)

Inductive res (A : Type) : Type :=
  | Ret (a : A)
  | Panic
  | OutOfFuel.

Arguments Ret {A} a.
Arguments Panic {A}.
Arguments OutOfFuel {A}.

#[global] Instance res_ret : MRet res := fun A a => Ret a.
#[global] Instance res_bind : MBind res := fun A B f m =>
  match m with
  | Ret a => f a
  | Panic => Panic
  | OutOfFuel => OutOfFuel
  end.

(** ** Operation kinds *)

(** Modelled from the spec: the operation kinds [opType] are declared in a
    generated file that is not part of the sources at hand.  The kinds that
    encode_opcode.go names are constructors of their own; [opStructField]
    stands for the record-field emission kinds and [opOther n] for every
    remaining kind. *)
Inductive opType : Type :=
  | opEnd
  | opInterface
  | opInterfaceEnd
  | opStructFieldRecursive
  | opStructFieldRecursiveEnd
  | opSliceHead
  | opSliceElem
  | opArrayHead
  | opArrayElem
  | opMapHead
  | opMapHeadLoad
  | opMapKey
  | opMapValue
  | opMapEnd
  | opStructField
  | opOther (n : Z).

#[global] Instance opType_eq_dec : EqDecision opType.
Proof. solve_decision. Defined.

(** The classes of operation kinds that encode_opcode.go switches on;
    [codeOp] stands for every class it does not name. *)
Inductive codeType : Type :=
  | codeOp
  | codeArrayHead
  | codeArrayElem
  | codeSliceHead
  | codeSliceElem
  | codeMapHead
  | codeMapKey
  | codeMapValue
  | codeMapEnd
  | codeStructField.

#[global] Instance codeType_eq_dec : EqDecision codeType.
Proof. solve_decision. Defined.

(** Modelled from the spec: the table [opType.codeType()] is declared
    outside the sources at hand.  The general results below take the table
    as a parameter; this one, which classifies every kind by its name, is
    used to evaluate the code on concrete graphs. *)
Definition codeType_std (o : opType) : codeType :=
  match o with
  | opSliceHead => codeSliceHead
  | opSliceElem => codeSliceElem
  | opArrayHead => codeArrayHead
  | opArrayElem => codeArrayElem
  | opMapHead | opMapHeadLoad => codeMapHead
  | opMapKey => codeMapKey
  | opMapValue => codeMapValue
  | opMapEnd => codeMapEnd
  | opStructField => codeStructField
  | _ => codeOp
  end.

(** ** Opcode nodes and the heap *)

Definition loc : Type := positive.

(** A [*opcode]: nil or the address of a node. *)
Definition ptr : Type := option loc.

Module opcode.
Record t : Type := mk {
  op : opType;
  typ : option positive;
  displayIdx : Z;
  key : list Byte.byte;
  escapedKey : list Byte.byte;
  displayKey : string;
  isTaggedKey : bool;
  anonymousKey : bool;
  root : bool;
  indent : Z;
  idx : Z;
  headIdx : Z;
  elemIdx : Z;
  length : Z;
  mapIter : Z;
  mapPos : Z;
  offset : Z;
  size : Z;
  mapKey : ptr;
  mapValue : ptr;
  elem : ptr;
  end_ : ptr;
  nextField : ptr;
  next : ptr;
  jmp : option positive
}.

Definition set_op (v : opType) (c : t) : t :=
  {| op := v; typ := typ c; displayIdx := displayIdx c; key := key c;
     escapedKey := escapedKey c; displayKey := displayKey c;
     isTaggedKey := isTaggedKey c; anonymousKey := anonymousKey c;
     root := root c; indent := indent c; idx := idx c; headIdx := headIdx c;
     elemIdx := elemIdx c; length := length c; mapIter := mapIter c;
     mapPos := mapPos c; offset := offset c; size := size c;
     mapKey := mapKey c; mapValue := mapValue c; elem := elem c;
     end_ := end_ c; nextField := nextField c; next := next c; jmp := jmp c |}.

Definition set_typ (v : option positive) (c : t) : t :=
  {| op := op c; typ := v; displayIdx := displayIdx c; key := key c;
     escapedKey := escapedKey c; displayKey := displayKey c;
     isTaggedKey := isTaggedKey c; anonymousKey := anonymousKey c;
     root := root c; indent := indent c; idx := idx c; headIdx := headIdx c;
     elemIdx := elemIdx c; length := length c; mapIter := mapIter c;
     mapPos := mapPos c; offset := offset c; size := size c;
     mapKey := mapKey c; mapValue := mapValue c; elem := elem c;
     end_ := end_ c; nextField := nextField c; next := next c; jmp := jmp c |}.

Definition set_displayIdx (v : Z) (c : t) : t :=
  {| op := op c; typ := typ c; displayIdx := v; key := key c;
     escapedKey := escapedKey c; displayKey := displayKey c;
     isTaggedKey := isTaggedKey c; anonymousKey := anonymousKey c;
     root := root c; indent := indent c; idx := idx c; headIdx := headIdx c;
     elemIdx := elemIdx c; length := length c; mapIter := mapIter c;
     mapPos := mapPos c; offset := offset c; size := size c;
     mapKey := mapKey c; mapValue := mapValue c; elem := elem c;
     end_ := end_ c; nextField := nextField c; next := next c; jmp := jmp c |}.

Definition set_key (v : list Byte.byte) (c : t) : t :=
  {| op := op c; typ := typ c; displayIdx := displayIdx c; key := v;
     escapedKey := escapedKey c; displayKey := displayKey c;
     isTaggedKey := isTaggedKey c; anonymousKey := anonymousKey c;
     root := root c; indent := indent c; idx := idx c; headIdx := headIdx c;
     elemIdx := elemIdx c; length := length c; mapIter := mapIter c;
     mapPos := mapPos c; offset := offset c; size := size c;
     mapKey := mapKey c; mapValue := mapValue c; elem := elem c;
     end_ := end_ c; nextField := nextField c; next := next c; jmp := jmp c |}.

Definition set_escapedKey (v : list Byte.byte) (c : t) : t :=
  {| op := op c; typ := typ c; displayIdx := displayIdx c; key := key c;
     escapedKey := v; displayKey := displayKey c;
     isTaggedKey := isTaggedKey c; anonymousKey := anonymousKey c;
     root := root c; indent := indent c; idx := idx c; headIdx := headIdx c;
     elemIdx := elemIdx c; length := length c; mapIter := mapIter c;
     mapPos := mapPos c; offset := offset c; size := size c;
     mapKey := mapKey c; mapValue := mapValue c; elem := elem c;
     end_ := end_ c; nextField := nextField c; next := next c; jmp := jmp c |}.

Definition set_displayKey (v : string) (c : t) : t :=
  {| op := op c; typ := typ c; displayIdx := displayIdx c; key := key c;
     escapedKey := escapedKey c; displayKey := v;
     isTaggedKey := isTaggedKey c; anonymousKey := anonymousKey c;
     root := root c; indent := indent c; idx := idx c; headIdx := headIdx c;
     elemIdx := elemIdx c; length := length c; mapIter := mapIter c;
     mapPos := mapPos c; offset := offset c; size := size c;
     mapKey := mapKey c; mapValue := mapValue c; elem := elem c;
     end_ := end_ c; nextField := nextField c; next := next c; jmp := jmp c |}.

Definition set_isTaggedKey (v : bool) (c : t) : t :=
  {| op := op c; typ := typ c; displayIdx := displayIdx c; key := key c;
     escapedKey := escapedKey c; displayKey := displayKey c;
     isTaggedKey := v; anonymousKey := anonymousKey c; root := root c;
     indent := indent c; idx := idx c; headIdx := headIdx c;
     elemIdx := elemIdx c; length := length c; mapIter := mapIter c;
     mapPos := mapPos c; offset := offset c; size := size c;
     mapKey := mapKey c; mapValue := mapValue c; elem := elem c;
     end_ := end_ c; nextField := nextField c; next := next c; jmp := jmp c |}.

Definition set_anonymousKey (v : bool) (c : t) : t :=
  {| op := op c; typ := typ c; displayIdx := displayIdx c; key := key c;
     escapedKey := escapedKey c; displayKey := displayKey c;
     isTaggedKey := isTaggedKey c; anonymousKey := v; root := root c;
     indent := indent c; idx := idx c; headIdx := headIdx c;
     elemIdx := elemIdx c; length := length c; mapIter := mapIter c;
     mapPos := mapPos c; offset := offset c; size := size c;
     mapKey := mapKey c; mapValue := mapValue c; elem := elem c;
     end_ := end_ c; nextField := nextField c; next := next c; jmp := jmp c |}.

Definition set_root (v : bool) (c : t) : t :=
  {| op := op c; typ := typ c; displayIdx := displayIdx c; key := key c;
     escapedKey := escapedKey c; displayKey := displayKey c;
     isTaggedKey := isTaggedKey c; anonymousKey := anonymousKey c; root := v;
     indent := indent c; idx := idx c; headIdx := headIdx c;
     elemIdx := elemIdx c; length := length c; mapIter := mapIter c;
     mapPos := mapPos c; offset := offset c; size := size c;
     mapKey := mapKey c; mapValue := mapValue c; elem := elem c;
     end_ := end_ c; nextField := nextField c; next := next c; jmp := jmp c |}.

Definition set_indent (v : Z) (c : t) : t :=
  {| op := op c; typ := typ c; displayIdx := displayIdx c; key := key c;
     escapedKey := escapedKey c; displayKey := displayKey c;
     isTaggedKey := isTaggedKey c; anonymousKey := anonymousKey c;
     root := root c; indent := v; idx := idx c; headIdx := headIdx c;
     elemIdx := elemIdx c; length := length c; mapIter := mapIter c;
     mapPos := mapPos c; offset := offset c; size := size c;
     mapKey := mapKey c; mapValue := mapValue c; elem := elem c;
     end_ := end_ c; nextField := nextField c; next := next c; jmp := jmp c |}.

Definition set_idx (v : Z) (c : t) : t :=
  {| op := op c; typ := typ c; displayIdx := displayIdx c; key := key c;
     escapedKey := escapedKey c; displayKey := displayKey c;
     isTaggedKey := isTaggedKey c; anonymousKey := anonymousKey c;
     root := root c; indent := indent c; idx := v; headIdx := headIdx c;
     elemIdx := elemIdx c; length := length c; mapIter := mapIter c;
     mapPos := mapPos c; offset := offset c; size := size c;
     mapKey := mapKey c; mapValue := mapValue c; elem := elem c;
     end_ := end_ c; nextField := nextField c; next := next c; jmp := jmp c |}.

Definition set_headIdx (v : Z) (c : t) : t :=
  {| op := op c; typ := typ c; displayIdx := displayIdx c; key := key c;
     escapedKey := escapedKey c; displayKey := displayKey c;
     isTaggedKey := isTaggedKey c; anonymousKey := anonymousKey c;
     root := root c; indent := indent c; idx := idx c; headIdx := v;
     elemIdx := elemIdx c; length := length c; mapIter := mapIter c;
     mapPos := mapPos c; offset := offset c; size := size c;
     mapKey := mapKey c; mapValue := mapValue c; elem := elem c;
     end_ := end_ c; nextField := nextField c; next := next c; jmp := jmp c |}.

Definition set_elemIdx (v : Z) (c : t) : t :=
  {| op := op c; typ := typ c; displayIdx := displayIdx c; key := key c;
     escapedKey := escapedKey c; displayKey := displayKey c;
     isTaggedKey := isTaggedKey c; anonymousKey := anonymousKey c;
     root := root c; indent := indent c; idx := idx c; headIdx := headIdx c;
     elemIdx := v; length := length c; mapIter := mapIter c;
     mapPos := mapPos c; offset := offset c; size := size c;
     mapKey := mapKey c; mapValue := mapValue c; elem := elem c;
     end_ := end_ c; nextField := nextField c; next := next c; jmp := jmp c |}.

Definition set_length (v : Z) (c : t) : t :=
  {| op := op c; typ := typ c; displayIdx := displayIdx c; key := key c;
     escapedKey := escapedKey c; displayKey := displayKey c;
     isTaggedKey := isTaggedKey c; anonymousKey := anonymousKey c;
     root := root c; indent := indent c; idx := idx c; headIdx := headIdx c;
     elemIdx := elemIdx c; length := v; mapIter := mapIter c;
     mapPos := mapPos c; offset := offset c; size := size c;
     mapKey := mapKey c; mapValue := mapValue c; elem := elem c;
     end_ := end_ c; nextField := nextField c; next := next c; jmp := jmp c |}.

Definition set_mapIter (v : Z) (c : t) : t :=
  {| op := op c; typ := typ c; displayIdx := displayIdx c; key := key c;
     escapedKey := escapedKey c; displayKey := displayKey c;
     isTaggedKey := isTaggedKey c; anonymousKey := anonymousKey c;
     root := root c; indent := indent c; idx := idx c; headIdx := headIdx c;
     elemIdx := elemIdx c; length := length c; mapIter := v;
     mapPos := mapPos c; offset := offset c; size := size c;
     mapKey := mapKey c; mapValue := mapValue c; elem := elem c;
     end_ := end_ c; nextField := nextField c; next := next c; jmp := jmp c |}.

Definition set_mapPos (v : Z) (c : t) : t :=
  {| op := op c; typ := typ c; displayIdx := displayIdx c; key := key c;
     escapedKey := escapedKey c; displayKey := displayKey c;
     isTaggedKey := isTaggedKey c; anonymousKey := anonymousKey c;
     root := root c; indent := indent c; idx := idx c; headIdx := headIdx c;
     elemIdx := elemIdx c; length := length c; mapIter := mapIter c;
     mapPos := v; offset := offset c; size := size c; mapKey := mapKey c;
     mapValue := mapValue c; elem := elem c; end_ := end_ c;
     nextField := nextField c; next := next c; jmp := jmp c |}.

Definition set_offset (v : Z) (c : t) : t :=
  {| op := op c; typ := typ c; displayIdx := displayIdx c; key := key c;
     escapedKey := escapedKey c; displayKey := displayKey c;
     isTaggedKey := isTaggedKey c; anonymousKey := anonymousKey c;
     root := root c; indent := indent c; idx := idx c; headIdx := headIdx c;
     elemIdx := elemIdx c; length := length c; mapIter := mapIter c;
     mapPos := mapPos c; offset := v; size := size c; mapKey := mapKey c;
     mapValue := mapValue c; elem := elem c; end_ := end_ c;
     nextField := nextField c; next := next c; jmp := jmp c |}.

Definition set_size (v : Z) (c : t) : t :=
  {| op := op c; typ := typ c; displayIdx := displayIdx c; key := key c;
     escapedKey := escapedKey c; displayKey := displayKey c;
     isTaggedKey := isTaggedKey c; anonymousKey := anonymousKey c;
     root := root c; indent := indent c; idx := idx c; headIdx := headIdx c;
     elemIdx := elemIdx c; length := length c; mapIter := mapIter c;
     mapPos := mapPos c; offset := offset c; size := v; mapKey := mapKey c;
     mapValue := mapValue c; elem := elem c; end_ := end_ c;
     nextField := nextField c; next := next c; jmp := jmp c |}.

Definition set_mapKey (v : ptr) (c : t) : t :=
  {| op := op c; typ := typ c; displayIdx := displayIdx c; key := key c;
     escapedKey := escapedKey c; displayKey := displayKey c;
     isTaggedKey := isTaggedKey c; anonymousKey := anonymousKey c;
     root := root c; indent := indent c; idx := idx c; headIdx := headIdx c;
     elemIdx := elemIdx c; length := length c; mapIter := mapIter c;
     mapPos := mapPos c; offset := offset c; size := size c; mapKey := v;
     mapValue := mapValue c; elem := elem c; end_ := end_ c;
     nextField := nextField c; next := next c; jmp := jmp c |}.

Definition set_mapValue (v : ptr) (c : t) : t :=
  {| op := op c; typ := typ c; displayIdx := displayIdx c; key := key c;
     escapedKey := escapedKey c; displayKey := displayKey c;
     isTaggedKey := isTaggedKey c; anonymousKey := anonymousKey c;
     root := root c; indent := indent c; idx := idx c; headIdx := headIdx c;
     elemIdx := elemIdx c; length := length c; mapIter := mapIter c;
     mapPos := mapPos c; offset := offset c; size := size c;
     mapKey := mapKey c; mapValue := v; elem := elem c; end_ := end_ c;
     nextField := nextField c; next := next c; jmp := jmp c |}.

Definition set_elem (v : ptr) (c : t) : t :=
  {| op := op c; typ := typ c; displayIdx := displayIdx c; key := key c;
     escapedKey := escapedKey c; displayKey := displayKey c;
     isTaggedKey := isTaggedKey c; anonymousKey := anonymousKey c;
     root := root c; indent := indent c; idx := idx c; headIdx := headIdx c;
     elemIdx := elemIdx c; length := length c; mapIter := mapIter c;
     mapPos := mapPos c; offset := offset c; size := size c;
     mapKey := mapKey c; mapValue := mapValue c; elem := v; end_ := end_ c;
     nextField := nextField c; next := next c; jmp := jmp c |}.

Definition set_end_ (v : ptr) (c : t) : t :=
  {| op := op c; typ := typ c; displayIdx := displayIdx c; key := key c;
     escapedKey := escapedKey c; displayKey := displayKey c;
     isTaggedKey := isTaggedKey c; anonymousKey := anonymousKey c;
     root := root c; indent := indent c; idx := idx c; headIdx := headIdx c;
     elemIdx := elemIdx c; length := length c; mapIter := mapIter c;
     mapPos := mapPos c; offset := offset c; size := size c;
     mapKey := mapKey c; mapValue := mapValue c; elem := elem c; end_ := v;
     nextField := nextField c; next := next c; jmp := jmp c |}.

Definition set_nextField (v : ptr) (c : t) : t :=
  {| op := op c; typ := typ c; displayIdx := displayIdx c; key := key c;
     escapedKey := escapedKey c; displayKey := displayKey c;
     isTaggedKey := isTaggedKey c; anonymousKey := anonymousKey c;
     root := root c; indent := indent c; idx := idx c; headIdx := headIdx c;
     elemIdx := elemIdx c; length := length c; mapIter := mapIter c;
     mapPos := mapPos c; offset := offset c; size := size c;
     mapKey := mapKey c; mapValue := mapValue c; elem := elem c;
     end_ := end_ c; nextField := v; next := next c; jmp := jmp c |}.

Definition set_next (v : ptr) (c : t) : t :=
  {| op := op c; typ := typ c; displayIdx := displayIdx c; key := key c;
     escapedKey := escapedKey c; displayKey := displayKey c;
     isTaggedKey := isTaggedKey c; anonymousKey := anonymousKey c;
     root := root c; indent := indent c; idx := idx c; headIdx := headIdx c;
     elemIdx := elemIdx c; length := length c; mapIter := mapIter c;
     mapPos := mapPos c; offset := offset c; size := size c;
     mapKey := mapKey c; mapValue := mapValue c; elem := elem c;
     end_ := end_ c; nextField := nextField c; next := v; jmp := jmp c |}.

Definition set_jmp (v : option positive) (c : t) : t :=
  {| op := op c; typ := typ c; displayIdx := displayIdx c; key := key c;
     escapedKey := escapedKey c; displayKey := displayKey c;
     isTaggedKey := isTaggedKey c; anonymousKey := anonymousKey c;
     root := root c; indent := indent c; idx := idx c; headIdx := headIdx c;
     elemIdx := elemIdx c; length := length c; mapIter := mapIter c;
     mapPos := mapPos c; offset := offset c; size := size c;
     mapKey := mapKey c; mapValue := mapValue c; elem := elem c;
     end_ := end_ c; nextField := nextField c; next := next c; jmp := v |}.

End opcode.

Abbreviation heap := (gmap loc opcode.t).

(** [*code]: dereferencing nil panics. *)
Definition deref (h : heap) (code : ptr) : res opcode.t :=
  match code with
  | None => Panic
  | Some a => match h !! a with Some c => Ret c | None => Panic end
  end.

(** [code.f = v] for a field setter [upd]. *)
Definition store (h : heap) (code : ptr) (upd : opcode.t -> opcode.t) : res heap :=
  c ← deref h code;
  match code with
  | Some a => Ret (<[a := upd c]> h)
  | None => Panic
  end.

(** [&opcode{...}]: the new node lives at an address not in use. *)
Definition alloc (h : heap) (c : opcode.t) : heap * loc :=
  let a := fresh (dom h) in (<[a := c]> h, a).

(** The zero value of the struct, but for its operation kind. *)
Definition zero_opcode (o : opType) : opcode.t :=
  {| opcode.op := o; opcode.typ := None; opcode.displayIdx := 0;
     opcode.key := []; opcode.escapedKey := []; opcode.displayKey := "";
     opcode.isTaggedKey := false; opcode.anonymousKey := false;
     opcode.root := false; opcode.indent := 0;
     opcode.idx := 0; opcode.headIdx := 0; opcode.elemIdx := 0;
     opcode.length := 0; opcode.mapIter := 0; opcode.mapPos := 0;
     opcode.offset := 0; opcode.size := 0;
     opcode.mapKey := None; opcode.mapValue := None; opcode.elem := None;
     opcode.end_ := None; opcode.nextField := None; opcode.next := None;
     opcode.jmp := None |}.

(** [&opcode{op: o, f1: v1, ...}]: the fields that the literal names are
    set, in its order, on the zero value. *)
Definition literal (o : opType) (fields : list (opcode.t -> opcode.t)) : opcode.t :=
  fold_left (fun c set => set c) fields (zero_opcode o).

(** ** The compile context *)

(** Modelled from the spec: [encodeCompileContext] is declared outside the
    sources at hand.  The constructors read its type handle, root flag,
    instruction-display counter, next free register index and nesting
    depth; [incPtrIndex] consumes one register slot. *)
Module ctx.
Record t : Type := mk {
  typ : option positive;
  root : bool;
  opcodeIndex : Z;
  ptrIndex : Z;
  indent : Z
}.

Definition incPtrIndex (c : t) : t :=
  {| typ := typ c; root := root c; opcodeIndex := opcodeIndex c;
     ptrIndex := wrap_int (ptrIndex c + 1); indent := indent c |}.
End ctx.

(** ** Graph constructors

    A constructor takes the context and the heap and returns the heap with
    the new nodes and the address of the node it returns; a constructor
    that advances the context returns the new context as well, and one that
    reads its [head] argument panics when [head] is nil. *)

Definition newOpCodeWithNext (c : ctx.t) (o : opType) (next : ptr) (h : heap)
  : heap * loc :=
  alloc h (literal o
    [ opcode.set_typ (ctx.typ c);
      opcode.set_displayIdx (ctx.opcodeIndex c);
      opcode.set_indent (ctx.indent c);
      opcode.set_idx (opcodeOffset (ctx.ptrIndex c));
      opcode.set_next next ]).

Definition newEndOp (c : ctx.t) (h : heap) : heap * loc :=
  newOpCodeWithNext c opEnd None h.

Definition newOpCode (c : ctx.t) (o : opType) (h : heap) : heap * loc :=
  let '(h, e) := newEndOp c h in
  newOpCodeWithNext c o (Some e) h.

Definition newSliceHeaderCode (c : ctx.t) (h : heap) : ctx.t * heap * loc :=
  let idx := opcodeOffset (ctx.ptrIndex c) in
  let c := ctx.incPtrIndex c in
  let elemIdx := opcodeOffset (ctx.ptrIndex c) in
  let c := ctx.incPtrIndex c in
  let length := opcodeOffset (ctx.ptrIndex c) in
  let '(h, a) := alloc h (literal opSliceHead
    [ opcode.set_displayIdx (ctx.opcodeIndex c);
      opcode.set_idx idx;
      opcode.set_headIdx idx;
      opcode.set_elemIdx elemIdx;
      opcode.set_length length;
      opcode.set_indent (ctx.indent c) ]) in
  (c, h, a).

Definition newSliceElemCode (c : ctx.t) (head : ptr) (size : Z) (h : heap)
  : res (heap * loc) :=
  hd ← deref h head;
  mret (alloc h (literal opSliceElem
    [ opcode.set_displayIdx (ctx.opcodeIndex c);
      opcode.set_idx (opcodeOffset (ctx.ptrIndex c));
      opcode.set_headIdx (opcode.idx hd);
      opcode.set_elemIdx (opcode.elemIdx hd);
      opcode.set_length (opcode.length hd);
      opcode.set_indent (ctx.indent c);
      opcode.set_size size ])).

Definition newArrayHeaderCode (c : ctx.t) (alen : Z) (h : heap)
  : ctx.t * heap * loc :=
  let idx := opcodeOffset (ctx.ptrIndex c) in
  let c := ctx.incPtrIndex c in
  let elemIdx := opcodeOffset (ctx.ptrIndex c) in
  let '(h, a) := alloc h (literal opArrayHead
    [ opcode.set_displayIdx (ctx.opcodeIndex c);
      opcode.set_idx idx;
      opcode.set_headIdx idx;
      opcode.set_elemIdx elemIdx;
      opcode.set_indent (ctx.indent c);
      opcode.set_length (wrap_uintptr alen) ]) in
  (c, h, a).

Definition newArrayElemCode (c : ctx.t) (head : ptr) (length size : Z) (h : heap)
  : res (heap * loc) :=
  hd ← deref h head;
  mret (alloc h (literal opArrayElem
    [ opcode.set_displayIdx (ctx.opcodeIndex c);
      opcode.set_idx (opcodeOffset (ctx.ptrIndex c));
      opcode.set_elemIdx (opcode.elemIdx hd);
      opcode.set_headIdx (opcode.headIdx hd);
      opcode.set_length (wrap_uintptr length);
      opcode.set_size size ])).

Definition newMapHeaderCode (c : ctx.t) (withLoad : bool) (h : heap)
  : ctx.t * heap * loc :=
  let o := if withLoad then opMapHeadLoad else opMapHead in
  let idx := opcodeOffset (ctx.ptrIndex c) in
  let c := ctx.incPtrIndex c in
  let elemIdx := opcodeOffset (ctx.ptrIndex c) in
  let c := ctx.incPtrIndex c in
  let length := opcodeOffset (ctx.ptrIndex c) in
  let c := ctx.incPtrIndex c in
  let mapIter := opcodeOffset (ctx.ptrIndex c) in
  let '(h, a) := alloc h (literal o
    [ opcode.set_typ (ctx.typ c);
      opcode.set_displayIdx (ctx.opcodeIndex c);
      opcode.set_idx idx;
      opcode.set_elemIdx elemIdx;
      opcode.set_length length;
      opcode.set_mapIter mapIter;
      opcode.set_indent (ctx.indent c) ]) in
  (c, h, a).

Definition newMapKeyCode (c : ctx.t) (head : ptr) (h : heap) : res (heap * loc) :=
  hd ← deref h head;
  mret (alloc h (literal opMapKey
    [ opcode.set_displayIdx (ctx.opcodeIndex c);
      opcode.set_idx (opcodeOffset (ctx.ptrIndex c));
      opcode.set_elemIdx (opcode.elemIdx hd);
      opcode.set_length (opcode.length hd);
      opcode.set_mapIter (opcode.mapIter hd);
      opcode.set_indent (ctx.indent c) ])).

Definition newMapValueCode (c : ctx.t) (head : ptr) (h : heap) : res (heap * loc) :=
  hd ← deref h head;
  mret (alloc h (literal opMapValue
    [ opcode.set_displayIdx (ctx.opcodeIndex c);
      opcode.set_idx (opcodeOffset (ctx.ptrIndex c));
      opcode.set_elemIdx (opcode.elemIdx hd);
      opcode.set_length (opcode.length hd);
      opcode.set_mapIter (opcode.mapIter hd);
      opcode.set_indent (ctx.indent c) ])).

Definition newMapEndCode (c : ctx.t) (head : ptr) (h : heap)
  : res (ctx.t * heap * loc) :=
  let mapPos := opcodeOffset (ctx.ptrIndex c) in
  let c := ctx.incPtrIndex c in
  let idx := opcodeOffset (ctx.ptrIndex c) in
  hd ← deref h head;
  let '(h, e) := newEndOp c h in
  let '(h, a) := alloc h (literal opMapEnd
    [ opcode.set_displayIdx (ctx.opcodeIndex c);
      opcode.set_idx idx;
      opcode.set_length (opcode.length hd);
      opcode.set_mapPos mapPos;
      opcode.set_indent (ctx.indent c);
      opcode.set_next (Some e) ]) in
  mret (c, h, a).

Definition newInterfaceCode (c : ctx.t) (h : heap) : heap * loc :=
  let '(h, e) := newEndOp c h in
  alloc h (literal opInterface
    [ opcode.set_typ (ctx.typ c);
      opcode.set_displayIdx (ctx.opcodeIndex c);
      opcode.set_idx (opcodeOffset (ctx.ptrIndex c));
      opcode.set_indent (ctx.indent c);
      opcode.set_root (ctx.root c);
      opcode.set_next (Some e) ]).

Definition newRecursiveCode (c : ctx.t) (jmp : option positive) (h : heap)
  : heap * loc :=
  let '(h, e) := newEndOp c h in
  alloc h (literal opStructFieldRecursive
    [ opcode.set_typ (ctx.typ c);
      opcode.set_displayIdx (ctx.opcodeIndex c);
      opcode.set_idx (opcodeOffset (ctx.ptrIndex c));
      opcode.set_indent (ctx.indent c);
      opcode.set_next (Some e);
      opcode.set_jmp jmp ]).

(** ** Graph transformations *)

Section Transformations.

(** The table [opType.codeType()] and the names [opType.String()] are
    declared outside the sources at hand: both are parameters. *)
Variable codeType_of : opType -> codeType.
Variable opType_String : opType -> string.

(** The switch shared by the four walks: [code.end] for array elements,
    slice elements and map keys, [code.next] otherwise. *)
Definition fallthrough (c : opcode.t) : ptr :=
  match codeType_of (opcode.op c) with
  | codeArrayElem | codeSliceElem | codeMapKey => opcode.end_ c
  | _ => opcode.next c
  end.

(** *** [beforeLastCode] *)

Fixpoint beforeLastCode_loop (fuel : nat) (h : heap) (code : ptr) : res ptr :=
  match fuel with
  | O => OutOfFuel
  | S fuel =>
    c ← deref h code;
    let nextCode := fallthrough c in
    n ← deref h nextCode;
    if decide (opcode.op n = opEnd) then mret code
    else beforeLastCode_loop fuel h nextCode
  end.

Definition beforeLastCode (fuel : nat) (h : heap) (c : ptr) : res ptr :=
  beforeLastCode_loop fuel h c.

(** *** [totalLength] *)

Fixpoint totalLength_loop (fuel : nat) (h : heap) (code : ptr) (idx : Z) : res Z :=
  match fuel with
  | O => OutOfFuel
  | S fuel =>
    c ← deref h code;
    if decide (opcode.op c = opEnd) then mret idx
    else
      let idx := wrap_int (opcode.idx c / uintptrSize) in
      if decide (opcode.op c = opInterfaceEnd
                 ∨ opcode.op c = opStructFieldRecursiveEnd)
      then mret idx
      else totalLength_loop fuel h (fallthrough c) idx
  end.

Definition totalLength (fuel : nat) (h : heap) (c : ptr) : res Z :=
  idx ← totalLength_loop fuel h c 0;
  mret (wrap_int (idx + 2)).

(** *** [decOpcodeIndex] *)

(** The body of the loop: the writes to the fields of one node. *)
Definition decOpcodeIndex_node (c : opcode.t) : opcode.t :=
  let c := opcode.set_displayIdx (wrap_int (opcode.displayIdx c - 1)) c in
  let c := opcode.set_idx (wrap_uintptr (opcode.idx c - uintptrSize)) c in
  let c := if decide (opcode.headIdx c > 0)
           then opcode.set_headIdx (wrap_uintptr (opcode.headIdx c - uintptrSize)) c
           else c in
  let c := if decide (opcode.elemIdx c > 0)
           then opcode.set_elemIdx (wrap_uintptr (opcode.elemIdx c - uintptrSize)) c
           else c in
  let c := if decide (opcode.mapIter c > 0)
           then opcode.set_mapIter (wrap_uintptr (opcode.mapIter c - uintptrSize)) c
           else c in
  let c := if decide (opcode.length c > 0
                      ∧ codeType_of (opcode.op c) ≠ codeArrayHead
                      ∧ codeType_of (opcode.op c) ≠ codeArrayElem)
           then opcode.set_length (wrap_uintptr (opcode.length c - uintptrSize)) c
           else c in
  c.

Fixpoint decOpcodeIndex_loop (fuel : nat) (h : heap) (code : ptr) : res heap :=
  match fuel with
  | O => OutOfFuel
  | S fuel =>
    c ← deref h code;
    if decide (opcode.op c = opEnd) then mret h
    else
      h ← store h code decOpcodeIndex_node;
      c ← deref h code;
      decOpcodeIndex_loop fuel h (fallthrough c)
  end.

Definition decOpcodeIndex (fuel : nat) (h : heap) (c : ptr) : res heap :=
  decOpcodeIndex_loop fuel h c.

(** *** [linkPrevToNextField] *)

Fixpoint linkPrevToNextField_loop (fuel : nat) (h : heap) (code fcode : ptr)
  : res heap :=
  match fuel with
  | O => OutOfFuel
  | S fuel =>
    c ← deref h code;
    let nextCode := fallthrough c in
    if decide (nextCode = fcode) then
      f ← deref h fcode;
      store h code (opcode.set_next (opcode.next f))
    else
      n ← deref h nextCode;
      if decide (opcode.op n = opEnd) then mret h
      else linkPrevToNextField_loop fuel h nextCode fcode
  end.

Definition linkPrevToNextField (fuel : nat) (h : heap) (prev cur : ptr)
  : res heap :=
  c ← deref h cur;
  h ← store h prev (opcode.set_nextField (opcode.nextField c));
  linkPrevToNextField_loop fuel h prev cur.

(** *** [copy] and [copyOpcode] *)

(** The map from the address of a node to its copy.  The Go map holds
    [*opcode] values; the only values ever stored are addresses of freshly
    allocated nodes, never nil. *)
Abbreviation codeMap := (gmap loc loc).

(** One of the six statements [copied.f = c.f.copy(codeMap)]. *)
Definition copy_link
    (copy : heap -> codeMap -> ptr -> res (heap * codeMap * ptr))
    (get : opcode.t -> ptr) (set : ptr -> opcode.t -> opcode.t)
    (c copied : ptr) (st : heap * codeMap) : res (heap * codeMap) :=
  n ← deref st.1 c;
  r ← copy st.1 st.2 (get n);
  h ← store r.1.1 copied (set r.2);
  mret (h, r.1.2).

Fixpoint copy (fuel : nat) (h : heap) (m : codeMap) (c : ptr)
  : res (heap * codeMap * ptr) :=
  match c with
  | None => mret (h, m, None)
  | Some addr =>
    match m !! addr with
    | Some code => mret (h, m, Some code)
    | None =>
      match fuel with
      | O => OutOfFuel
      | S fuel =>
        n ← deref h c;
        let '(h, a) := alloc h (literal (opcode.op n)
          [ opcode.set_typ (opcode.typ n);
            opcode.set_displayIdx (opcode.displayIdx n);
            opcode.set_key (opcode.key n);
            opcode.set_escapedKey (opcode.escapedKey n);
            opcode.set_displayKey (opcode.displayKey n);
            opcode.set_isTaggedKey (opcode.isTaggedKey n);
            opcode.set_anonymousKey (opcode.anonymousKey n);
            opcode.set_root (opcode.root n);
            opcode.set_indent (opcode.indent n);
            opcode.set_idx (opcode.idx n);
            opcode.set_headIdx (opcode.headIdx n);
            opcode.set_elemIdx (opcode.elemIdx n);
            opcode.set_length (opcode.length n);
            opcode.set_mapIter (opcode.mapIter n);
            opcode.set_mapPos (opcode.mapPos n);
            opcode.set_offset (opcode.offset n);
            opcode.set_size (opcode.size n) ]) in
        let copied := Some a in
        let m := <[addr := a]> m in
        st ← copy_link (copy fuel) opcode.mapKey opcode.set_mapKey c copied (h, m);
        st ← copy_link (copy fuel) opcode.mapValue opcode.set_mapValue c copied st;
        st ← copy_link (copy fuel) opcode.elem opcode.set_elem c copied st;
        st ← copy_link (copy fuel) opcode.end_ opcode.set_end_ c copied st;
        st ← copy_link (copy fuel) opcode.nextField opcode.set_nextField c copied st;
        st ← copy_link (copy fuel) opcode.next opcode.set_next c copied st;
        n ← deref st.1 c;
        h ← store st.1 copied (opcode.set_jmp (opcode.jmp n));
        mret (h, st.2, copied)
      end
    end
  end.

Definition copyOpcode (fuel : nat) (h : heap) (code : ptr) : res (heap * ptr) :=
  r ← copy fuel h ∅ code;
  mret (r.1.1, r.2).


(** *** [dump] *)

(** [strings.Repeat("-", n)], which panics on a negative count. *)
Definition repeat_dash (n : Z) : res string :=
  if decide (n < 0) then Panic
  else mret (fold_right String.append EmptyString (replicate (Z.to_nat n) "-"%string)).

(** The verb [%d]. *)
Definition fmt_d (z : Z) : string := pretty z.

Definition dump_prefix (code : opcode.t) : res string :=
  dashes ← repeat_dash (opcode.indent code);
  mret ("[" +:+ fmt_d (opcode.displayIdx code) +:+ "]" +:+ dashes
        +:+ opType_String (opcode.op code) +:+ " (")%string.

Definition dump_slot (name : string) (z : Z) : string :=
  ("[" +:+ name +:+ ":" +:+ fmt_d z +:+ "]")%string.

Definition dumpHead (code : opcode.t) : res string :=
  let length :=
    if decide (codeType_of (opcode.op code) = codeArrayHead)
    then opcode.length code
    else opcode.length code / uintptrSize in
  p ← dump_prefix code;
  mret (p +:+ dump_slot "idx" (opcode.idx code / uintptrSize)
          +:+ dump_slot "headIdx" (opcode.headIdx code / uintptrSize)
          +:+ dump_slot "elemIdx" (opcode.elemIdx code / uintptrSize)
          +:+ dump_slot "length" length +:+ ")")%string.

Definition dumpMapHead (code : opcode.t) : res string :=
  p ← dump_prefix code;
  mret (p +:+ dump_slot "idx" (opcode.idx code / uintptrSize)
          +:+ dump_slot "headIdx" (opcode.headIdx code / uintptrSize)
          +:+ dump_slot "elemIdx" (opcode.elemIdx code / uintptrSize)
          +:+ dump_slot "length" (opcode.length code / uintptrSize)
          +:+ dump_slot "mapIter" (opcode.mapIter code / uintptrSize)
          +:+ ")")%string.

Definition dumpMapEnd (code : opcode.t) : res string :=
  p ← dump_prefix code;
  mret (p +:+ dump_slot "idx" (opcode.idx code / uintptrSize)
          +:+ dump_slot "mapPos" (opcode.mapPos code / uintptrSize)
          +:+ dump_slot "length" (opcode.length code / uintptrSize)
          +:+ ")")%string.

Definition dumpElem (code : opcode.t) : res string :=
  let length :=
    if decide (codeType_of (opcode.op code) = codeArrayElem)
    then opcode.length code
    else opcode.length code / uintptrSize in
  p ← dump_prefix code;
  mret (p +:+ dump_slot "idx" (opcode.idx code / uintptrSize)
          +:+ dump_slot "headIdx" (opcode.headIdx code / uintptrSize)
          +:+ dump_slot "elemIdx" (opcode.elemIdx code / uintptrSize)
          +:+ dump_slot "length" length
          +:+ dump_slot "size" (opcode.size code) +:+ ")")%string.

Definition dumpField (code : opcode.t) : res string :=
  p ← dump_prefix code;
  mret (p +:+ dump_slot "idx" (opcode.idx code / uintptrSize)
          +:+ "[key:" +:+ opcode.displayKey code +:+ "]"
          +:+ dump_slot "offset" (opcode.offset code)
          +:+ dump_slot "headIdx" (opcode.headIdx code / uintptrSize)
          +:+ ")")%string.

Definition dumpKey (code : opcode.t) : res string :=
  p ← dump_prefix code;
  mret (p +:+ dump_slot "idx" (opcode.idx code / uintptrSize)
          +:+ dump_slot "elemIdx" (opcode.elemIdx code / uintptrSize)
          +:+ dump_slot "length" (opcode.length code / uintptrSize)
          +:+ dump_slot "mapIter" (opcode.mapIter code / uintptrSize)
          +:+ ")")%string.

Definition dumpValue (code : opcode.t) : res string :=
  p ← dump_prefix code;
  mret (p +:+ dump_slot "idx" (opcode.idx code / uintptrSize)
          +:+ dump_slot "mapIter" (opcode.mapIter code / uintptrSize)
          +:+ ")")%string.

Definition dumpDefault (code : opcode.t) : res string :=
  p ← dump_prefix code;
  mret (p +:+ dump_slot "idx" (opcode.idx code / uintptrSize) +:+ ")")%string.

Fixpoint dump_loop (fuel : nat) (h : heap) (code : ptr) (codes : list string)
  : res (list string) :=
  match fuel with
  | O => OutOfFuel
  | S fuel =>
    c ← deref h code;
    if decide (opcode.op c = opEnd) then mret codes
    else
      match codeType_of (opcode.op c) with
      | codeSliceHead =>
        s ← dumpHead c; dump_loop fuel h (opcode.next c) (codes ++ [s])
      | codeMapHead =>
        s ← dumpMapHead c; dump_loop fuel h (opcode.next c) (codes ++ [s])
      | codeArrayElem | codeSliceElem =>
        s ← dumpElem c; dump_loop fuel h (opcode.end_ c) (codes ++ [s])
      | codeMapKey =>
        s ← dumpKey c; dump_loop fuel h (opcode.end_ c) (codes ++ [s])
      | codeMapValue =>
        s ← dumpValue c; dump_loop fuel h (opcode.next c) (codes ++ [s])
      | codeMapEnd =>
        s ← dumpMapEnd c; dump_loop fuel h (opcode.next c) (codes ++ [s])
      | codeStructField =>
        s ← dumpField c; dump_loop fuel h (opcode.next c) (codes ++ [s])
      | _ =>
        s ← dumpDefault c; dump_loop fuel h (opcode.next c) (codes ++ [s])
      end
  end.

Definition newline : string := String (ascii_of_nat 10) EmptyString.

(** [strings.Join(codes, "\n")] of the lines collected by the loop. *)
Definition dump (fuel : nat) (h : heap) (c : ptr) : res string :=
  codes ← dump_loop fuel h c [];
  mret (String.concat newline codes).

End Transformations.

(** * Properties *)

(** ** Heap primitives *)

Lemma alloc_fresh (h : heap) (c : opcode.t) : h !! (alloc h c).2 = None.
Proof. apply not_elem_of_dom, is_fresh. Qed.

Lemma alloc_lookup_new (h : heap) (c : opcode.t) :
  (alloc h c).1 !! (alloc h c).2 = Some c.
Proof. apply lookup_insert_eq. Qed.

Lemma alloc_lookup_old (h : heap) (c : opcode.t) (a : loc) :
  is_Some (h !! a) -> (alloc h c).1 !! a = h !! a.
Proof.
  intros [x Hx]. apply lookup_insert_ne. intros E.
  pose proof (alloc_fresh h c) as F. simpl in F, E. congruence.
Qed.

Lemma alloc_subseteq (h : heap) (c : opcode.t) : h ⊆ (alloc h c).1.
Proof. apply insert_subseteq, (alloc_fresh h c). Qed.

Lemma deref_Some (h : heap) (a : loc) (c : opcode.t) :
  h !! a = Some c -> deref h (Some a) = Ret c.
Proof. intros H. simpl. by rewrite H. Qed.

Lemma deref_Ret (h : heap) (p : ptr) (c : opcode.t) :
  deref h p = Ret c -> ∃ a, p = Some a ∧ h !! a = Some c.
Proof.
  destruct p as [a|]; simpl; [|done].
  destruct (h !! a) eqn:E; [|done]. intros [= ->]. eauto.
Qed.

Lemma store_Some (h : heap) (a : loc) (c : opcode.t) upd :
  h !! a = Some c -> store h (Some a) upd = Ret (<[a := upd c]> h).
Proof. intros H. unfold store. by rewrite (deref_Some _ _ _ H). Qed.

(** ** Integer ranges *)

Lemma wrap_uintptr_small (z : Z) : 0 <= z < 2 ^ 64 -> wrap_uintptr z = z.
Proof. intros H. unfold wrap_uintptr. by apply Z.mod_small. Qed.

Lemma wrap_int_small (z : Z) : - 2 ^ 63 <= z < 2 ^ 63 -> wrap_int z = z.
Proof. intros H. unfold wrap_int. rewrite Z.mod_small; lia. Qed.

Lemma opcodeOffset_small (k : Z) :
  0 <= k < 2 ^ 61 -> opcodeOffset k = uintptrSize * k.
Proof.
  intros H. unfold opcodeOffset, uintptrSize.
  rewrite (wrap_uintptr_small k) by lia.
  rewrite wrap_uintptr_small; lia.
Qed.

(** Reading the fields of a struct literal: the setters and the
    projections are computed, nothing else is unfolded. *)
Ltac opcode_fields :=
  cbv [opcode.op opcode.typ opcode.displayIdx opcode.key opcode.escapedKey
       opcode.displayKey opcode.isTaggedKey opcode.anonymousKey
       opcode.root opcode.indent opcode.idx opcode.headIdx opcode.elemIdx
       opcode.length opcode.mapIter opcode.mapPos opcode.offset
       opcode.size opcode.mapKey opcode.mapValue opcode.elem opcode.end_
       opcode.nextField opcode.next opcode.jmp opcode.set_op
       opcode.set_typ opcode.set_displayIdx opcode.set_key
       opcode.set_escapedKey opcode.set_displayKey opcode.set_isTaggedKey
       opcode.set_anonymousKey opcode.set_root opcode.set_indent
       opcode.set_idx opcode.set_headIdx opcode.set_elemIdx
       opcode.set_length opcode.set_mapIter opcode.set_mapPos
       opcode.set_offset opcode.set_size opcode.set_mapKey
       opcode.set_mapValue opcode.set_elem opcode.set_end_
       opcode.set_nextField opcode.set_next opcode.set_jmp literal
       fold_left zero_opcode].

(** ** The slots a container hands down to the nodes it owns *)

(** What a sequence element takes from its header: its head slot is the
    value slot of the header, which is the head slot the header has, and
    its element and length slots are those of the header. *)
Definition inherits_slice_header (hd n : opcode.t) : Prop :=
  opcode.headIdx n = opcode.idx hd
  ∧ opcode.headIdx n = opcode.headIdx hd
  ∧ opcode.elemIdx n = opcode.elemIdx hd
  ∧ opcode.length n = opcode.length hd.

(** What a map key or value takes from its header: the element, length
    and iterator slots.  The first slot of the header, its value slot, is
    not handed down: the head slot of the child is left at 0. *)
Definition inherits_map_header (hd n : opcode.t) : Prop :=
  opcode.elemIdx n = opcode.elemIdx hd
  ∧ opcode.length n = opcode.length hd
  ∧ opcode.mapIter n = opcode.mapIter hd
  ∧ opcode.headIdx n = 0.

(** A node built from the header at [head] in the heap [h]: the
    constructor returns, the header is still in place, and the new node
    stands in relation [R] to it. *)
Definition built_from (R : opcode.t -> opcode.t -> Prop)
    (r : res (heap * loc)) (h : heap) (head : loc) : Prop :=
  ∃ hd h' e n,
    h !! head = Some hd ∧ r = Ret (h', e)
    ∧ h' !! head = Some hd ∧ h' !! e = Some n ∧ e ≠ head ∧ R hd n.

Lemma built_from_alloc R (h : heap) (head : loc) (hd n : opcode.t) :
  h !! head = Some hd -> R hd n ->
  built_from R (Ret (alloc h n)) h head.
Proof.
  intros Hhd HR. exists hd, (alloc h n).1, (alloc h n).2, n.
  assert ((alloc h n).2 ≠ head) as Hne.
  { intros E. pose proof (alloc_fresh h n) as F. rewrite E in F. congruence. }
  refine (conj Hhd (conj _ (conj _ (conj _ (conj Hne HR))))).
  - by destruct (alloc h n).
  - rewrite alloc_lookup_old; eauto.
  - apply alloc_lookup_new.
Qed.

(** C6, as the code has it.  A slice element built from a slice header
    carries the head, element and length slots of the header.  A map key
    and a map value built from a map header carry the element, length and
    iterator slots of the header, and not its first slot: their head slot
    is 0.  The children may be built in any later context and in any heap
    that extends the one the header was built in. *)
Theorem container_slots_inherited
    (c c1 c2 cs ck cv : ctx.t) (withLoad : bool) (size : Z)
    (h h1 h2 hs hk hv : heap) (shead mhead : loc) :
  newSliceHeaderCode c h = (c1, h1, shead) ->
  newMapHeaderCode c withLoad h = (c2, h2, mhead) ->
  h1 ⊆ hs -> h2 ⊆ hk -> h2 ⊆ hv ->
  built_from inherits_slice_header
    (newSliceElemCode cs (Some shead) size hs) hs shead
  ∧ built_from inherits_map_header (newMapKeyCode ck (Some mhead) hk) hk mhead
  ∧ built_from inherits_map_header (newMapValueCode cv (Some mhead) hv) hv mhead.
Proof.
  unfold newSliceHeaderCode, newMapHeaderCode.
  intros Hs Hm Hhs Hhk Hhv.
  match type of Hs with context [alloc h ?n] =>
    pose proof (alloc_lookup_new h n) as Ls;
    destruct (alloc h n) as [hs0 as0] eqn:Es end.
  match type of Hm with context [alloc h ?n] =>
    pose proof (alloc_lookup_new h n) as Lm;
    destruct (alloc h n) as [hm0 am0] eqn:Em end.
  simpl in Ls, Lm. injection Hs as <- <- <-. injection Hm as <- <- <-.
  split_and!.
  - eapply (lookup_weaken _ hs) in Ls; [|done].
    unfold newSliceElemCode. rewrite (deref_Some _ _ _ Ls). cbn [mbind res_bind].
    eapply built_from_alloc; [exact Ls|].
    unfold inherits_slice_header. opcode_fields. done.
  - eapply (lookup_weaken _ hk) in Lm; [|done].
    unfold newMapKeyCode. rewrite (deref_Some _ _ _ Lm). cbn [mbind res_bind].
    eapply built_from_alloc; [exact Lm|].
    unfold inherits_map_header. opcode_fields. done.
  - eapply (lookup_weaken _ hv) in Lm; [|done].
    unfold newMapValueCode. rewrite (deref_Some _ _ _ Lm). cbn [mbind res_bind].
    eapply built_from_alloc; [exact Lm|].
    unfold inherits_map_header. opcode_fields. done.
Qed.

(** ** The slot layout of a map header *)

Lemma incPtrIndex_small (c : ctx.t) :
  0 <= ctx.ptrIndex c < 2 ^ 62 ->
  ctx.ptrIndex (ctx.incPtrIndex c) = ctx.ptrIndex c + 1.
Proof. intros H. simpl. apply wrap_int_small. lia. Qed.

(** C7. The map header constructor hands out four consecutive slots
    starting at the next free slot of the context: the value slot, the
    element slot, the length slot and the iterator slot, one stride apart.
    The two variants selected by [withLoad] return the same address and the
    same context, and the nodes they build differ in the operation kind
    only. *)
Theorem map_header_layout (c : ctx.t) (h : heap) :
  0 <= ctx.ptrIndex c -> ctx.ptrIndex c + 3 < 2 ^ 61 ->
  ∃ (c' : ctx.t) (a : loc) (n : opcode.t),
    newMapHeaderCode c false h = (c', <[a := n]> h, a)
    ∧ newMapHeaderCode c true h
      = (c', <[a := opcode.set_op opMapHeadLoad n]> h, a)
    ∧ h !! a = None
    ∧ opcode.op n = opMapHead
    ∧ opMapHead ≠ opMapHeadLoad
    ∧ opcode.idx n = uintptrSize * ctx.ptrIndex c
    ∧ opcode.elemIdx n = opcode.idx n + uintptrSize
    ∧ opcode.length n = opcode.idx n + 2 * uintptrSize
    ∧ opcode.mapIter n = opcode.idx n + 3 * uintptrSize
    ∧ ctx.ptrIndex c' = ctx.ptrIndex c + 3.
Proof.
  intros Hlo Hhi.
  set (c1 := ctx.incPtrIndex c).
  set (c2 := ctx.incPtrIndex c1).
  set (c3 := ctx.incPtrIndex c2).
  assert (ctx.ptrIndex c1 = ctx.ptrIndex c + 1) as E1
    by (apply incPtrIndex_small; lia).
  assert (ctx.ptrIndex c2 = ctx.ptrIndex c + 2) as E2
    by (unfold c2; rewrite incPtrIndex_small; lia).
  assert (ctx.ptrIndex c3 = ctx.ptrIndex c + 3) as E3
    by (unfold c3; rewrite incPtrIndex_small; lia).
  eexists c3, (fresh (dom h)), _.
  split; [reflexivity|].
  split.
  { unfold newMapHeaderCode, alloc. fold c1 c2 c3. opcode_fields.
    reflexivity. }
  split; [apply not_elem_of_dom, is_fresh|].
  opcode_fields.
  split; [reflexivity|].
  split; [discriminate|].
  fold c1. fold c2. fold c3. rewrite E1, E2, E3.
  rewrite !opcodeOffset_small by lia.
  unfold uintptrSize. repeat split; lia.
Qed.

(** A context whose next free slot is 5: the header occupies the slots
    5, 6, 7 and 8. *)
Lemma map_header_layout_witness :
  ∃ (c' : ctx.t) (a : loc) (n : opcode.t),
    newMapHeaderCode (ctx.mk None false 0 5 0) false ∅ = (c', <[a := n]> ∅, a)
    ∧ newMapHeaderCode (ctx.mk None false 0 5 0) true ∅
      = (c', <[a := opcode.set_op opMapHeadLoad n]> ∅, a)
    ∧ (∅ : heap) !! a = None
    ∧ opcode.op n = opMapHead
    ∧ opMapHead ≠ opMapHeadLoad
    ∧ opcode.idx n = uintptrSize * 5
    ∧ opcode.elemIdx n = opcode.idx n + uintptrSize
    ∧ opcode.length n = opcode.idx n + 2 * uintptrSize
    ∧ opcode.mapIter n = opcode.idx n + 3 * uintptrSize
    ∧ ctx.ptrIndex c' = 5 + 3.
Proof.
  apply (map_header_layout (ctx.mk None false 0 5 0) ∅); simpl; lia.
Defined.

(** ** Fallthrough chains *)

Section Chains.

Variable codeType_of : opType -> codeType.

(** [chain h p l e]: the walk that starts at [p] and follows the
    fallthrough edge visits the non-terminal nodes [l], in this order, and
    then reaches the terminal node [e]. *)
Inductive chain (h : heap) : ptr -> list loc -> loc -> Prop :=
  | chain_end (e : loc) (c : opcode.t) :
      h !! e = Some c -> opcode.op c = opEnd -> chain h (Some e) [] e
  | chain_step (a : loc) (c : opcode.t) (l : list loc) (e : loc) :
      h !! a = Some c -> opcode.op c ≠ opEnd ->
      chain h (fallthrough codeType_of c) l e -> chain h (Some a) (a :: l) e.

(** Two nodes that a walk cannot tell apart: same kind, same [next] and
    [end] links. *)
Definition same_shape (c c' : opcode.t) : Prop :=
  opcode.op c = opcode.op c'
  ∧ opcode.next c = opcode.next c'
  ∧ opcode.end_ c = opcode.end_ c'.

Lemma same_shape_refl c : same_shape c c.
Proof. by repeat split. Qed.

Lemma same_shape_fallthrough c c' :
  same_shape c c' -> fallthrough codeType_of c = fallthrough codeType_of c'.
Proof.
  intros (Ho & Hn & He). unfold fallthrough.
  rewrite Ho, Hn, He. done.
Qed.

(** [h'] looks like [h] at [x]. *)
Definition shape_at (h h' : heap) (x : loc) : Prop :=
  ∀ c, h !! x = Some c -> ∃ c', h' !! x = Some c' ∧ same_shape c c'.

Lemma chain_det h p l e l' e' :
  chain h p l e -> chain h p l' e' -> l = l' ∧ e = e'.
Proof.
  intros H. revert l' e'. induction H as [e c Hc Ho|a c l e Hc Ho H IH];
    intros l' e' H'; inversion H'; simplify_eq; try done.
  match goal with
  | H1 : chain _ _ ?l1 ?e1 |- _ :: _ = _ :: ?l1 ∧ _ = ?e1 =>
    destruct (IH _ _ H1) as [-> ->]
  end. done.
Qed.

Lemma chain_nonterminal h p l e a c :
  chain h p l e -> a ∈ l -> h !! a = Some c -> opcode.op c ≠ opEnd.
Proof.
  induction 1 as [|a' c' l e Hc Ho H IH]; intros Hin Ha.
  - by apply elem_of_nil in Hin.
  - apply elem_of_cons in Hin as [->|Hin]; [congruence|by apply IH].
Qed.

Lemma chain_terminal h p l e :
  chain h p l e -> ∃ c, h !! e = Some c ∧ opcode.op c = opEnd.
Proof. induction 1; eauto. Qed.

Lemma chain_lookup h p l e a :
  chain h p l e -> a ∈ l -> is_Some (h !! a).
Proof.
  induction 1 as [|a' c' l e Hc Ho H IH]; intros Hin.
  - by apply elem_of_nil in Hin.
  - apply elem_of_cons in Hin as [->|Hin]; eauto.
Qed.

Lemma chain_terminal_not_in h p l e : chain h p l e -> e ∉ l.
Proof.
  intros H Hin. destruct (chain_terminal _ _ _ _ H) as (c & Hc & Ho).
  by eapply chain_nonterminal.
Qed.

(** The walk that starts at a node of the chain is a suffix of the chain. *)
Lemma chain_suffix h p l e a :
  chain h p l e -> a ∈ l ->
  ∃ l1 l2, l = l1 ++ a :: l2 ∧ chain h (Some a) (a :: l2) e.
Proof.
  induction 1 as [|a' c' l e Hc Ho H IH]; intros Hin.
  - by apply elem_of_nil in Hin.
  - destruct (decide (a = a')) as [->|Hne].
    + exists [], l. split; [done|]. by econstructor.
    + apply elem_of_cons in Hin as [?|Hin]; [done|].
      destruct (IH Hin) as (l1 & l2 & -> & H2).
      exists (a' :: l1), l2. done.
Qed.

(** A walk that terminates visits no node twice. *)
Lemma chain_NoDup h p l e : chain h p l e -> NoDup l.
Proof.
  induction 1 as [|a c l e Hc Ho H IH]; [constructor|].
  constructor; [|done]. intros Hin.
  assert (chain h (Some a) (a :: l) e) as Hfull by by econstructor.
  destruct (chain_suffix _ _ _ _ _ H Hin) as (l1 & l2 & -> & H2).
  destruct (chain_det _ _ _ _ _ _ Hfull H2) as [E _].
  apply (f_equal List.length) in E. rewrite !length_cons, length_app in E.
  simpl in E. lia.
Qed.

(** A walk only reads the kinds and the [next] and [end] links of the
    nodes it visits. *)
Lemma chain_frame h h' p l e :
  chain h p l e ->
  (∀ x, x ∈ l -> shape_at h h' x) -> shape_at h h' e ->
  chain h' p l e.
Proof.
  induction 1 as [e c Hc Ho|a c l e Hc Ho H IH]; intros Hl He.
  - destruct (He _ Hc) as (c' & Hc' & Hs). econstructor; [done|].
    destruct Hs as (<- & _). done.
  - destruct (Hl a (list_elem_of_here _ _) _ Hc) as (c' & Hc' & Hs).
    econstructor; [done| |].
    + destruct Hs as (<- & _). done.
    + rewrite <- (same_shape_fallthrough _ _ Hs). apply IH; [|done].
      intros x Hx. apply Hl. by apply list_elem_of_further.
Qed.

Lemma shape_at_insert_ne h x y c : x ≠ y -> shape_at h (<[y := c]> h) x.
Proof.
  intros Hne c0 Hc0. exists c0. rewrite lookup_insert_ne by done.
  split; [done|apply same_shape_refl].
Qed.

Lemma shape_at_insert h x y c c' :
  h !! y = Some c -> same_shape c c' -> shape_at h (<[y := c']> h) x.
Proof.
  intros Hy Hs. destruct (decide (x = y)) as [->|Hne].
  - intros c0 Hc0. exists c'. rewrite lookup_insert_eq. split; [done|].
    congruence.
  - by apply shape_at_insert_ne.
Qed.

End Chains.

(** ** Constructors and the terminal node *)

Section Termination.

Variable codeType_of : opType -> codeType.

(** The kinds whose fallthrough edge is [next]. *)
Definition follows_next (o : opType) : Prop :=
  codeType_of o ≠ codeArrayElem
  ∧ codeType_of o ≠ codeSliceElem
  ∧ codeType_of o ≠ codeMapKey.

Lemma fallthrough_next (c : opcode.t) :
  follows_next (opcode.op c) -> fallthrough codeType_of c = opcode.next c.
Proof.
  intros (H1 & H2 & H3). unfold fallthrough.
  by destruct (codeType_of (opcode.op c)).
Qed.

(** The graph at [r.2] in the heap [r.1] reaches its terminal node, and
    does so after at most [n] nodes. *)
Definition reaches_terminal (n : nat) (r : heap * loc) : Prop :=
  ∃ l e, chain codeType_of r.1 (Some r.2) l e ∧ (List.length l <= n)%nat.

(** [beforeLastCode] walks the chain and returns its last node. *)
Lemma beforeLastCode_chain (h : heap) (a : loc) (l : list loc) (e : loc) :
  chain codeType_of h (Some a) (a :: l) e ->
  ∀ fuel, (List.length l < fuel)%nat ->
    beforeLastCode codeType_of fuel h (Some a)
    = Ret (Some (List.last l a)).
Proof.
  revert a. induction l as [|b l IH]; intros a H fuel Hf.
  - inversion H as [|a' c l' e' Hc Ho H']; subst.
    inversion H' as [e' c' Hc' Ho'|]; subst.
    destruct fuel as [|fuel]; [simpl in Hf; lia|].
    simpl. rewrite Hc. simpl.
    match goal with E : Some _ = fallthrough _ _ |- _ => rewrite <- E end.
    simpl. rewrite Hc'. simpl. by rewrite decide_True.
  - inversion H as [|a' c l' e' Hc Ho H']; subst.
    inversion H' as [|b' c' l' e' Hc' Ho' H'']; subst.
    destruct fuel as [|fuel]; [simpl in Hf; lia|].
    simpl in Hf.
    cbn [beforeLastCode beforeLastCode_loop]. rewrite (deref_Some _ _ _ Hc).
    cbn [mbind res_bind].
    match goal with E : Some _ = fallthrough _ _ |- _ => rewrite <- E end.
    rewrite (deref_Some _ _ _ Hc'). cbn [mbind res_bind].
    rewrite decide_False by done.
    match goal with E : Some _ = fallthrough _ _ |- _ =>
      rewrite <- E in H' end.
    change (List.last (b :: l) a) with
      (match l with [] => b | _ :: _ => List.last l a end).
    specialize (IH b H' fuel ltac:(lia)). unfold beforeLastCode in IH.
    rewrite IH. f_equal. f_equal. clear. destruct l as [|x l]; [done|].
    revert x. induction l as [|y l IHl]; intros x; [done|]. apply (IHl y).
Qed.

(** A node allocated on top of a chain extends the chain. *)
Lemma chain_alloc (h : heap) (p : ptr) (l : list loc) (e : loc) (c : opcode.t) :
  chain codeType_of h p l e ->
  opcode.op c ≠ opEnd -> fallthrough codeType_of c = p ->
  chain codeType_of (alloc h c).1 (Some (alloc h c).2) ((alloc h c).2 :: l) e.
Proof.
  intros H Ho Hp. econstructor; [apply alloc_lookup_new|done|].
  rewrite Hp. eapply chain_frame; [done| |].
  - intros x Hx c0 Hc0. exists c0. split; [|apply same_shape_refl].
    rewrite alloc_lookup_old; eauto.
  - intros c0 Hc0. exists c0. split; [|apply same_shape_refl].
    rewrite alloc_lookup_old; eauto.
Qed.

Lemma chain_alloc_end (h : heap) (c : opcode.t) :
  opcode.op c = opEnd ->
  chain codeType_of (alloc h c).1 (Some (alloc h c).2) [] (alloc h c).2.
Proof. intros Ho. econstructor; [apply alloc_lookup_new|done]. Qed.

Lemma newEndOp_chain (c : ctx.t) (h : heap) :
  chain codeType_of (newEndOp c h).1 (Some (newEndOp c h).2) []
    (newEndOp c h).2.
Proof. by apply chain_alloc_end. Qed.

(** A node whose fallthrough edge is [next], allocated with a fresh
    terminal node as its [next], reaches that terminal node. *)
Lemma chain_alloc_on_end (c : ctx.t) (h : heap) (mk : ptr -> opcode.t) :
  (∀ p, opcode.op (mk p) ≠ opEnd) ->
  (∀ p, fallthrough codeType_of (mk p) = p) ->
  reaches_terminal 1
    (let '(h, e) := newEndOp c h in alloc h (mk (Some e))).
Proof.
  intros Ho Hf. pose proof (newEndOp_chain c h) as H.
  destruct (newEndOp c h) as [h1 e]. simpl in H.
  exists [(alloc h1 (mk (Some e))).2], e. split; [|simpl; lia].
  apply (chain_alloc h1 (Some e) [] e); [done|apply Ho|apply Hf].
Qed.

(** C8, as the code has it.  The constructors that wire a terminal node
    build a graph whose fallthrough walk reaches a terminal node:
    [newEndOp] (the terminal node itself), [newOpCode], [newInterfaceCode],
    [newRecursiveCode] and [newMapEndCode] (one node in front of a fresh
    terminal node), and [newOpCodeWithNext] on top of a graph that reaches
    its terminal node.  This needs the fallthrough edge of the new node to
    be its [next] link. *)
Theorem wired_constructors_reach_terminal
    (c : ctx.t) (h : heap) (o : opType) (jmp : option positive)
    (head : loc) (next : ptr) (l : list loc) (e : loc) :
  follows_next o ->
  follows_next opInterface ->
  follows_next opStructFieldRecursive ->
  follows_next opMapEnd ->
  is_Some (h !! head) ->
  chain codeType_of h next l e ->
  reaches_terminal 0 (newEndOp c h)
  ∧ reaches_terminal 1 (newOpCode c o h)
  ∧ reaches_terminal 1 (newInterfaceCode c h)
  ∧ reaches_terminal 1 (newRecursiveCode c jmp h)
  ∧ (∃ c' h' a, newMapEndCode c (Some head) h = Ret (c', h', a)
       ∧ reaches_terminal 1 (h', a))
  ∧ reaches_terminal (S (List.length l)) (newOpCodeWithNext c o next h).
Proof.
  intros Ho Hi Hr Hm [hd Hhd] Hnext. split_and!.
  - eexists [], _. split; [apply newEndOp_chain|done].
  - unfold newOpCode. destruct (decide (o = opEnd)) as [->|Hne].
    + destruct (newEndOp c h) as [h1 e1].
      eexists [], _. split; [|simpl; lia]. by apply chain_alloc_end.
    + apply (chain_alloc_on_end c h (fun p => literal o
        [ opcode.set_typ (ctx.typ c);
          opcode.set_displayIdx (ctx.opcodeIndex c);
          opcode.set_indent (ctx.indent c);
          opcode.set_idx (opcodeOffset (ctx.ptrIndex c));
          opcode.set_next p ])); [done|].
      intros p. by rewrite fallthrough_next.
  - apply (chain_alloc_on_end c h (fun p => literal opInterface
      [ opcode.set_typ (ctx.typ c);
        opcode.set_displayIdx (ctx.opcodeIndex c);
        opcode.set_idx (opcodeOffset (ctx.ptrIndex c));
        opcode.set_indent (ctx.indent c);
        opcode.set_root (ctx.root c);
        opcode.set_next p ])); [done|].
    intros p. by rewrite fallthrough_next.
  - apply (chain_alloc_on_end c h (fun p => literal opStructFieldRecursive
      [ opcode.set_typ (ctx.typ c);
        opcode.set_displayIdx (ctx.opcodeIndex c);
        opcode.set_idx (opcodeOffset (ctx.ptrIndex c));
        opcode.set_indent (ctx.indent c);
        opcode.set_next p;
        opcode.set_jmp jmp ])); [done|].
    intros p. by rewrite fallthrough_next.
  - unfold newMapEndCode. rewrite (deref_Some _ _ _ Hhd).
    cbn [mbind res_bind].
    pose proof (chain_alloc_on_end (ctx.incPtrIndex c) h (fun p =>
      literal opMapEnd
        [ opcode.set_displayIdx (ctx.opcodeIndex (ctx.incPtrIndex c));
          opcode.set_idx (opcodeOffset (ctx.ptrIndex (ctx.incPtrIndex c)));
          opcode.set_length (opcode.length hd);
          opcode.set_mapPos (opcodeOffset (ctx.ptrIndex c));
          opcode.set_indent (ctx.indent (ctx.incPtrIndex c));
          opcode.set_next p ])) as H.
    destruct (newEndOp (ctx.incPtrIndex c) h) as [h1 e1].
    match type of H with context [alloc h1 ?n] =>
      destruct (alloc h1 n) as [h2 a] end.
    eexists _, _, _. split; [reflexivity|]. apply H; [done|].
    intros p. by rewrite fallthrough_next.
  - unfold newOpCodeWithNext. destruct (decide (o = opEnd)) as [->|Hne].
    + eexists [], _. split; [|simpl; lia]. by apply chain_alloc_end.
    + eexists (_ :: l), e. split; [|simpl; lia].
      apply (chain_alloc h next l e); [done|done|].
      by rewrite fallthrough_next.
Qed.

End Termination.

(** ** Splicing a field out of a chain: [linkPrevToNextField] *)

Section Splice.

Variable codeType_of : opType -> codeType.

(** The loop on a chain that never leads to [cur]: it stops in front of
    the terminal node and leaves the heap as it is. *)
Lemma linkPrevToNextField_loop_miss (h : heap) (cur : loc) (l : list loc) (e : loc) :
  ∀ (x : loc) (cx : opcode.t),
    h !! x = Some cx ->
    chain codeType_of h (fallthrough codeType_of cx) l e ->
    fallthrough codeType_of cx ≠ Some cur ->
    (∀ a c, a ∈ l -> h !! a = Some c -> fallthrough codeType_of c ≠ Some cur) ->
    ∀ fuel, (List.length l < fuel)%nat ->
      linkPrevToNextField_loop codeType_of fuel h (Some x) (Some cur) = Ret h.
Proof.
  induction l as [|b l IH]; intros x cx Hx H Hne Hl fuel Hf;
    (destruct fuel as [|fuel]; [simpl in Hf; lia|]);
    cbn [linkPrevToNextField_loop]; rewrite (deref_Some _ _ _ Hx);
    cbn [mbind res_bind]; rewrite decide_False by done.
  - inversion H as [e' ce Hce Hoe E|]; subst.
    rewrite (deref_Some _ _ _ Hce). cbn [mbind res_bind].
    by rewrite decide_True.
  - inversion H as [|b' cb l' e' Hcb Hob H' E]; subst.
    rewrite (deref_Some _ _ _ Hcb). cbn [mbind res_bind].
    rewrite decide_False by done.
    apply (IH b cb); try done.
    + apply (Hl b cb); [apply list_elem_of_here|done].
    + intros a c Ha. apply Hl. by apply list_elem_of_further.
    + simpl in Hf. lia.
Qed.

(** C10. When [cur] is not the fallthrough successor of any node that the
    walk from [prev] visits before the terminal node, the call returns, the
    [nextField] link of [prev] becomes that of [cur], and nothing else
    changes: every other node is as it was, and [prev] keeps all its other
    fields. *)
Theorem linkPrevToNextField_miss_frame
    (h : heap) (prev cur : loc) (np nc : opcode.t) (l : list loc) (e : loc) :
  h !! prev = Some np ->
  h !! cur = Some nc ->
  chain codeType_of h (fallthrough codeType_of np) l e ->
  fallthrough codeType_of np ≠ Some cur ->
  (∀ a c, a ∈ l -> h !! a = Some c -> fallthrough codeType_of c ≠ Some cur) ->
  ∀ fuel, (List.length l < fuel)%nat ->
    linkPrevToNextField codeType_of fuel h (Some prev) (Some cur)
    = Ret (<[prev := opcode.set_nextField (opcode.nextField nc) np]> h).
Proof.
  intros Hp Hc H Hne Hl fuel Hf. unfold linkPrevToNextField.
  rewrite (deref_Some _ _ _ Hc). cbn [mbind res_bind].
  rewrite (store_Some _ _ _ _ Hp). cbn [mbind res_bind].
  set (np' := opcode.set_nextField (opcode.nextField nc) np).
  assert (same_shape np np') as Hs by by repeat split.
  eapply (linkPrevToNextField_loop_miss _ cur l e prev np').
  - apply lookup_insert_eq.
  - eapply chain_frame; [exact H| |].
    + intros x _. eapply shape_at_insert; [exact Hp|exact Hs].
    + eapply shape_at_insert; [exact Hp|exact Hs].
  - done.
  - intros a c Ha Hac. destruct (decide (a = prev)) as [->|Hap].
    + rewrite lookup_insert_eq in Hac. by injection Hac as <-.
    + rewrite lookup_insert_ne in Hac by done. by eapply Hl.
  - done.
Qed.

(** The loop on a chain that leads to [b]: it stops at the node [p] in
    front of [b] and writes the [next] link of [b] into that of [p]. *)
Lemma linkPrevToNextField_loop_found
    (h : heap) (p b : loc) (np nb : opcode.t) (l2 : list loc) (e : loc) :
  h !! p = Some np -> h !! b = Some nb ->
  ∀ (l1 : list loc) (x : loc),
    chain codeType_of h (Some x) (l1 ++ p :: b :: l2) e ->
    ∀ fuel, (List.length l1 < fuel)%nat ->
      linkPrevToNextField_loop codeType_of fuel h (Some x) (Some b)
      = Ret (<[p := opcode.set_next (opcode.next nb) np]> h).
Proof.
  intros Hp Hb. induction l1 as [|y l1 IH]; intros x H fuel Hf;
    (destruct fuel as [|fuel]; [simpl in Hf; lia|]).
  - inversion H as [|p' cp l' e' Hcp Hop H' E]; subst.
    inversion H' as [|b' cb l' e' Hcb Hob H'' E]; subst.
    assert (cp = np) as -> by congruence.
    cbn [linkPrevToNextField_loop]. rewrite (deref_Some _ _ _ Hp).
    cbn [mbind res_bind]. rewrite decide_True by done.
    rewrite (deref_Some _ _ _ Hb). cbn [mbind res_bind].
    by rewrite (store_Some _ _ _ _ Hp).
  - pose proof (chain_NoDup _ _ _ _ _ H) as Hnd.
    inversion H as [|y' cy l' e' Hcy Hoy H' E]; subst.
    assert (∃ z, fallthrough codeType_of cy = Some z ∧ z ≠ b
                 ∧ is_Some (h !! z)
                 ∧ (∀ cz, h !! z = Some cz -> opcode.op cz ≠ opEnd))
      as (z & Ez & Hzb & [cz Hz] & Hoz).
    { inversion H' as [e' ce Hce Hoe E1 E2|z cz l' e' Hcz Hoz H'' E1 E2].
      - by destruct l1.
      - exists z. split; [done|]. split; [|split; [eauto|congruence]].
        intros ->. simpl in Hnd. apply NoDup_cons in Hnd as [_ Hnd].
        rewrite <- E2 in Hnd. apply NoDup_cons in Hnd as [Hnd _].
        apply Hnd. destruct l1 as [|w l1]; simpl in E2.
        + injection E2 as -> ->. apply list_elem_of_here.
        + injection E2 as -> ->. apply elem_of_app. right.
          apply list_elem_of_further, list_elem_of_here. }
    cbn [linkPrevToNextField_loop]. rewrite (deref_Some _ _ _ Hcy).
    cbn [mbind res_bind]. rewrite Ez.
    rewrite decide_False by congruence.
    rewrite (deref_Some _ _ _ Hz). cbn [mbind res_bind].
    rewrite decide_False by eauto.
    apply IH; [by rewrite <- Ez|simpl in Hf; lia].
Qed.

(** Taking [b] out of a chain: when the node [p] in front of [b] is made
    to fall through to the successor of [b], the walk visits the same
    nodes but [b]. *)
Lemma chain_splice (h h' : heap) (p b : loc) (np' nb : opcode.t)
    (l2 : list loc) (e : loc) :
  h !! b = Some nb -> h' !! p = Some np' ->
  opcode.op np' ≠ opEnd ->
  fallthrough codeType_of np' = fallthrough codeType_of nb ->
  (∀ x, x ≠ p -> shape_at h h' x) ->
  ∀ (l1 : list loc) (q : ptr),
    chain codeType_of h q (l1 ++ p :: b :: l2) e ->
    chain codeType_of h' q (l1 ++ p :: l2) e.
Proof.
  intros Hb Hp' Hop Hft Hshape. induction l1 as [|y l1 IH]; intros q H.
  - pose proof (chain_NoDup _ _ _ _ _ H) as Hnd.
    pose proof (chain_terminal_not_in _ _ _ _ _ H) as Hne.
    inversion H as [|p' cp l' e' Hcp Hop' H' E]; subst.
    inversion H' as [|b' cb l' e' Hcb Hob H'' E]; subst.
    assert (cb = nb) as -> by congruence.
    simpl. econstructor; [done|done|]. rewrite Hft.
    eapply chain_frame; [exact H''| |].
    + intros x Hx. apply Hshape. intros ->.
      apply NoDup_cons in Hnd as [Hnd _]. apply Hnd.
      by apply list_elem_of_further.
    + apply Hshape. intros ->. apply Hne. apply list_elem_of_here.
  - pose proof (chain_NoDup _ _ _ _ _ H) as Hnd.
    inversion H as [|y' cy l' e' Hcy Hoy H' E]; subst.
    assert (y ≠ p) as Hyp.
    { intros ->. simpl in Hnd. apply NoDup_cons in Hnd as [Hnd _].
      apply Hnd, elem_of_app. right. apply list_elem_of_here. }
    destruct (Hshape y Hyp _ Hcy) as (cy' & Hcy' & Hs).
    simpl. econstructor; [done| |].
    + destruct Hs as (<- & _). done.
    + rewrite <- (same_shape_fallthrough _ _ _ Hs). by apply IH.
Qed.

End Splice.

Section SpliceField.

Variable codeType_of : opType -> codeType.

(** A record field node falls through to its [next] link. *)
Lemma field_follows_next (o : opType) :
  codeType_of o = codeStructField -> follows_next codeType_of o.
Proof. intros H. unfold follows_next. rewrite H. done. Qed.

(** The splice where it works.  [a] and [b] are field nodes, the walk
    from [a] reaches the terminal node and visits [b] after [a]; [p] is the
    node in front of [b] on that walk, and the fallthrough edge of [p] is
    its [next] link, the link the code writes.  Then the call returns and
    (i) the [nextField] link of [a] is the one [b] had, (ii) the
    fallthrough edge of [p] is the one [b] had, and nothing but these two
    links has changed, and (iii) the walk from [a] visits the nodes it
    visited before, but [b], and reaches the same terminal node. *)
Theorem linkPrevToNextField_skips_field
    (h : heap) (a b p : loc) (na nb np : opcode.t)
    (l1 l2 : list loc) (e : loc) :
  chain codeType_of h (Some a) (l1 ++ p :: b :: l2) e ->
  h !! a = Some na -> h !! b = Some nb -> h !! p = Some np ->
  codeType_of (opcode.op na) = codeStructField ->
  codeType_of (opcode.op nb) = codeStructField ->
  follows_next codeType_of (opcode.op np) ->
  ∃ (h' : heap) (na' np' : opcode.t),
    (∀ fuel, (List.length l1 < fuel)%nat ->
       linkPrevToNextField codeType_of fuel h (Some a) (Some b) = Ret h')
    ∧ h' !! a = Some na'
    ∧ opcode.nextField na' = opcode.nextField nb
    ∧ h' !! p = Some np'
    ∧ fallthrough codeType_of np' = fallthrough codeType_of nb
    ∧ h' = <[p := opcode.set_next (opcode.next nb)
                    (if decide (p = a)
                     then opcode.set_nextField (opcode.nextField nb) na
                     else np)]>
             (<[a := opcode.set_nextField (opcode.nextField nb) na]> h)
    ∧ chain codeType_of h' (Some a) (l1 ++ p :: l2) e
    ∧ b ∉ l1 ++ p :: l2.
Proof.
  intros H Ha Hb Hp Hfa Hfb Hnp.
  pose proof (chain_NoDup _ _ _ _ _ H) as Hnd.
  assert (b ∉ l1 ++ p :: l2) as Hbnot.
  { intros Hin. apply NoDup_app in Hnd as (_ & Hd & Hnd).
    apply NoDup_cons in Hnd as [Hpn Hnd]. apply NoDup_cons in Hnd as [Hbn _].
    apply elem_of_app in Hin as [Hin|Hin].
    - apply (Hd b Hin). apply list_elem_of_further, list_elem_of_here.
    - apply elem_of_cons in Hin as [->|Hin]; [|done].
      apply Hpn, list_elem_of_here. }
  assert (a ∈ l1 ++ [p]) as Hain.
  { inversion H as [e' ce Hce Hoe E1 E2|a' ca l' e' Hca Hoa H' E1 E2].
    - by destruct l1.
    - destruct l1 as [|w l1]; simplify_eq/=; set_solver. }
  assert (a ≠ b) as Hab.
  { intros ->. apply Hbnot. apply elem_of_app in Hain as [?|Hin].
    - apply elem_of_app. by left.
    - apply list_elem_of_singleton in Hin as ->. apply elem_of_app. right.
      apply list_elem_of_here. }
  set (na1 := opcode.set_nextField (opcode.nextField nb) na).
  set (h1 := <[a := na1]> h).
  set (np1 := if decide (p = a) then na1 else np).
  assert (h1 !! p = Some np1) as Hp1.
  { unfold h1, np1. case_decide as E; [subst; apply lookup_insert_eq|].
    by rewrite lookup_insert_ne. }
  assert (h1 !! b = Some nb) as Hb1
    by (unfold h1; by rewrite lookup_insert_ne).
  assert (same_shape na na1) as Hsa by by repeat split.
  assert (∀ x, shape_at h h1 x) as Hsh1
    by (intros x; eapply shape_at_insert; [exact Ha|exact Hsa]).
  assert (chain codeType_of h1 (Some a) (l1 ++ p :: b :: l2) e) as H1
    by (eapply chain_frame; [exact H| |]; eauto).
  set (np' := opcode.set_next (opcode.next nb) np1).
  set (h' := <[p := np']> h1).
  assert (opcode.op np1 = opcode.op np) as Hop1.
  { unfold np1. case_decide as E; [|done]. subst. simpl. congruence. }
  assert (opcode.op np ≠ opEnd) as Hopn.
  { eapply (chain_nonterminal _ _ _ _ _ p np H); [|done].
    apply elem_of_app. right. apply list_elem_of_here. }
  exists h', (if decide (p = a) then np' else na1), np'.
  split_and!.
  - intros fuel Hf. unfold linkPrevToNextField.
    rewrite (deref_Some _ _ _ Hb). cbn [mbind res_bind].
    rewrite (store_Some _ _ _ _ Ha). cbn [mbind res_bind].
    by apply (linkPrevToNextField_loop_found _ h1 p b np1 nb l2 e Hp1 Hb1 l1).
  - unfold h'. case_decide as E; [subst; apply lookup_insert_eq|].
    rewrite lookup_insert_ne by done. apply lookup_insert_eq.
  - by case_decide.
  - apply lookup_insert_eq.
  - rewrite !fallthrough_next.
    + done.
    + by apply field_follows_next.
    + simpl. by rewrite Hop1.
  - done.
  - apply (chain_splice _ h1 h' p b np' nb l2 e); try done.
    + apply lookup_insert_eq.
    + simpl. by rewrite Hop1.
    + rewrite !fallthrough_next.
      * done.
      * by apply field_follows_next.
      * simpl. by rewrite Hop1.
    + intros x Hx. by apply shape_at_insert_ne.
  - done.
Qed.

End SpliceField.

(** ** The register file size: [totalLength] *)

(** The largest of a list of slot numbers; 0 for the empty list. *)
Definition max_slot (zs : list Z) : Z := foldr Z.max 0 zs.

(** Slot numbers that never decrease along the list. *)
Definition nondecreasing (zs : list Z) : Prop :=
  ∀ (i j : nat) (x y : Z),
    (i <= j)%nat -> zs !! i = Some x -> zs !! j = Some y -> x <= y.

Lemma max_slot_ge (zs : list Z) (z : Z) : z ∈ zs -> z <= max_slot zs.
Proof.
  induction zs as [|y zs IH]; intros Hin.
  - by apply elem_of_nil in Hin.
  - simpl. apply elem_of_cons in Hin as [->|Hin]; [lia|].
    specialize (IH Hin). lia.
Qed.

Lemma nondecreasing_tail (z : Z) (zs : list Z) :
  nondecreasing (z :: zs) -> nondecreasing zs.
Proof.
  intros H i j x y Hij Hi Hj. apply (H (S i) (S j) x y); [lia|done|done].
Qed.

Lemma last_nondecreasing (zs : list Z) :
  nondecreasing zs -> (∀ z, z ∈ zs -> 0 <= z) ->
  List.last zs 0 = max_slot zs.
Proof.
  induction zs as [|z zs IH]; intros Hmono Hpos; [done|].
  destruct zs as [|y zs].
  - simpl. specialize (Hpos z (list_elem_of_here _ _)). lia.
  - change (List.last (z :: y :: zs) 0) with (List.last (y :: zs) 0).
    rewrite IH.
    + change (max_slot (z :: y :: zs)) with (Z.max z (max_slot (y :: zs))).
      assert (z <= y) by (apply (Hmono 0%nat 1%nat); [lia|done|done]).
      pose proof (max_slot_ge (y :: zs) y (list_elem_of_here _ _)). lia.
    + by eapply nondecreasing_tail.
    + intros w Hw. apply Hpos. by apply list_elem_of_further.
Qed.

Lemma last_nonempty_default {A} (y : A) (l : list A) (d d' : A) :
  List.last (y :: l) d = List.last (y :: l) d'.
Proof.
  revert y. induction l as [|z l IH]; intros y; [done|].
  change (List.last (z :: l) d = List.last (z :: l) d'). apply IH.
Qed.

Lemma last_elem_of {A} (y : A) (l : list A) (d : A) :
  List.last (y :: l) d ∈ y :: l.
Proof.
  revert y. induction l as [|z l IH]; intros y; [apply list_elem_of_here|].
  change (List.last (z :: l) d ∈ y :: z :: l).
  apply list_elem_of_further, IH.
Qed.

Section RegisterFile.

Variable codeType_of : opType -> codeType.

(** The kinds at which [totalLength] stops before the terminal node. *)
Definition stops_length (o : opType) : Prop :=
  o = opInterfaceEnd ∨ o = opStructFieldRecursiveEnd.

(** [length_walk h p l]: the walk of [totalLength] from [p] visits the
    nodes [l]; it follows the fallthrough edge, stops at the terminal node
    (which it does not visit) and stops at a node of kind [opInterfaceEnd]
    or [opStructFieldRecursiveEnd] (which it visits). *)
Inductive length_walk (h : heap) : ptr -> list loc -> Prop :=
  | length_walk_end (e : loc) (c : opcode.t) :
      h !! e = Some c -> opcode.op c = opEnd -> length_walk h (Some e) []
  | length_walk_stop (a : loc) (c : opcode.t) :
      h !! a = Some c -> stops_length (opcode.op c) ->
      length_walk h (Some a) [a]
  | length_walk_step (a : loc) (c : opcode.t) (l : list loc) :
      h !! a = Some c -> opcode.op c ≠ opEnd ->
      ¬ stops_length (opcode.op c) ->
      length_walk h (fallthrough codeType_of c) l ->
      length_walk h (Some a) (a :: l).

(** The slot number of the value slot of the node at [a]. *)
Definition slot_index (h : heap) (a : loc) : Z :=
  match h !! a with
  | Some c => opcode.idx c / uintptrSize
  | None => 0
  end.

(** The value slot holds a [uintptr]. *)
Definition idx_in_range (h : heap) (l : list loc) : Prop :=
  ∀ a c, a ∈ l -> h !! a = Some c -> 0 <= opcode.idx c < 2 ^ 64.

Lemma slot_index_range (h : heap) (l : list loc) (a : loc) :
  idx_in_range h l -> a ∈ l -> 0 <= slot_index h a < 2 ^ 61.
Proof.
  intros Hr Ha. unfold slot_index. destruct (h !! a) as [c|] eqn:E; [|lia].
  specialize (Hr a c Ha E). unfold uintptrSize. split.
  - apply Z.div_pos; lia.
  - apply Z.div_lt_upper_bound; lia.
Qed.

Lemma idx_in_range_tail h a l : idx_in_range h (a :: l) -> idx_in_range h l.
Proof. intros H x c Hx. apply H. by apply list_elem_of_further. Qed.

(** The loop returns the slot number of the last node it visits. *)
Lemma totalLength_loop_walk (h : heap) (p : ptr) (l : list loc) :
  length_walk h p l -> idx_in_range h l ->
  ∀ (fuel : nat) (idx : Z), (List.length l < fuel)%nat ->
    totalLength_loop codeType_of fuel h p idx
    = Ret (List.last (slot_index h <$> l) idx).
Proof.
  induction 1 as [e c Hc Ho|a c Hc Hs|a c l Hc Ho Hs H IH];
    intros Hr fuel idx Hf;
    (destruct fuel as [|fuel]; [simpl in Hf; lia|]);
    cbn [totalLength_loop]; rewrite (deref_Some _ _ _ Hc);
    cbn [mbind res_bind].
  - by rewrite decide_True.
  - rewrite decide_False by (destruct Hs as [E|E]; rewrite E; done).
    rewrite decide_True by done.
    pose proof (slot_index_range h [a] a Hr (list_elem_of_here _ _)) as Hi.
    unfold slot_index in Hi |- *. simpl. unfold slot_index. rewrite Hc in Hi |- *.
    rewrite wrap_int_small by lia. done.
  - rewrite decide_False by done. rewrite decide_False by done.
    rewrite IH; [|by eapply idx_in_range_tail|simpl in Hf; lia].
    pose proof (slot_index_range h (a :: l) a Hr (list_elem_of_here _ _)) as Hi.
    unfold slot_index in Hi. rewrite Hc in Hi.
    rewrite wrap_int_small by lia.
    rewrite fmap_cons. f_equal. destruct (slot_index h <$> l) as [|z zs] eqn:E.
    + simpl. unfold slot_index. by rewrite Hc.
    + change (List.last (slot_index h a :: z :: zs) idx)
        with (List.last (z :: zs) idx).
      apply last_nonempty_default.
Qed.

Lemma totalLength_walk (h : heap) (p : ptr) (l : list loc) :
  length_walk h p l -> idx_in_range h l ->
  ∀ fuel, (List.length l < fuel)%nat ->
    totalLength codeType_of fuel h p
    = Ret (List.last (slot_index h <$> l) 0 + 2).
Proof.
  intros H Hr fuel Hf. unfold totalLength.
  rewrite (totalLength_loop_walk h p l H Hr fuel 0 Hf). cbn [mbind res_bind].
  unfold mret, res_ret. f_equal. apply wrap_int_small.
  assert (0 <= List.last (slot_index h <$> l) 0 < 2 ^ 61); [|lia].
  destruct (slot_index h <$> l) as [|z zs] eqn:E; [simpl; lia|].
  assert (List.last (z :: zs) 0 ∈ slot_index h <$> l) as Hin.
  { rewrite E. apply last_elem_of. }
  apply list_elem_of_fmap in Hin as (a & -> & Ha).
  by eapply slot_index_range.
Qed.

(** C2, as the code has it.  [totalLength] keeps the slot number of the
    node it is at, not a maximum: it returns the slot number of the value
    slot of the last node its walk visits, plus 2, and 2 when the walk
    visits no node.  The walk follows the fallthrough edge, stops at the
    terminal node and stops early at a node of kind [opInterfaceEnd] or
    [opStructFieldRecursiveEnd].  When the value slots do not decrease
    along the walk, that is the largest value slot number the walk sees,
    plus 2. *)
Theorem totalLength_is_last_slot_and_max_when_sorted
    (h : heap) (p : ptr) (l : list loc) :
  length_walk h p l ->
  idx_in_range h l ->
  ∀ fuel, (List.length l < fuel)%nat ->
    totalLength codeType_of fuel h p
    = Ret (List.last (slot_index h <$> l) 0 + 2)
    ∧ (nondecreasing (slot_index h <$> l) ->
       totalLength codeType_of fuel h p
       = Ret (max_slot (slot_index h <$> l) + 2)).
Proof.
  intros H Hr fuel Hf.
  rewrite (totalLength_walk h p l H Hr fuel Hf). split; [done|].
  intros Hmono. f_equal. f_equal.
  apply last_nondecreasing; [done|].
  intros z Hz. apply list_elem_of_fmap in Hz as (a & -> & Ha).
  by eapply slot_index_range.
Qed.

End RegisterFile.

(** ** Re-indexing: [decOpcodeIndex] *)

(** A slot offset: a slot number times the stride, as [opcodeOffset] makes
    them. *)
Definition is_offset (z : Z) : Prop :=
  ∃ k, 0 <= k < 2 ^ 61 ∧ z = uintptrSize * k.

Lemma is_offset_dec (z : Z) :
  is_offset z -> z ≠ 0 ->
  z > 0 ∧ wrap_uintptr (z - uintptrSize) = z - uintptrSize.
Proof.
  intros (k & Hk & ->) Hz. unfold uintptrSize in *. split; [lia|].
  apply wrap_uintptr_small. lia.
Qed.

(** A slot that was in use is one stride smaller in [c'] than in [c]. *)
Definition shifted (f : opcode.t -> Z) (c c' : opcode.t) : Prop :=
  f c ≠ 0 -> f c' = f c - uintptrSize.

Section Reindex.

Variable codeType_of : opType -> codeType.

(** The kinds whose [length] field is a literal element count. *)
Definition fixed_length (c : opcode.t) : Prop :=
  codeType_of (opcode.op c) = codeArrayHead
  ∨ codeType_of (opcode.op c) = codeArrayElem.

(** Every slot offset of the node is a multiple of the stride; the
    [length] field is one when it is backed by a register. *)
Definition aligned_slots (c : opcode.t) : Prop :=
  is_offset (opcode.idx c)
  ∧ is_offset (opcode.headIdx c)
  ∧ is_offset (opcode.elemIdx c)
  ∧ is_offset (opcode.mapIter c)
  ∧ (¬ fixed_length c -> is_offset (opcode.length c)).

Lemma decOpcodeIndex_node_shape (c : opcode.t) :
  same_shape c (decOpcodeIndex_node codeType_of c).
Proof.
  unfold decOpcodeIndex_node. repeat case_decide; by repeat split.
Qed.

Lemma decOpcodeIndex_node_op (c : opcode.t) :
  opcode.op (decOpcodeIndex_node codeType_of c) = opcode.op c.
Proof. by destruct (decOpcodeIndex_node_shape c) as (<- & _). Qed.

(** What the loop body does to the slots of an aligned node. *)
Lemma decOpcodeIndex_node_slots (c : opcode.t) :
  aligned_slots c ->
  let c' := decOpcodeIndex_node codeType_of c in
  shifted opcode.idx c c'
  ∧ shifted opcode.headIdx c c'
  ∧ shifted opcode.elemIdx c c'
  ∧ shifted opcode.mapIter c c'
  ∧ (fixed_length c -> opcode.length c' = opcode.length c)
  ∧ (¬ fixed_length c -> shifted opcode.length c c').
Proof.
  intros (Hi & Hh & He & Hm & Hl). unfold decOpcodeIndex_node, shifted.
  split_and!.
  - intros Hz. destruct (is_offset_dec _ Hi Hz) as [_ E].
    repeat case_decide; simpl; exact E.
  - intros Hz. destruct (is_offset_dec _ Hh Hz) as [Hpos E].
    rewrite (decide_True (P := opcode.headIdx _ > 0)) by (simpl; exact Hpos).
    repeat case_decide; simpl; exact E.
  - intros Hz. destruct (is_offset_dec _ He Hz) as [Hpos E].
    rewrite (decide_True (P := opcode.elemIdx _ > 0)) by (repeat case_decide; simpl; exact Hpos).
    repeat case_decide; simpl; exact E.
  - intros Hz. destruct (is_offset_dec _ Hm Hz) as [Hpos E].
    rewrite (decide_True (P := opcode.mapIter _ > 0)) by (repeat case_decide; simpl; exact Hpos).
    repeat case_decide; simpl; exact E.
  - intros Hfix.
    rewrite (decide_False (P := opcode.length _ > 0 ∧ _ ∧ _)).
    + repeat case_decide; done.
    + intros (_ & H1 & H2).
      assert (∀ c0, opcode.op c0 = opcode.op c ->
                codeType_of (opcode.op c0) ≠ codeArrayHead ->
                codeType_of (opcode.op c0) ≠ codeArrayElem -> False) as K.
      { intros c0 E K1 K2. rewrite E in K1, K2. by destruct Hfix. }
      eapply K; [|exact H1|exact H2]. repeat case_decide; done.
  - intros Hreg Hz. destruct (is_offset_dec _ (Hl Hreg) Hz) as [Hpos E].
    rewrite (decide_True (P := opcode.length _ > 0 ∧ _ ∧ _)).
    + simpl. repeat case_decide; simpl; exact E.
    + assert (∀ c0, opcode.op c0 = opcode.op c ->
                opcode.length c0 = opcode.length c ->
                opcode.length c0 > 0
                ∧ codeType_of (opcode.op c0) ≠ codeArrayHead
                ∧ codeType_of (opcode.op c0) ≠ codeArrayElem) as K.
      { intros c0 E1 E2. rewrite E1, E2. split; [done|].
        split; intros F; apply Hreg; [by left|by right]. }
      apply K; repeat case_decide; done.
Qed.

(** The loop rewrites the nodes of the chain, each once, and nothing
    else. *)
Lemma decOpcodeIndex_loop_chain (l : list loc) (e : loc) :
  ∀ (h : heap) (p : ptr),
    chain codeType_of h p l e ->
    ∃ h',
      (∀ fuel, (List.length l < fuel)%nat ->
         decOpcodeIndex_loop codeType_of fuel h p = Ret h')
      ∧ (∀ x, h' !! x = if decide (x ∈ l)
                        then decOpcodeIndex_node codeType_of <$> h !! x
                        else h !! x).
Proof.
  induction l as [|a l IH]; intros h p H.
  - inversion H as [e' c Hc Ho|]; subst. exists h. split.
    + intros fuel Hf. destruct fuel as [|fuel]; [simpl in Hf; lia|].
      cbn [decOpcodeIndex_loop]. rewrite (deref_Some _ _ _ Hc).
      cbn [mbind res_bind]. by rewrite decide_True.
    + intros x. rewrite decide_False; [done|]. apply not_elem_of_nil.
  - pose proof (chain_NoDup _ _ _ _ _ H) as Hnd.
    pose proof (chain_terminal_not_in _ _ _ _ _ H) as Hne.
    apply NoDup_cons in Hnd as [Hal _].
    inversion H as [|a' c l' e' Hc Ho H' E]; subst.
    set (c' := decOpcodeIndex_node codeType_of c).
    set (h1 := <[a := c']> h).
    pose proof (decOpcodeIndex_node_shape c) as Hs. fold c' in Hs.
    assert (chain codeType_of h1 (fallthrough codeType_of c') l e) as H1.
    { rewrite <- (same_shape_fallthrough _ _ _ Hs).
      eapply chain_frame; [exact H'| |].
      - intros x _. eapply shape_at_insert; [exact Hc|exact Hs].
      - eapply shape_at_insert; [exact Hc|exact Hs]. }
    destruct (IH h1 _ H1) as (h' & Hrun & Hh').
    exists h'. split.
    + intros fuel Hf. destruct fuel as [|fuel]; [simpl in Hf; lia|].
      cbn [decOpcodeIndex_loop]. rewrite (deref_Some _ _ _ Hc).
      cbn [mbind res_bind]. rewrite decide_False by done.
      rewrite (store_Some _ _ _ _ Hc). cbn [mbind res_bind].
      fold c' h1. rewrite (deref_Some h1 a c') by apply lookup_insert_eq.
      cbn [mbind res_bind]. apply Hrun. simpl in Hf. lia.
    + intros x. rewrite Hh'. unfold h1.
      destruct (decide (x = a)) as [->|Hxa].
      * rewrite decide_False by done. rewrite lookup_insert_eq.
        rewrite decide_True by apply list_elem_of_here. by rewrite Hc.
      * rewrite lookup_insert_ne by done.
        destruct (decide (x ∈ l)) as [Hin|Hnin].
        -- rewrite decide_True; [done|]. by apply list_elem_of_further.
        -- rewrite decide_False; [done|]. intros Hin.
           apply elem_of_cons in Hin as [?|?]; done.
Qed.

End Reindex.

Section ReindexLength.

Variable codeType_of : opType -> codeType.

(** The walk of [totalLength] is a prefix of the chain. *)
Lemma chain_length_walk (h : heap) (p : ptr) (l : list loc) (e : loc) :
  chain codeType_of h p l e ->
  ∃ lw, length_walk codeType_of h p lw
        ∧ (∀ x, x ∈ lw -> x ∈ l)
        ∧ (l ≠ [] -> lw ≠ [])
        ∧ (List.length lw <= List.length l)%nat.
Proof.
  induction 1 as [e c Hc Ho|a c l e Hc Ho H (lw & Hw & Hsub & _ & Hlen)].
  - exists []. split_and!; [by econstructor|done|done|done].
  - destruct (decide (stops_length (opcode.op c))) as [Hs|Hs].
    + exists [a]. split_and!; [by econstructor| |done|simpl; lia].
      intros x Hx. apply list_elem_of_singleton in Hx as ->.
      apply list_elem_of_here.
    + exists (a :: lw). split_and!; [by econstructor| |done|simpl; lia].
      intros x Hx. apply elem_of_cons in Hx as [->|Hx].
      * apply list_elem_of_here.
      * apply list_elem_of_further. by apply Hsub.
Qed.

Lemma length_walk_frame (h h' : heap) (p : ptr) (l : list loc) :
  (∀ x, shape_at h h' x) ->
  length_walk codeType_of h p l -> length_walk codeType_of h' p l.
Proof.
  intros Hsh. induction 1 as [e c Hc Ho|a c Hc Hs|a c l Hc Ho Hs H IH];
    destruct (Hsh _ _ Hc) as (c' & Hc' & Hshape);
    pose proof Hshape as (Eo & _).
  - eapply length_walk_end; [done|congruence].
  - eapply length_walk_stop; [done|]. by rewrite <- Eo.
  - eapply length_walk_step; [done|congruence|by rewrite <- Eo|].
    by rewrite <- (same_shape_fallthrough _ _ _ Hshape).
Qed.

(** C1, as the code has it.  The walk from the head reaches the terminal
    node and the slot offsets of its nodes are multiples of the stride.
    Then [decOpcodeIndex] returns; it changes the nodes of the chain only;
    on each of them the value, head, element and iterator slot that was in
    use is one stride smaller, and so is a register-backed length that was
    in use, while the literal length of a fixed array header or element is
    as it was; and when the head is not the terminal node and no value slot
    on the chain is 0, [totalLength] is smaller by one.  (The statement
    makes no promise about the [mapPos] slot.) *)
Theorem decOpcodeIndex_shifts_slots (h : heap) (p : ptr) (l : list loc) (e : loc) :
  chain codeType_of h p l e ->
  (∀ a c, a ∈ l -> h !! a = Some c -> aligned_slots codeType_of c) ->
  ∃ h',
    (∀ fuel, (List.length l < fuel)%nat ->
       decOpcodeIndex codeType_of fuel h p = Ret h')
    ∧ (∀ x, x ∉ l -> h' !! x = h !! x)
    ∧ (∀ a c, a ∈ l -> h !! a = Some c ->
         ∃ c', h' !! a = Some c'
           ∧ shifted opcode.idx c c'
           ∧ shifted opcode.headIdx c c'
           ∧ shifted opcode.elemIdx c c'
           ∧ shifted opcode.mapIter c c'
           ∧ (fixed_length codeType_of c -> opcode.length c' = opcode.length c)
           ∧ (¬ fixed_length codeType_of c -> shifted opcode.length c c'))
    ∧ (l ≠ [] ->
       (∀ a c, a ∈ l -> h !! a = Some c -> opcode.idx c ≠ 0) ->
       ∀ fuel, (List.length l < fuel)%nat ->
         ∃ n, totalLength codeType_of fuel h p = Ret n
              ∧ totalLength codeType_of fuel h' p = Ret (n - 1)).
Proof.
  intros H Hal.
  destruct (decOpcodeIndex_loop_chain codeType_of l e h p H) as (h' & Hrun & Hh').
  exists h'. split_and!.
  - exact Hrun.
  - intros x Hx. rewrite Hh'. by rewrite decide_False.
  - intros a c Ha Hc. exists (decOpcodeIndex_node codeType_of c). split.
    + rewrite Hh', decide_True by done. by rewrite Hc.
    + by apply decOpcodeIndex_node_slots, (Hal a).
  - intros Hne Hnz fuel Hf.
    destruct (chain_length_walk h p l e H) as (lw & Hw & Hsub & Hlw & Hlen).
    specialize (Hlw Hne).
    assert (∀ x, shape_at h h' x) as Hsh.
    { intros x c Hc. rewrite Hh'. case_decide.
      - rewrite Hc. eexists. split; [done|]. apply decOpcodeIndex_node_shape.
      - exists c. split; [done|]. apply same_shape_refl. }
    pose proof (length_walk_frame h h' p lw Hsh Hw) as Hw'.
    assert (∀ a c, a ∈ lw -> h !! a = Some c ->
              uintptrSize <= opcode.idx c < 2 ^ 64
              ∧ h' !! a = Some (decOpcodeIndex_node codeType_of c)
              ∧ opcode.idx (decOpcodeIndex_node codeType_of c)
                = opcode.idx c - uintptrSize) as Hidx.
    { intros a c Ha Hc. apply Hsub in Ha.
      destruct (Hal a c Ha Hc) as (Hi & _).
      pose proof (Hnz a c Ha Hc) as Hz.
      pose proof (decOpcodeIndex_node_slots codeType_of c (Hal a c Ha Hc)) as (Hs & _).
      split; [|split].
      - destruct Hi as (k & Hk & E). unfold uintptrSize in *. lia.
      - rewrite Hh', decide_True by done. by rewrite Hc.
      - by apply Hs. }
    assert (idx_in_range h lw) as Hr.
    { intros a c Ha Hc. destruct (Hidx a c Ha Hc) as (Hi & _).
      unfold uintptrSize in Hi. lia. }
    assert (idx_in_range h' lw) as Hr'.
    { intros a c' Ha Hc'.
      destruct (chain_lookup _ _ _ _ _ a H (Hsub a Ha)) as [c Hc].
      destruct (Hidx a c Ha Hc) as (Hi & Hl & E).
      assert (c' = decOpcodeIndex_node codeType_of c) as -> by congruence.
      rewrite E. unfold uintptrSize in *. lia. }
    exists (List.last (slot_index h <$> lw) 0 + 2). split.
    + apply totalLength_walk; [done|done|lia].
    + rewrite (totalLength_walk codeType_of h' p lw Hw' Hr' fuel ltac:(lia)).
      f_equal.
      assert (slot_index h' <$> lw = (λ z, z - 1) <$> (slot_index h <$> lw)) as ->.
      { rewrite <- list_fmap_compose. apply list_fmap_ext.
        intros i a Ha%list_elem_of_lookup_2. simpl.
        destruct (chain_lookup _ _ _ _ _ a H (Hsub a Ha)) as [c Hc].
        destruct (Hidx a c Ha Hc) as (Hi & Hl & E).
        unfold slot_index. rewrite Hl, Hc, E. unfold uintptrSize in *.
        replace (opcode.idx c - 8) with (opcode.idx c + (-1) * 8) by lia.
        rewrite Z.div_add by lia. lia. }
      destruct (slot_index h <$> lw) as [|z zs] eqn:E.
      { destruct lw; [done|discriminate]. }
      clear. revert z. induction zs as [|y zs IH]; intros z; [simpl; lia|].
      change (List.last ((λ z, z - 1) <$> y :: zs) 0 + 2
              = List.last (y :: zs) 0 + 2 - 1). apply IH.
Qed.

End ReindexLength.

(** ** Cloning: [copy] and [copyOpcode] *)

(** The six outgoing links of a node, in the order [copy] follows them. *)
Inductive link : Type :=
  | LmapKey | LmapValue | Lelem | Lend | LnextField | Lnext.

#[global] Instance link_eq_dec : EqDecision link.
Proof. solve_decision. Defined.

Definition get_link (l : link) : opcode.t -> ptr :=
  match l with
  | LmapKey => opcode.mapKey
  | LmapValue => opcode.mapValue
  | Lelem => opcode.elem
  | Lend => opcode.end_
  | LnextField => opcode.nextField
  | Lnext => opcode.next
  end.

Definition set_link (l : link) : ptr -> opcode.t -> opcode.t :=
  match l with
  | LmapKey => opcode.set_mapKey
  | LmapValue => opcode.set_mapValue
  | Lelem => opcode.set_elem
  | Lend => opcode.set_end_
  | LnextField => opcode.set_nextField
  | Lnext => opcode.set_next
  end.

(** The node reached from [p] along a path of links; nil when the path
    runs into nil. *)
Fixpoint follow (h : heap) (p : ptr) (path : list link) : ptr :=
  match path with
  | [] => p
  | l :: path =>
    match p with
    | None => None
    | Some a =>
      match h !! a with
      | Some c => follow h (get_link l c) path
      | None => None
      end
    end
  end.

(** The fields of a node that are not links to nodes: the node with its
    six links and its subroutine reference cleared. *)
Definition payload (c : opcode.t) : opcode.t :=
  opcode.set_jmp None
    (opcode.set_next None (opcode.set_nextField None (opcode.set_end_ None
      (opcode.set_elem None (opcode.set_mapValue None
        (opcode.set_mapKey None c)))))).

(** Every link of a node of the heap leads to a node of the heap. *)
Definition closed (h : heap) : Prop :=
  ∀ a c l b, h !! a = Some c -> get_link l c = Some b -> is_Some (h !! b).

(** [p'] is the copy of [p] under the map [m]: nil for nil, and the
    address that [m] records for the address of a node. *)
Definition copy_of (m : gmap loc loc) (p p' : ptr) : Prop :=
  match p with
  | None => p' = None
  | Some b => ∃ b', m !! b = Some b' ∧ p' = Some b'
  end.

Lemma copy_of_mono (m m' : gmap loc loc) (p p' : ptr) :
  m ⊆ m' -> copy_of m p p' -> copy_of m' p p'.
Proof.
  intros Hsub. destruct p as [b|]; [|done].
  intros (b' & Hb & ->). exists b'. split; [|done].
  by eapply lookup_weaken.
Qed.

Lemma get_set_link (l l' : link) (v : ptr) (c : opcode.t) :
  get_link l' (set_link l v c) = if decide (l = l') then v else get_link l' c.
Proof. by destruct l, l'. Qed.

Lemma payload_set_link (l : link) (v : ptr) (c : opcode.t) :
  payload (set_link l v c) = payload c.
Proof. by destruct l. Qed.

Lemma payload_set_jmp (v : option positive) (c : opcode.t) :
  payload (opcode.set_jmp v c) = payload c.
Proof. done. Qed.

Lemma jmp_set_link (l : link) (v : ptr) (c : opcode.t) :
  opcode.jmp (set_link l v c) = opcode.jmp c.
Proof. by destruct l. Qed.

(** The node at [a'] is a finished copy of the node [c]: same payload,
    same subroutine reference, and each link is the copy of the link of
    [c]. *)
Definition finished (m : gmap loc loc) (c c' : opcode.t) : Prop :=
  opcode.jmp c' = opcode.jmp c
  ∧ ∀ l, copy_of m (get_link l c) (get_link l c').

(** The invariant of [copy] on the graph in the heap [h0]: [h] is the
    current heap, [m] the map, and [stk] the nodes whose copy is under
    construction. *)
Record copy_inv (h0 : heap) (stk : gset loc) (h : heap) (m : gmap loc loc)
  : Prop := {
  inv_sub : h0 ⊆ h;
  inv_inj : ∀ a1 a2 a', m !! a1 = Some a' -> m !! a2 = Some a' -> a1 = a2;
  inv_map : ∀ a a', m !! a = Some a' ->
    h0 !! a' = None
    ∧ ∃ c c', h0 !! a = Some c ∧ h !! a' = Some c'
        ∧ payload c' = payload c
        ∧ (a ∉ stk -> finished m c c')
}.

Lemma finished_mono (m m' : gmap loc loc) (c c' : opcode.t) :
  m ⊆ m' -> finished m c c' -> finished m' c c'.
Proof.
  intros Hsub [Hj Hl]. split; [done|]. intros l.
  by eapply copy_of_mono.
Qed.

Lemma copy_inv_empty (h0 : heap) : copy_inv h0 ∅ h0 ∅.
Proof. split; [done|intros ???|intros ??]; by rewrite lookup_empty. Qed.

(** Unfolding [copy] at a node that is not in the map yet. *)
Lemma copy_unfold_new (fuel : nat) (h : heap) (m : gmap loc loc)
    (addr : loc) (n : opcode.t) :
  m !! addr = None -> h !! addr = Some n ->
  copy (S fuel) h m (Some addr) =
    let a := fresh (dom h) in
    let h1 := <[a := payload n]> h in
    let m1 := <[addr := a]> m in
    st ← copy_link (copy fuel) (get_link LmapKey) (set_link LmapKey)
           (Some addr) (Some a) (h1, m1);
    st ← copy_link (copy fuel) (get_link LmapValue) (set_link LmapValue)
           (Some addr) (Some a) st;
    st ← copy_link (copy fuel) (get_link Lelem) (set_link Lelem)
           (Some addr) (Some a) st;
    st ← copy_link (copy fuel) (get_link Lend) (set_link Lend)
           (Some addr) (Some a) st;
    st ← copy_link (copy fuel) (get_link LnextField) (set_link LnextField)
           (Some addr) (Some a) st;
    st ← copy_link (copy fuel) (get_link Lnext) (set_link Lnext)
           (Some addr) (Some a) st;
    n ← deref st.1 (Some addr);
    h ← store st.1 (Some a) (opcode.set_jmp (opcode.jmp n));
    mret (h, st.2, Some a).
Proof.
  intros Hm Hh. cbn [copy]. rewrite Hm. rewrite (deref_Some _ _ _ Hh).
  cbn [mbind res_bind]. reflexivity.
Qed.

Section CopySpec.

(** The heap before the copy; the graph in it is closed under its links. *)
Variable h0 : heap.
Hypothesis h0_closed : closed h0.

(** What a call of [copy] on the pointer [c] achieves from the heap [h]
    and the map [m]: it returns the copy of [c], keeps the invariant,
    extends the map and leaves the nodes of [h] as they are. *)
Definition copy_post (stk : gset loc) (h : heap) (m : gmap loc loc) (c : ptr)
    (result : res (heap * gmap loc loc * ptr)) : Prop :=
  ∃ h' m' r,
    result = Ret (h', m', r)
    ∧ copy_inv h0 stk h' m'
    ∧ m ⊆ m'
    ∧ copy_of m' c r
    ∧ (∀ x, is_Some (h !! x) -> h' !! x = h !! x).

(** [fuel] is enough for every node that is not in the map yet. *)
Definition copy_ok (fuel : nat) : Prop :=
  ∀ stk h m c,
    copy_inv h0 stk h m ->
    (∀ a, c = Some a -> is_Some (h0 !! a)) ->
    (size (dom h0 ∖ dom m) <= fuel)%nat ->
    copy_post stk h m c (copy fuel h m c).

(** The state between two of the six link statements of the copy of the
    node [n] at [addr], whose copy is at [a']: the links [ls] are done. *)
Record progress (fuel : nat) (stk : gset loc) (hentry : heap)
    (mentry : gmap loc loc) (addr a' : loc) (n : opcode.t) (ls : list link)
    (h : heap) (m : gmap loc loc) : Prop := {
  pr_inv : copy_inv h0 stk h m;
  pr_stk : addr ∈ stk;
  pr_map : m !! addr = Some a';
  pr_sub : mentry ⊆ m;
  pr_frame : ∀ x, is_Some (hentry !! x) -> h !! x = hentry !! x;
  pr_cur : ∃ cur, h !! a' = Some cur
             ∧ ∀ l, l ∈ ls -> copy_of m (get_link l n) (get_link l cur);
  pr_size : (size (dom h0 ∖ dom m) <= fuel)%nat
}.

Lemma size_diff_mono (m m' : gmap loc loc) :
  m ⊆ m' -> (size (dom h0 ∖ dom m') <= size (dom h0 ∖ dom m))%nat.
Proof.
  intros Hsub. apply subseteq_size.
  apply subseteq_dom in Hsub. set_solver.
Qed.

Lemma copy_link_step (fuel : nat) (stk : gset loc) (hentry : heap)
    (mentry : gmap loc loc) (addr a' : loc) (n : opcode.t)
    (ls : list link) (l : link) (h : heap) (m : gmap loc loc) :
  copy_ok fuel ->
  h0 !! addr = Some n ->
  hentry !! a' = None ->
  progress fuel stk hentry mentry addr a' n ls h m ->
  ∃ h2 m2,
    copy_link (copy fuel) (get_link l) (set_link l) (Some addr) (Some a') (h, m)
    = Ret (h2, m2)
    ∧ progress fuel stk hentry mentry addr a' n (l :: ls) h2 m2.
Proof.
  intros IH Hn Hfresh [Hinv Hstk Hmap Hsub Hframe (cur & Hcur & Hdone) Hsize].
  assert (h !! addr = Some n) as Hn'
    by (eapply lookup_weaken; [exact Hn|apply Hinv]).
  destruct (IH stk h m (get_link l n) Hinv) as
    (h'' & m'' & r & E & Hinv'' & Hsub'' & Hcopy & Hframe''); [|done|].
  { intros b Hb. by eapply h0_closed. }
  assert (h'' !! a' = Some cur) as Hcur''
    by (rewrite Hframe''; [done|by rewrite Hcur]).
  assert (m'' !! addr = Some a') as Hmap''
    by (eapply lookup_weaken; [exact Hmap|done]).
  destruct (inv_map _ _ _ _ Hinv'' _ _ Hmap'') as (Ha'0 & _).
  exists (<[a' := set_link l r cur]> h''), m''. split.
  { unfold copy_link. cbn [fst snd]. rewrite (deref_Some _ _ _ Hn').
    cbn [mbind res_bind]. rewrite E. cbn [mbind res_bind fst snd].
    rewrite (store_Some _ _ _ _ Hcur''). done. }
  split.
  - split.
    + apply insert_subseteq_r; [done|apply Hinv''].
    + apply Hinv''.
    + intros a a1 Ha. destruct (inv_map _ _ _ _ Hinv'' _ _ Ha)
        as (Hnone & c & c' & Hc & Hc' & Hpay & Hfin).
      split; [done|]. destruct (decide (a1 = a')) as [->|Hne].
      * assert (a = addr) as -> by (eapply (inv_inj _ _ _ _ Hinv''); done).
        exists c, (set_link l r cur). rewrite lookup_insert_eq.
        split_and!; [done|done| |done].
        rewrite payload_set_link. congruence.
      * exists c, c'. rewrite lookup_insert_ne by done. done.
  - done.
  - done.
  - by etrans.
  - intros x Hx. rewrite lookup_insert_ne.
    + rewrite Hframe''; [by apply Hframe|]. by rewrite Hframe.
    + intros <-. rewrite Hfresh in Hx. by destruct Hx.
  - exists (set_link l r cur). rewrite lookup_insert_eq. split; [done|].
    intros l' Hl'. rewrite get_set_link. case_decide as El; [by subst|].
    apply elem_of_cons in Hl' as [?|Hl']; [done|].
    eapply copy_of_mono; [exact Hsub''|]. by apply Hdone.
  - etrans; [by apply size_diff_mono|done].
Qed.

Lemma all_links (l : link) :
  l ∈ [Lnext; LnextField; Lend; Lelem; LmapValue; LmapKey].
Proof. destruct l; set_solver. Qed.

Lemma payload_idemp (c : opcode.t) : payload (payload c) = payload c.
Proof. destruct c. vm_compute. reflexivity. Qed.

Lemma get_link_set_jmp (l : link) (v : option positive) (c : opcode.t) :
  get_link l (opcode.set_jmp v c) = get_link l c.
Proof. by destruct l. Qed.

Lemma copy_enough_fuel (fuel : nat) : copy_ok fuel.
Proof.
  induction fuel as [|fuel IH]; intros stk h m c Hinv Hc Hsize;
    (destruct c as [addr|];
     [|exists h, m, None; by split_and!]);
    (destruct (m !! addr) as [code|] eqn:Hm;
     [exists h, m, (Some code); split_and!;
        [by cbn [copy]; rewrite Hm
        |done|done|by exists code|done]
     |]);
    destruct (Hc addr eq_refl) as [n Hn].
  - exfalso. assert (addr ∈ dom h0 ∖ dom m) as Hin.
    { apply elem_of_difference. split; [by apply elem_of_dom|].
      by apply not_elem_of_dom. }
    assert (size (dom h0 ∖ dom m) ≠ 0%nat) as Hnz; [|lia].
    intros Hz. apply size_empty_inv in Hz. set_solver.
  - assert (h !! addr = Some n) as Hn'
      by (eapply lookup_weaken; [exact Hn|apply Hinv]).
    rewrite (copy_unfold_new fuel h m addr n Hm Hn'). cbv zeta.
    set (a' := fresh (dom h)).
    assert (h !! a' = None) as Hfresh by apply not_elem_of_dom, is_fresh.
    assert (h0 !! a' = None) as Hfresh0
      by (eapply lookup_weaken_None; [exact Hfresh|apply Hinv]).
    assert (progress fuel (stk ∪ {[addr]}) h m addr a' n []
              (<[a' := payload n]> h) (<[addr := a']> m)) as P.
    { split.
      - split.
        + apply insert_subseteq_r; [done|apply Hinv].
        + intros a1 a2 a'' H1 H2.
          assert (∀ a, m !! a = Some a' -> False) as Hno.
          { intros a Ha. destruct (inv_map _ _ _ _ Hinv _ _ Ha)
              as (_ & c & c' & _ & Hc' & _). congruence. }
          rewrite lookup_insert in H1. rewrite lookup_insert in H2.
          repeat case_decide; simplify_eq; try done.
          * exfalso. by eapply Hno.
          * exfalso. by eapply Hno.
          * by eapply (inv_inj _ _ _ _ Hinv).
        + intros a a1 Ha. rewrite lookup_insert in Ha.
          case_decide as Ea; simplify_eq.
          * split; [done|]. exists n, (payload n).
            rewrite lookup_insert_eq.
            split; [done|]. split; [done|]. split; [apply payload_idemp|].
            intros Hnot. exfalso. apply Hnot. set_solver.
          * destruct (inv_map _ _ _ _ Hinv _ _ Ha)
              as (Hnone & c & c' & Hc0 & Hc' & Hpay & Hfin).
            split; [done|]. exists c, c'.
            rewrite lookup_insert_ne by congruence.
            split_and!; [done|done|done|]. intros Hnot.
            eapply finished_mono; [by apply insert_subseteq|].
            apply Hfin. set_solver.
      - set_solver.
      - apply lookup_insert_eq.
      - by apply insert_subseteq.
      - intros x Hx. apply lookup_insert_ne. intros <-.
        rewrite Hfresh in Hx. by destruct Hx.
      - exists (payload n). rewrite lookup_insert_eq. split; [done|].
        intros l Hl. by apply elem_of_nil in Hl.
      - assert (dom h0 ∖ dom (<[addr := a']> m) ⊂ dom h0 ∖ dom m) as Hlt.
        { rewrite dom_insert_L. apply elem_of_dom_2 in Hn.
          apply not_elem_of_dom in Hm. set_solver. }
        apply subset_size in Hlt. lia. }
    destruct (copy_link_step fuel _ _ _ _ _ _ _ LmapKey _ _ IH Hn Hfresh P)
      as (h1 & m1 & E1 & P1). rewrite E1. cbn [mbind res_bind]. clear E1 P.
    destruct (copy_link_step fuel _ _ _ _ _ _ _ LmapValue _ _ IH Hn Hfresh P1)
      as (h2 & m2 & E2 & P2). rewrite E2. cbn [mbind res_bind]. clear E2 P1.
    destruct (copy_link_step fuel _ _ _ _ _ _ _ Lelem _ _ IH Hn Hfresh P2)
      as (h3 & m3 & E3 & P3). rewrite E3. cbn [mbind res_bind]. clear E3 P2.
    destruct (copy_link_step fuel _ _ _ _ _ _ _ Lend _ _ IH Hn Hfresh P3)
      as (h4 & m4 & E4 & P4). rewrite E4. cbn [mbind res_bind]. clear E4 P3.
    destruct (copy_link_step fuel _ _ _ _ _ _ _ LnextField _ _ IH Hn Hfresh P4)
      as (h5 & m5 & E5 & P5). rewrite E5. cbn [mbind res_bind]. clear E5 P4.
    destruct (copy_link_step fuel _ _ _ _ _ _ _ Lnext _ _ IH Hn Hfresh P5)
      as (h6 & m6 & E6 & P6). rewrite E6. cbn [mbind res_bind]. clear E6 P5.
    destruct P6 as [Hinv6 _ Hmap6 Hsub6 Hframe6 (cur & Hcur & Hdone) _].
    assert (h6 !! addr = Some n) as Hn6
      by (eapply lookup_weaken; [exact Hn|apply Hinv6]).
    cbn [fst snd]. rewrite (deref_Some _ _ _ Hn6). cbn [mbind res_bind].
    rewrite (store_Some _ _ _ _ Hcur). cbn [mbind res_bind].
    eexists _, _, _. split; [reflexivity|]. split_and!.
    + split.
      * apply insert_subseteq_r; [done|apply Hinv6].
      * apply Hinv6.
      * intros a a1 Ha. destruct (inv_map _ _ _ _ Hinv6 _ _ Ha)
          as (Hnone & c & c' & Hc0 & Hc' & Hpay & Hfin).
        split; [done|]. destruct (decide (a1 = a')) as [->|Hne].
        -- assert (a = addr) as -> by (eapply (inv_inj _ _ _ _ Hinv6); done).
           assert (c = n) as -> by congruence.
           exists n, (opcode.set_jmp (opcode.jmp n) cur).
           rewrite lookup_insert_eq. split_and!; [done|done| |].
           ++ rewrite payload_set_jmp. congruence.
           ++ intros _. split; [done|]. intros l.
              rewrite get_link_set_jmp. apply Hdone, all_links.
        -- exists c, c'. rewrite lookup_insert_ne by done.
           split_and!; [done|done|done|]. intros Hnot. apply Hfin.
           assert (a ≠ addr) by (intros ->; congruence). set_solver.
    + done.
    + by exists a'.
    + intros x Hx. rewrite lookup_insert_ne; [by apply Hframe6|].
      intros <-. rewrite Hfresh in Hx. by destruct Hx.
Qed.

End CopySpec.

(** *** The copy of a closed graph *)

(** [m] maps every node it knows to a finished copy outside the heap
    [h0]. *)
Definition cloned (h0 h' : heap) (m : gmap loc loc) : Prop :=
  ∀ a a', m !! a = Some a' ->
    h0 !! a' = None
    ∧ ∃ c c', h0 !! a = Some c ∧ h' !! a' = Some c'
        ∧ payload c' = payload c ∧ finished m c c'.

(** [copyOpcode] returns on a closed graph, given fuel for every node. *)
Lemma copyOpcode_cloned (h0 : heap) (c : ptr) (fuel : nat) :
  closed h0 ->
  (∀ a, c = Some a -> is_Some (h0 !! a)) ->
  (size (dom h0) <= fuel)%nat ->
  ∃ h' m r,
    copyOpcode fuel h0 c = Ret (h', r)
    ∧ cloned h0 h' m
    ∧ copy_of m c r
    ∧ (∀ x, is_Some (h0 !! x) -> h' !! x = h0 !! x).
Proof.
  intros Hcl Hc Hsize.
  destruct (copy_enough_fuel h0 Hcl fuel ∅ h0 ∅ c (copy_inv_empty h0) Hc)
    as (h' & m & r & E & Hinv & _ & Hcopy & Hframe).
  { etrans; [|exact Hsize]. apply subseteq_size. set_solver. }
  exists h', m, r. split_and!; [|  |done|done].
  - unfold copyOpcode. rewrite E. done.
  - intros a a' Ha. destruct (inv_map _ _ _ _ Hinv _ _ Ha)
      as (Hnone & c0 & c' & Hc0 & Hc' & Hpay & Hfin).
    split; [done|]. exists c0, c'. split_and!; [done|done|done|].
    apply Hfin. set_solver.
Qed.

(** A path in the copy leads to the copy of the node that the path leads
    to in the original. *)
Lemma follow_copy (h0 h' : heap) (m : gmap loc loc) (path : list link) :
  cloned h0 h' m ->
  ∀ p p', copy_of m p p' ->
    copy_of m (follow h0 p path) (follow h' p' path).
Proof.
  intros Hcl. induction path as [|l path IH]; intros p p' Hp; [done|].
  destruct p as [a|]; simpl in Hp.
  - destruct Hp as (a' & Ha & ->).
    destruct (Hcl _ _ Ha) as (_ & c & c' & Hc & Hc' & _ & _ & Hl).
    simpl. rewrite Hc, Hc'. apply IH, Hl.
  - subst. done.
Qed.

Section DumpCopy.

Variable codeType_of : opType -> codeType.
Variable opType_String : opType -> string.

Lemma payload_op (c c' : opcode.t) :
  payload c' = payload c -> opcode.op c' = opcode.op c.
Proof. intros H. exact (f_equal opcode.op H). Qed.

(** The lines of [dump] read the payload of a node only. *)
Lemma dump_lines_payload (c c' : opcode.t) :
  payload c' = payload c ->
  dumpHead codeType_of opType_String c' = dumpHead codeType_of opType_String c
  ∧ dumpMapHead opType_String c' = dumpMapHead opType_String c
  ∧ dumpMapEnd opType_String c' = dumpMapEnd opType_String c
  ∧ dumpElem codeType_of opType_String c' = dumpElem codeType_of opType_String c
  ∧ dumpField opType_String c' = dumpField opType_String c
  ∧ dumpKey opType_String c' = dumpKey opType_String c
  ∧ dumpValue opType_String c' = dumpValue opType_String c
  ∧ dumpDefault opType_String c' = dumpDefault opType_String c.
Proof.
  intros H.
  change (dumpHead codeType_of opType_String (payload c')
          = dumpHead codeType_of opType_String (payload c)
  ∧ dumpMapHead opType_String (payload c') = dumpMapHead opType_String (payload c)
  ∧ dumpMapEnd opType_String (payload c') = dumpMapEnd opType_String (payload c)
  ∧ dumpElem codeType_of opType_String (payload c')
    = dumpElem codeType_of opType_String (payload c)
  ∧ dumpField opType_String (payload c') = dumpField opType_String (payload c)
  ∧ dumpKey opType_String (payload c') = dumpKey opType_String (payload c)
  ∧ dumpValue opType_String (payload c') = dumpValue opType_String (payload c)
  ∧ dumpDefault opType_String (payload c')
    = dumpDefault opType_String (payload c)).
  rewrite H. by repeat split.
Qed.

(** [dump] on the copy runs in step with [dump] on the original. *)
Lemma dump_loop_copy (h0 h' : heap) (m : gmap loc loc) :
  cloned h0 h' m ->
  ∀ (fuel : nat) (p p' : ptr) (codes : list string),
    copy_of m p p' ->
    dump_loop codeType_of opType_String fuel h' p' codes
    = dump_loop codeType_of opType_String fuel h0 p codes.
Proof.
  intros Hcl. induction fuel as [|fuel IH]; intros p p' codes Hp; [done|].
  destruct p as [a|]; simpl in Hp; [|by subst].
  destruct Hp as (a' & Ha & ->).
  destruct (Hcl _ _ Ha) as (_ & c & c' & Hc & Hc' & Hpay & _ & Hl).
  cbn [dump_loop]. rewrite (deref_Some _ _ _ Hc), (deref_Some _ _ _ Hc').
  cbn [mbind res_bind]. rewrite (payload_op _ _ Hpay).
  destruct (dump_lines_payload _ _ Hpay)
    as (-> & -> & -> & -> & -> & -> & -> & ->).
  pose proof (Hl Lnext) as Hnext. pose proof (Hl Lend) as Hend.
  simpl in Hnext, Hend.
  case_decide; [done|].
  destruct (codeType_of (opcode.op c));
    match goal with
    | |- mbind _ ?line = _ => destruct line; cbn [mbind res_bind]; try done
    end; by apply IH.
Qed.

(** [dump] on the original is not affected by the nodes added to the
    heap. *)
Lemma dump_loop_frame (h0 h' : heap) :
  closed h0 ->
  (∀ x, is_Some (h0 !! x) -> h' !! x = h0 !! x) ->
  ∀ (fuel : nat) (p : ptr) (codes : list string),
    (∀ a, p = Some a -> is_Some (h0 !! a)) ->
    dump_loop codeType_of opType_String fuel h' p codes
    = dump_loop codeType_of opType_String fuel h0 p codes.
Proof.
  intros Hcl Hframe. induction fuel as [|fuel IH]; intros p codes Hp; [done|].
  destruct p as [a|]; [|done].
  destruct (Hp a eq_refl) as [c Hc].
  assert (h' !! a = Some c) as Hc' by (rewrite Hframe; eauto).
  cbn [dump_loop]. rewrite (deref_Some _ _ _ Hc), (deref_Some _ _ _ Hc').
  cbn [mbind res_bind]. case_decide; [done|].
  assert (∀ b, opcode.next c = Some b -> is_Some (h0 !! b)) as Hnext
    by (intros b Hb; by apply (Hcl a c Lnext b)).
  assert (∀ b, opcode.end_ c = Some b -> is_Some (h0 !! b)) as Hend
    by (intros b Hb; by apply (Hcl a c Lend b)).
  destruct (codeType_of (opcode.op c));
    match goal with
    | |- mbind _ ?line = _ => destruct line; cbn [mbind res_bind]; try done
    end; by apply IH.
Qed.

(** C4. On a closed graph [copyOpcode] returns, given fuel for every node
    of the heap; the dump of the copy is the dump of the original, run by
    run (with the same fuel, both return the same text or both fail the
    same way), the original dumps as before the copy, and no node that a
    path of links reaches in the copy is a node of the heap the original
    lives in. *)
Theorem copyOpcode_dump_and_fresh (h0 : heap) (code : ptr) (fuel : nat) :
  closed h0 ->
  (∀ a, code = Some a -> is_Some (h0 !! a)) ->
  (size (dom h0) <= fuel)%nat ->
  ∃ h' r,
    copyOpcode fuel h0 code = Ret (h', r)
    ∧ (∀ n, dump codeType_of opType_String n h' r
            = dump codeType_of opType_String n h0 code)
    ∧ (∀ n, dump codeType_of opType_String n h' code
            = dump codeType_of opType_String n h0 code)
    ∧ (∀ path a', follow h' r path = Some a' -> h0 !! a' = None).
Proof.
  intros Hcl Hc Hsize.
  destruct (copyOpcode_cloned h0 code fuel Hcl Hc Hsize)
    as (h' & m & r & E & Hm & Hr & Hframe).
  exists h', r. split_and!; [done| | |].
  - intros n. unfold dump. by rewrite (dump_loop_copy h0 h' m Hm n code r).
  - intros n. unfold dump. by rewrite (dump_loop_frame h0 h' Hcl Hframe).
  - intros path a' Hf.
    pose proof (follow_copy h0 h' m path Hm code r Hr) as Hcp.
    rewrite Hf in Hcp. destruct (follow h0 code path) as [b|]; [|done].
    destruct Hcp as (b' & Hb & [= ->]). by destruct (Hm _ _ Hb) as (? & _).
Qed.

End DumpCopy.

(** C5. The copy preserves sharing: two paths of links that lead to the
    same node of the original lead to one and the same node of the copy,
    and the copy of a node carries the very subroutine reference [jmp] of
    the node. *)
Theorem copyOpcode_preserves_sharing (h0 : heap) (head : loc) (fuel : nat) :
  closed h0 ->
  is_Some (h0 !! head) ->
  (size (dom h0) <= fuel)%nat ->
  ∃ h' r,
    copyOpcode fuel h0 (Some head) = Ret (h', Some r)
    ∧ (∀ path1 path2 n,
         follow h0 (Some head) path1 = Some n ->
         follow h0 (Some head) path2 = Some n ->
         ∃ n', follow h' (Some r) path1 = Some n'
               ∧ follow h' (Some r) path2 = Some n')
    ∧ (∀ path a c,
         follow h0 (Some head) path = Some a -> h0 !! a = Some c ->
         ∃ a' c', follow h' (Some r) path = Some a'
                  ∧ h' !! a' = Some c'
                  ∧ opcode.jmp c' = opcode.jmp c).
Proof.
  intros Hcl Hhead Hsize.
  destruct (copyOpcode_cloned h0 (Some head) fuel Hcl) as
    (h' & m & r0 & E & Hm & (r & Hr & ->) & Hframe); [|done|].
  { by intros a [= <-]. }
  assert (copy_of m (Some head) (Some r)) as Hhr by by exists r.
  exists h', r. split_and!; [done| |].
  - intros path1 path2 n H1 H2.
    pose proof (follow_copy h0 h' m path1 Hm _ _ Hhr) as C1.
    pose proof (follow_copy h0 h' m path2 Hm _ _ Hhr) as C2.
    rewrite H1 in C1. rewrite H2 in C2.
    destruct C1 as (n1 & Hn1 & E1). destruct C2 as (n2 & Hn2 & E2).
    exists n1. split; [done|]. congruence.
  - intros path a c Hf Hc.
    pose proof (follow_copy h0 h' m path Hm _ _ Hhr) as C.
    rewrite Hf in C. destruct C as (a' & Ha' & Ef).
    destruct (Hm _ _ Ha') as (_ & c0 & c' & Hc0 & Hc' & _ & Hj & _).
    exists a', c'. split_and!; [done|done|congruence].
Qed.

(** C9. [copy] of nil is nil, whatever the heap, the map and the fuel; so
    on a closed graph, when a link of a node is nil, the same link of its
    copy (the node that the same path reaches in the copy) is nil. *)
Theorem copy_nil_links (h0 : heap) (head : loc) (fuel : nat) :
  closed h0 ->
  is_Some (h0 !! head) ->
  (size (dom h0) <= fuel)%nat ->
  (∀ n h m, copy n h m None = Ret (h, m, None))
  ∧ ∃ h' r,
      copyOpcode fuel h0 (Some head) = Ret (h', Some r)
      ∧ ∀ path a c l,
          follow h0 (Some head) path = Some a -> h0 !! a = Some c ->
          get_link l c = None ->
          ∃ a' c', follow h' (Some r) path = Some a'
                   ∧ h' !! a' = Some c'
                   ∧ get_link l c' = None.
Proof.
  intros Hcl Hhead Hsize. split; [by intros [|n] h m|].
  destruct (copyOpcode_cloned h0 (Some head) fuel Hcl) as
    (h' & m & r0 & E & Hm & (r & Hr & ->) & Hframe); [|done|].
  { by intros a [= <-]. }
  assert (copy_of m (Some head) (Some r)) as Hhr by by exists r.
  exists h', r. split; [done|].
  intros path a c l Hf Hc Hl.
  pose proof (follow_copy h0 h' m path Hm _ _ Hhr) as C.
  rewrite Hf in C. destruct C as (a' & Ha' & Ef).
  destruct (Hm _ _ Ha') as (_ & c0 & c' & Hc0 & Hc' & _ & _ & Hlinks).
  exists a', c'. split_and!; [done|done|].
  assert (c0 = c) as -> by congruence.
  specialize (Hlinks l). by rewrite Hl in Hlinks.
Qed.

(** ** Deciding a chain *)

Section ChainOf.

Variable codeType_of : opType -> codeType.

(** The nodes of the chain from [p] and its terminal node, computed. *)
Fixpoint chain_of (fuel : nat) (h : heap) (p : ptr) : option (list loc * loc) :=
  match fuel, p with
  | S fuel, Some a =>
    match h !! a with
    | Some c =>
      if decide (opcode.op c = opEnd) then Some ([], a)
      else
        match chain_of fuel h (fallthrough codeType_of c) with
        | Some (l, e) => Some (a :: l, e)
        | None => None
        end
    | None => None
    end
  | _, _ => None
  end.

Lemma chain_of_sound (fuel : nat) (h : heap) :
  ∀ p l e, chain_of fuel h p = Some (l, e) -> chain codeType_of h p l e.
Proof.
  induction fuel as [|fuel IH]; intros p l e H; [done|].
  destruct p as [a|]; [|done]. simpl in H.
  destruct (h !! a) as [c|] eqn:Hc; [|done].
  case_decide as Ho.
  - injection H as <- <-. by econstructor.
  - destruct (chain_of fuel h (fallthrough codeType_of c)) as [[l' e']|] eqn:E;
      [|done].
    injection H as <- <-. econstructor; [done|done|]. by apply IH.
Qed.

End ChainOf.

(** * Concrete graphs *)

(** A node of kind [o] with value slot [idx] and the given [next] and
    [end] links. *)
Definition node (o : opType) (idx : Z) (next end_ : ptr) : opcode.t :=
  literal o [opcode.set_idx idx; opcode.set_next next; opcode.set_end_ end_].

(** A record with three fields: field 1 falls through to field 2 and
    field 2 to the terminal node 3; field 4 joins the chain at the
    terminal node. *)
Definition record_graph : heap :=
  <[1%positive := opcode.set_nextField (Some 2%positive)
                    (node opStructField 8 (Some 2%positive) None)]>
  (<[2%positive := node opStructField 16 (Some 3%positive) None]>
  (<[3%positive := node opEnd 24 None None]>
  (<[4%positive := node opStructField 32 (Some 3%positive) None]> ∅))).

(** A chain of five nodes: field 1, a value node 2, field 3, field 4 and
    the terminal node 5. *)
Definition field_chain : heap :=
  <[1%positive := opcode.set_nextField (Some 3%positive)
                    (node opStructField 8 (Some 2%positive) None)]>
  (<[2%positive := node (opOther 0) 8 (Some 3%positive) None]>
  (<[3%positive := opcode.set_nextField (Some 4%positive)
                    (node opStructField 16 (Some 4%positive) None)]>
  (<[4%positive := node opStructField 24 (Some 5%positive) None]>
  (<[5%positive := node opEnd 32 None None]> ∅)))).


(** The end of a map in front of the terminal node: position slot 1,
    value slot 2. *)
Definition map_end_graph : heap :=
  <[1%positive := opcode.set_mapPos 8 (node opMapEnd 16 (Some 2%positive) None)]>
  (<[2%positive := node opEnd 24 None None]> ∅).

(** Two fields whose value slots go down along the walk: slots 3 and 1. *)
Definition descending_graph : heap :=
  <[1%positive := node opStructField 24 (Some 2%positive) None]>
  (<[2%positive := node opStructField 8 (Some 3%positive) None]>
  (<[3%positive := node opEnd 32 None None]> ∅)).

(** A slice header as [newSliceHeaderCode] lays it out at the free slot
    0 (head 0, element 1, length 2), wired to a terminal node. *)
Definition slice_header_graph : heap :=
  <[1%positive := literal opSliceHead
                    [opcode.set_idx 0; opcode.set_headIdx 0;
                     opcode.set_elemIdx 8; opcode.set_length 16;
                     opcode.set_next (Some 2%positive)]]>
  (<[2%positive := node opEnd 24 None None]> ∅).

(** A terminal node alone. *)
Definition end_graph : heap := <[1%positive := node opEnd 0 None None]> ∅.

Definition ctx0 : ctx.t := ctx.mk None false 0 0 0.

Lemma record_graph_closed : closed record_graph.
Proof.
  intros a c l b Ha Hl. unfold record_graph in Ha.
  repeat (apply lookup_insert_Some in Ha as [[<- <-]|[_ Ha]];
          [destruct l; vm_compute in Hl; simplify_eq; vm_compute; eauto|]).
  by rewrite lookup_empty in Ha.
Qed.

Lemma record_graph_size : (size (dom record_graph) <= 4)%nat.
Proof. vm_compute. lia. Qed.

(** ** The theorems on concrete graphs *)

(** The slots of a slice header built in the empty heap are handed down
    to a slice element, and those of a map header to a map key and a map
    value. *)
Lemma container_slots_inherited_witness :
  built_from inherits_slice_header
    (newSliceElemCode ctx0 (Some (newSliceHeaderCode ctx0 ∅).2) 8
       (newSliceHeaderCode ctx0 ∅).1.2)
    (newSliceHeaderCode ctx0 ∅).1.2 (newSliceHeaderCode ctx0 ∅).2
  ∧ built_from inherits_map_header
      (newMapKeyCode ctx0 (Some (newMapHeaderCode ctx0 true ∅).2)
         (newMapHeaderCode ctx0 true ∅).1.2)
      (newMapHeaderCode ctx0 true ∅).1.2 (newMapHeaderCode ctx0 true ∅).2
  ∧ built_from inherits_map_header
      (newMapValueCode ctx0 (Some (newMapHeaderCode ctx0 true ∅).2)
         (newMapHeaderCode ctx0 true ∅).1.2)
      (newMapHeaderCode ctx0 true ∅).1.2 (newMapHeaderCode ctx0 true ∅).2.
Proof.
  refine (container_slots_inherited ctx0
            (newSliceHeaderCode ctx0 ∅).1.1 (newMapHeaderCode ctx0 true ∅).1.1
            ctx0 ctx0 ctx0 true 8 ∅
            (newSliceHeaderCode ctx0 ∅).1.2 (newMapHeaderCode ctx0 true ∅).1.2
            (newSliceHeaderCode ctx0 ∅).1.2 (newMapHeaderCode ctx0 true ∅).1.2
            (newMapHeaderCode ctx0 true ∅).1.2
            (newSliceHeaderCode ctx0 ∅).2 (newMapHeaderCode ctx0 true ∅).2
            _ _ _ _ _).
  - by destruct (newSliceHeaderCode ctx0 ∅) as [[??]?].
  - by destruct (newMapHeaderCode ctx0 true ∅) as [[??]?].
  - reflexivity.
  - reflexivity.
  - reflexivity.
Defined.

(** A map header built at the free slot 5 has its first slot, the value
    slot, at the offset 40.  A key and a value built from it at the free
    slot 9 carry the offsets 48, 56 and 64 of its element, length and
    iterator slots; their own value slot is at 72 and their head slot is 0:
    no slot of theirs is the first slot of the header. *)
Lemma map_children_drop_header_head_slot :
  ∃ (hd : opcode.t) (hk hv : heap) (k v : loc) (nk nv : opcode.t),
    (newMapHeaderCode (ctx.mk None false 0 5 0) true ∅).1.2
      !! (newMapHeaderCode (ctx.mk None false 0 5 0) true ∅).2 = Some hd
    ∧ newMapKeyCode (ctx.mk None false 0 9 0)
        (Some (newMapHeaderCode (ctx.mk None false 0 5 0) true ∅).2)
        (newMapHeaderCode (ctx.mk None false 0 5 0) true ∅).1.2
      = Ret (hk, k)
    ∧ newMapValueCode (ctx.mk None false 0 9 0)
        (Some (newMapHeaderCode (ctx.mk None false 0 5 0) true ∅).2)
        (newMapHeaderCode (ctx.mk None false 0 5 0) true ∅).1.2
      = Ret (hv, v)
    ∧ hk !! k = Some nk ∧ hv !! v = Some nv
    ∧ opcode.idx hd = 40 ∧ opcode.headIdx hd = 0
    ∧ [opcode.idx nk; opcode.headIdx nk; opcode.elemIdx nk;
       opcode.length nk; opcode.mapIter nk; opcode.mapPos nk]
      = [72; 0; 48; 56; 64; 0]
    ∧ [opcode.idx nv; opcode.headIdx nv; opcode.elemIdx nv;
       opcode.length nv; opcode.mapIter nv; opcode.mapPos nv]
      = [72; 0; 48; 56; 64; 0]
    ∧ 40 ∉ [72; 0; 48; 56; 64; 0].
Proof.
  eexists _, _, _, _, _, _, _.
  split; [vm_compute; reflexivity|].
  split; [vm_compute; reflexivity|].
  split; [vm_compute; reflexivity|].
  split; [vm_compute; reflexivity|].
  split; [vm_compute; reflexivity|].
  split; [reflexivity|]. split; [reflexivity|].
  split; [reflexivity|]. split; [reflexivity|].
  intros Hin. repeat (apply elem_of_cons in Hin as [?|Hin]; [discriminate|]).
  by apply elem_of_nil in Hin.
Qed.

(** The constructors that wire a terminal node, in a heap that holds a
    terminal node already. *)
Lemma wired_constructors_reach_terminal_witness :
  reaches_terminal codeType_std 0 (newEndOp ctx0 end_graph)
  ∧ reaches_terminal codeType_std 1 (newOpCode ctx0 opStructField end_graph)
  ∧ reaches_terminal codeType_std 1 (newInterfaceCode ctx0 end_graph)
  ∧ reaches_terminal codeType_std 1 (newRecursiveCode ctx0 None end_graph)
  ∧ (∃ c' h' a,
       newMapEndCode ctx0 (Some 1%positive) end_graph = Ret (c', h', a)
       ∧ reaches_terminal codeType_std 1 (h', a))
  ∧ reaches_terminal codeType_std 1
      (newOpCodeWithNext ctx0 opStructField (Some 1%positive) end_graph).
Proof.
  apply (wired_constructors_reach_terminal codeType_std ctx0 end_graph
           opStructField None 1%positive (Some 1%positive) [] 1%positive).
  - repeat split; discriminate.
  - repeat split; discriminate.
  - repeat split; discriminate.
  - repeat split; discriminate.
  - vm_compute. eauto.
  - apply (chain_of_sound codeType_std 1). vm_compute. reflexivity.
Defined.

(** A slice header comes without links: the walk from it dereferences nil
    and never reaches a terminal node. *)
Lemma slice_header_has_no_terminal :
  (¬ ∃ l e, chain codeType_std (newSliceHeaderCode ctx0 ∅).1.2
              (Some (newSliceHeaderCode ctx0 ∅).2) l e)
  ∧ beforeLastCode codeType_std 1 (newSliceHeaderCode ctx0 ∅).1.2
      (Some (newSliceHeaderCode ctx0 ∅).2) = Panic.
Proof.
  split; [|vm_compute; reflexivity].
  intros (l & e & H). inversion H as [e' c Hc Ho|a c l' e' Hc Ho H'].
  - vm_compute in Hc. injection Hc as <-. discriminate.
  - vm_compute in Hc. injection Hc as <-. vm_compute in H'. inversion H'.
Qed.

(** The walk of [totalLength] on the record: fields 1 and 2, with the
    slots 1 and 2. *)
Lemma totalLength_is_last_slot_and_max_when_sorted_witness :
  totalLength codeType_std 3 record_graph (Some 1%positive)
  = Ret (List.last (slot_index record_graph <$> [1%positive; 2%positive]) 0 + 2)
  ∧ (nondecreasing (slot_index record_graph <$> [1%positive; 2%positive]) ->
     totalLength codeType_std 3 record_graph (Some 1%positive)
     = Ret (max_slot (slot_index record_graph <$> [1%positive; 2%positive]) + 2)).
Proof.
  apply (totalLength_is_last_slot_and_max_when_sorted codeType_std record_graph
           (Some 1%positive) [1%positive; 2%positive]).
  - eapply length_walk_step;
      [vm_compute; reflexivity|discriminate|intros [?|?]; discriminate|].
    eapply length_walk_step;
      [vm_compute; reflexivity|discriminate|intros [?|?]; discriminate|].
    eapply length_walk_end; [vm_compute; reflexivity|reflexivity].
  - intros a c Ha Hc.
    apply elem_of_cons in Ha as [->|Ha];
      [|apply list_elem_of_singleton in Ha as ->];
      vm_compute in Hc; injection Hc as <-; vm_compute; split; congruence.
  - simpl. lia.
Defined.

(** [totalLength] is not the largest slot seen plus 2.  On the walk 1, 2
    of the descending graph the value slots are 3 and 1: the result is 3,
    from the last slot, where the largest gives 5.  On the slice header in
    front of the terminal node, the walk visits the header alone; its
    value slot is 0 and its length slot is the slot 2: the result is 2,
    which does not even count the slot 2 the node refers to. *)
Lemma totalLength_is_not_the_maximum :
  (length_walk codeType_std descending_graph (Some 1%positive)
     [1%positive; 2%positive]
   ∧ slot_index descending_graph <$> [1%positive; 2%positive] = [3; 1]
   ∧ totalLength codeType_std 3 descending_graph (Some 1%positive) = Ret 3
   ∧ max_slot (slot_index descending_graph <$> [1%positive; 2%positive]) + 2
     = 5)
  ∧ (length_walk codeType_std slice_header_graph (Some 1%positive) [1%positive]
     ∧ totalLength codeType_std 2 slice_header_graph (Some 1%positive) = Ret 2
     ∧ (opcode.idx <$> slice_header_graph !! 1%positive) = Some 0
     ∧ ((λ c, opcode.length c / uintptrSize) <$> slice_header_graph !! 1%positive)
       = Some 2).
Proof.
  split.
  - split; [|split; [|split]]; [|vm_compute; reflexivity..].
    eapply length_walk_step;
      [vm_compute; reflexivity|discriminate|intros [?|?]; discriminate|].
    eapply length_walk_step;
      [vm_compute; reflexivity|discriminate|intros [?|?]; discriminate|].
    eapply length_walk_end; [vm_compute; reflexivity|reflexivity].
  - split; [|split; [|split]]; [|vm_compute; reflexivity..].
    eapply length_walk_step;
      [vm_compute; reflexivity|discriminate|intros [?|?]; discriminate|].
    eapply length_walk_end; [vm_compute; reflexivity|reflexivity].
Qed.

Lemma record_graph_aligned (a : loc) (c : opcode.t) :
  a ∈ [1%positive; 2%positive] -> record_graph !! a = Some c ->
  aligned_slots codeType_std c ∧ opcode.idx c ≠ 0.
Proof.
  intros Ha Hc.
  apply elem_of_cons in Ha as [->|Ha];
    [|apply list_elem_of_singleton in Ha as ->];
    vm_compute in Hc; injection Hc as <-.
  - split; [|discriminate]. unfold aligned_slots.
    split; [by exists 1|]. split; [by exists 0|]. split; [by exists 0|].
    split; [by exists 0|]. intros _. by exists 0.
  - split; [|discriminate]. unfold aligned_slots.
    split; [by exists 2|]. split; [by exists 0|]. split; [by exists 0|].
    split; [by exists 0|]. intros _. by exists 0.
Qed.

(** Re-indexing the record from field 1. *)
Lemma decOpcodeIndex_shifts_slots_witness :
  ∃ h',
    (∀ fuel, (2 < fuel)%nat ->
       decOpcodeIndex codeType_std fuel record_graph (Some 1%positive) = Ret h')
    ∧ (∀ x, x ∉ [1%positive; 2%positive] -> h' !! x = record_graph !! x)
    ∧ (∀ a c, a ∈ [1%positive; 2%positive] -> record_graph !! a = Some c ->
         ∃ c', h' !! a = Some c'
           ∧ shifted opcode.idx c c'
           ∧ shifted opcode.headIdx c c'
           ∧ shifted opcode.elemIdx c c'
           ∧ shifted opcode.mapIter c c'
           ∧ (fixed_length codeType_std c -> opcode.length c' = opcode.length c)
           ∧ (¬ fixed_length codeType_std c -> shifted opcode.length c c'))
    ∧ ([1%positive; 2%positive] ≠ [] ->
       (∀ a c, a ∈ [1%positive; 2%positive] -> record_graph !! a = Some c ->
          opcode.idx c ≠ 0) ->
       ∀ fuel, (2 < fuel)%nat ->
         ∃ n, totalLength codeType_std fuel record_graph (Some 1%positive) = Ret n
              ∧ totalLength codeType_std fuel h' (Some 1%positive) = Ret (n - 1)).
Proof.
  apply (decOpcodeIndex_shifts_slots codeType_std record_graph
           (Some 1%positive) [1%positive; 2%positive] 3%positive).
  - apply (chain_of_sound codeType_std 3). vm_compute. reflexivity.
  - intros a c Ha Hc. by destruct (record_graph_aligned a c Ha Hc).
Defined.

(** [decOpcodeIndex] leaves the position slot of a map end where it was,
    and does not make [totalLength] smaller on a graph whose head is the
    terminal node. *)
Lemma decOpcodeIndex_keeps_mapPos :
  (chain codeType_std map_end_graph (Some 1%positive) [1%positive] 2%positive
   ∧ ∃ c c',
       map_end_graph !! 1%positive = Some c
       ∧ (decOpcodeIndex codeType_std 2 map_end_graph (Some 1%positive)
          ≫= λ h', mret (h' !! 1%positive)) = Ret (Some c')
       ∧ opcode.mapPos c = 8
       ∧ opcode.mapPos c' = 8
       ∧ ¬ shifted opcode.mapPos c c')
  ∧ (chain codeType_std end_graph (Some 1%positive) [] 1%positive
     ∧ decOpcodeIndex codeType_std 1 end_graph (Some 1%positive) = Ret end_graph
     ∧ totalLength codeType_std 1 end_graph (Some 1%positive) = Ret 2).
Proof.
  split.
  - split; [apply (chain_of_sound codeType_std 2); vm_compute; reflexivity|].
    eexists _, _. split; [vm_compute; reflexivity|].
    split; [vm_compute; reflexivity|].
    split; [reflexivity|]. split; [reflexivity|].
    intros H. vm_compute in H. specialize (H ltac:(discriminate)).
    discriminate.
  - split; [apply (chain_of_sound codeType_std 1); vm_compute; reflexivity|].
    split; vm_compute; reflexivity.
Qed.

(** Field 4 is not on the chain of field 1: the call only writes the
    [nextField] link of field 1. *)
Lemma linkPrevToNextField_miss_frame_witness :
  linkPrevToNextField codeType_std 2 record_graph (Some 1%positive) (Some 4%positive)
  = Ret (<[1%positive :=
             opcode.set_nextField
               (opcode.nextField (node opStructField 32 (Some 3%positive) None))
               (opcode.set_nextField (Some 2%positive)
                  (node opStructField 8 (Some 2%positive) None))]>
           record_graph).
Proof.
  apply (linkPrevToNextField_miss_frame codeType_std record_graph
           1%positive 4%positive _ _ [2%positive] 3%positive).
  - vm_compute. reflexivity.
  - vm_compute. reflexivity.
  - apply (chain_of_sound codeType_std 2). vm_compute. reflexivity.
  - vm_compute. discriminate.
  - intros a c Ha Hc. apply list_elem_of_singleton in Ha as ->.
    vm_compute in Hc. injection Hc as <-. vm_compute. discriminate.
  - simpl. lia.
Defined.

(** Splicing field 3 out of the chain 1, 2, 3, 4: node 2 is in front of
    it. *)
Lemma linkPrevToNextField_skips_field_witness :
  ∃ (h' : heap) (na' np' : opcode.t),
    (∀ fuel, (1 < fuel)%nat ->
       linkPrevToNextField codeType_std fuel field_chain
         (Some 1%positive) (Some 3%positive) = Ret h')
    ∧ h' !! 1%positive = Some na'
    ∧ opcode.nextField na' = Some 4%positive
    ∧ h' !! 2%positive = Some np'
    ∧ fallthrough codeType_std np' = Some 4%positive
    ∧ chain codeType_std h' (Some 1%positive)
        [1%positive; 2%positive; 4%positive] 5%positive
    ∧ 3%positive ∉ [1%positive; 2%positive; 4%positive].
Proof.
  destruct (linkPrevToNextField_skips_field codeType_std field_chain
              1%positive 3%positive 2%positive
              (opcode.set_nextField (Some 3%positive)
                 (node opStructField 8 (Some 2%positive) None))
              (opcode.set_nextField (Some 4%positive)
                 (node opStructField 16 (Some 4%positive) None))
              (node (opOther 0) 8 (Some 3%positive) None)
              [1%positive] [4%positive] 5%positive)
    as (h' & na' & np' & Hrun & Ha & Hnf & Hp & Hft & _ & Hchain & Hnot).
  - apply (chain_of_sound codeType_std 5). vm_compute. reflexivity.
  - vm_compute. reflexivity.
  - vm_compute. reflexivity.
  - vm_compute. reflexivity.
  - reflexivity.
  - reflexivity.
  - repeat split; discriminate.
  - exists h', na', np'. repeat split; assumption.
Defined.


(** The copy of the record graph from field 1. *)
Lemma copyOpcode_dump_and_fresh_witness :
  ∃ h' r,
    copyOpcode 4 record_graph (Some 1%positive) = Ret (h', r)
    ∧ (∀ n, dump codeType_std (λ _, "op"%string) n h' r
            = dump codeType_std (λ _, "op"%string) n record_graph
                (Some 1%positive))
    ∧ (∀ n, dump codeType_std (λ _, "op"%string) n h' (Some 1%positive)
            = dump codeType_std (λ _, "op"%string) n record_graph
                (Some 1%positive))
    ∧ (∀ path a', follow h' r path = Some a' -> record_graph !! a' = None).
Proof.
  apply (copyOpcode_dump_and_fresh codeType_std (λ _, "op"%string)
           record_graph (Some 1%positive) 4).
  - exact record_graph_closed.
  - intros a [= <-]. vm_compute. eauto.
  - exact record_graph_size.
Defined.

Lemma copyOpcode_preserves_sharing_witness :
  ∃ h' r,
    copyOpcode 4 record_graph (Some 1%positive) = Ret (h', Some r)
    ∧ (∀ path1 path2 n,
         follow record_graph (Some 1%positive) path1 = Some n ->
         follow record_graph (Some 1%positive) path2 = Some n ->
         ∃ n', follow h' (Some r) path1 = Some n'
               ∧ follow h' (Some r) path2 = Some n')
    ∧ (∀ path a c,
         follow record_graph (Some 1%positive) path = Some a ->
         record_graph !! a = Some c ->
         ∃ a' c', follow h' (Some r) path = Some a'
                  ∧ h' !! a' = Some c'
                  ∧ opcode.jmp c' = opcode.jmp c).
Proof.
  apply (copyOpcode_preserves_sharing record_graph 1%positive 4).
  - exact record_graph_closed.
  - vm_compute. eauto.
  - exact record_graph_size.
Defined.

Lemma copy_nil_links_witness :
  (∀ n h m, copy n h m None = Ret (h, m, None))
  ∧ ∃ h' r,
      copyOpcode 4 record_graph (Some 1%positive) = Ret (h', Some r)
      ∧ ∀ path a c l,
          follow record_graph (Some 1%positive) path = Some a ->
          record_graph !! a = Some c ->
          get_link l c = None ->
          ∃ a' c', follow h' (Some r) path = Some a'
                   ∧ h' !! a' = Some c'
                   ∧ get_link l c' = None.
Proof.
  apply (copy_nil_links record_graph 1%positive 4).
  - exact record_graph_closed.
  - vm_compute. eauto.
  - exact record_graph_size.
Defined.

(** The two paths to field 2 of the record, by [next] and by [nextField],
    lead to one node of the copy, and the copy dumps like the original. *)
Example copy_record_graph :
  ∃ h' r,
    copyOpcode 4 record_graph (Some 1%positive) = Ret (h', Some r)
    ∧ follow record_graph (Some 1%positive) [Lnext] = Some 2%positive
    ∧ follow record_graph (Some 1%positive) [LnextField] = Some 2%positive
    ∧ follow h' (Some r) [Lnext] = follow h' (Some r) [LnextField]
    ∧ is_Some (follow h' (Some r) [Lnext])
    ∧ dump codeType_std (λ _, "Field"%string) 4 h' (Some r)
      = Ret ("[0]Field ([idx:1][key:][offset:0][headIdx:0])" +:+ newline
             +:+ "[0]Field ([idx:2][key:][offset:0][headIdx:0])")%string.
Proof.
  eexists _, _. split; [vm_compute; reflexivity|].
  split; [reflexivity|]. split; [reflexivity|].
  split; [vm_compute; reflexivity|]. split; [vm_compute; eauto|].
  vm_compute. reflexivity.
Qed.

(** * Further properties of the code *)

(** ** Slot offsets *)

(** X1. [opcodeOffset] and the division by the stride that [dump] and
    [totalLength] apply are inverse on the slot numbers below 2^61; past
    them the offsets wrap around: two slot numbers 2^61 apart get the same
    offset. *)
Theorem opcodeOffset_slot_number (k : Z) :
  0 <= k < 2 ^ 61 ->
  opcodeOffset k / uintptrSize = k
  ∧ is_offset (opcodeOffset k)
  ∧ (∀ k', 0 <= k' < 2 ^ 61 -> opcodeOffset k' = opcodeOffset k -> k' = k)
  ∧ opcodeOffset (k + 2 ^ 61) = opcodeOffset k.
Proof.
  intros Hk. rewrite (opcodeOffset_small k Hk). unfold uintptrSize.
  split; [|split; [|split]].
  - rewrite Z.mul_comm. apply Z.div_mul. lia.
  - exists k. done.
  - intros k' Hk'. rewrite (opcodeOffset_small k' Hk'). unfold uintptrSize. lia.
  - unfold opcodeOffset, wrap_uintptr, uintptrSize.
    rewrite (Z.mod_small (k + 2 ^ 61)) by lia.
    replace ((k + 2 ^ 61) * 8) with (k * 8 + 1 * 2 ^ 64) by lia.
    rewrite Z.mod_add by lia. rewrite Z.mod_small; lia.
Qed.

Lemma opcodeOffset_slot_number_witness :
  opcodeOffset 5 / uintptrSize = 5
  ∧ is_offset (opcodeOffset 5)
  ∧ (∀ k', 0 <= k' < 2 ^ 61 -> opcodeOffset k' = opcodeOffset 5 -> k' = 5)
  ∧ opcodeOffset (5 + 2 ^ 61) = opcodeOffset 5.
Proof. apply (opcodeOffset_slot_number 5). lia. Defined.

(** ** The layout of the other headers *)

(** A node without links. *)
Definition no_links (n : opcode.t) : Prop :=
  ∀ l, get_link l n = None.

(** X2. [newSliceHeaderCode] hands out three consecutive slots, for the head,
    the element and the length; the head slot is the value slot; it
    advances the context by two slots only, so that the length slot is the
    next free slot of the context it returns; the node has no links. *)
Theorem slice_header_layout (c : ctx.t) (h : heap) :
  0 <= ctx.ptrIndex c -> ctx.ptrIndex c + 2 < 2 ^ 61 ->
  ∃ (c' : ctx.t) (a : loc) (n : opcode.t),
    newSliceHeaderCode c h = (c', <[a := n]> h, a)
    ∧ h !! a = None
    ∧ opcode.op n = opSliceHead
    ∧ opcode.idx n = uintptrSize * ctx.ptrIndex c
    ∧ opcode.headIdx n = opcode.idx n
    ∧ opcode.elemIdx n = opcode.idx n + uintptrSize
    ∧ opcode.length n = opcode.idx n + 2 * uintptrSize
    ∧ opcode.length n = opcodeOffset (ctx.ptrIndex c')
    ∧ opcode.mapIter n = 0
    ∧ opcode.mapPos n = 0
    ∧ no_links n
    ∧ ctx.ptrIndex c' = ctx.ptrIndex c + 2.
Proof.
  intros Hlo Hhi.
  set (c1 := ctx.incPtrIndex c).
  set (c2 := ctx.incPtrIndex c1).
  assert (ctx.ptrIndex c1 = ctx.ptrIndex c + 1) as E1
    by (apply incPtrIndex_small; lia).
  assert (ctx.ptrIndex c2 = ctx.ptrIndex c + 2) as E2
    by (unfold c2; rewrite incPtrIndex_small; lia).
  eexists c2, (fresh (dom h)), _.
  split; [reflexivity|].
  split; [apply not_elem_of_dom, is_fresh|].
  unfold no_links. opcode_fields. fold c1. fold c2. rewrite E1, E2.
  rewrite !opcodeOffset_small by lia. unfold uintptrSize.
  repeat split; try lia. by intros [].
Qed.

Lemma slice_header_layout_witness :
  ∃ (c' : ctx.t) (a : loc) (n : opcode.t),
    newSliceHeaderCode (ctx.mk None false 0 5 0) ∅ = (c', <[a := n]> ∅, a)
    ∧ (∅ : heap) !! a = None
    ∧ opcode.op n = opSliceHead
    ∧ opcode.idx n = uintptrSize * 5
    ∧ opcode.headIdx n = opcode.idx n
    ∧ opcode.elemIdx n = opcode.idx n + uintptrSize
    ∧ opcode.length n = opcode.idx n + 2 * uintptrSize
    ∧ opcode.length n = opcodeOffset (ctx.ptrIndex c')
    ∧ opcode.mapIter n = 0
    ∧ opcode.mapPos n = 0
    ∧ no_links n
    ∧ ctx.ptrIndex c' = 5 + 2.
Proof.
  apply (slice_header_layout (ctx.mk None false 0 5 0) ∅); simpl; lia.
Defined.

(** X3. [newArrayHeaderCode] hands out two slots, for the head and the
    element, and advances the context by one; the length field holds the
    element count itself, not an offset. *)
Theorem array_header_layout (c : ctx.t) (alen : Z) (h : heap) :
  0 <= ctx.ptrIndex c -> ctx.ptrIndex c + 1 < 2 ^ 61 ->
  0 <= alen < 2 ^ 63 ->
  ∃ (c' : ctx.t) (a : loc) (n : opcode.t),
    newArrayHeaderCode c alen h = (c', <[a := n]> h, a)
    ∧ h !! a = None
    ∧ opcode.op n = opArrayHead
    ∧ opcode.idx n = uintptrSize * ctx.ptrIndex c
    ∧ opcode.headIdx n = opcode.idx n
    ∧ opcode.elemIdx n = opcode.idx n + uintptrSize
    ∧ opcode.elemIdx n = opcodeOffset (ctx.ptrIndex c')
    ∧ opcode.length n = alen
    ∧ opcode.mapIter n = 0
    ∧ no_links n
    ∧ ctx.ptrIndex c' = ctx.ptrIndex c + 1.
Proof.
  intros Hlo Hhi Hlen.
  set (c1 := ctx.incPtrIndex c).
  assert (ctx.ptrIndex c1 = ctx.ptrIndex c + 1) as E1
    by (apply incPtrIndex_small; lia).
  eexists c1, (fresh (dom h)), _.
  split; [reflexivity|].
  split; [apply not_elem_of_dom, is_fresh|].
  unfold no_links. opcode_fields. fold c1. rewrite E1.
  rewrite !opcodeOffset_small by lia.
  rewrite (wrap_uintptr_small alen) by lia. unfold uintptrSize.
  repeat split; try lia. by intros [].
Qed.

Lemma array_header_layout_witness :
  ∃ (c' : ctx.t) (a : loc) (n : opcode.t),
    newArrayHeaderCode (ctx.mk None false 0 5 0) 3 ∅ = (c', <[a := n]> ∅, a)
    ∧ (∅ : heap) !! a = None
    ∧ opcode.op n = opArrayHead
    ∧ opcode.idx n = uintptrSize * 5
    ∧ opcode.headIdx n = opcode.idx n
    ∧ opcode.elemIdx n = opcode.idx n + uintptrSize
    ∧ opcode.elemIdx n = opcodeOffset (ctx.ptrIndex c')
    ∧ opcode.length n = 3
    ∧ opcode.mapIter n = 0
    ∧ no_links n
    ∧ ctx.ptrIndex c' = 5 + 1.
Proof.
  apply (array_header_layout (ctx.mk None false 0 5 0) 3 ∅); simpl; lia.
Defined.

(** ** The end of a map and the element of an array *)

(** X4. [newMapEndCode] takes the next free slot for the position list and
    the slot after it for its value, advancing the context by one; it
    carries the length slot of the header, and only that one of the
    header's slots; its [next] link is a fresh terminal node, which carries
    the new value slot too. *)
Theorem map_end_layout (c : ctx.t) (h : heap) (head : loc) (hd : opcode.t) :
  0 <= ctx.ptrIndex c -> ctx.ptrIndex c + 1 < 2 ^ 61 ->
  h !! head = Some hd ->
  ∃ (c' : ctx.t) (h' : heap) (a e : loc) (n ne : opcode.t),
    newMapEndCode c (Some head) h = Ret (c', h', a)
    ∧ h' = <[a := n]> (<[e := ne]> h)
    ∧ h !! e = None ∧ h !! a = None ∧ a ≠ e
    ∧ opcode.op n = opMapEnd
    ∧ opcode.mapPos n = uintptrSize * ctx.ptrIndex c
    ∧ opcode.idx n = opcode.mapPos n + uintptrSize
    ∧ opcode.length n = opcode.length hd
    ∧ opcode.headIdx n = 0 ∧ opcode.elemIdx n = 0 ∧ opcode.mapIter n = 0
    ∧ opcode.next n = Some e
    ∧ opcode.op ne = opEnd
    ∧ opcode.idx ne = opcode.idx n
    ∧ no_links ne
    ∧ ctx.ptrIndex c' = ctx.ptrIndex c + 1.
Proof.
  intros Hlo Hhi Hhd.
  set (c1 := ctx.incPtrIndex c).
  assert (ctx.ptrIndex c1 = ctx.ptrIndex c + 1) as E1
    by (apply incPtrIndex_small; lia).
  unfold newMapEndCode. rewrite (deref_Some _ _ _ Hhd).
  cbn [mbind res_bind]. fold c1.
  unfold newEndOp, newOpCodeWithNext, alloc.
  set (e := fresh (dom h)).
  set (ne := literal opEnd _).
  set (a := fresh (dom (<[e := ne]> h))).
  assert (h !! e = None) as He by apply not_elem_of_dom, is_fresh.
  assert (<[e := ne]> h !! a = None) as Ha by apply not_elem_of_dom, is_fresh.
  assert (a ≠ e) as Hne by (intros E; rewrite E, lookup_insert_eq in Ha; done).
  rewrite lookup_insert_ne in Ha by done.
  eexists c1, _, a, e, _, ne.
  split; [reflexivity|]. split; [reflexivity|].
  split; [done|]. split; [done|]. split; [done|].
  unfold no_links, ne. opcode_fields. fold c1. rewrite E1.
  rewrite !opcodeOffset_small by lia. unfold uintptrSize.
  repeat split; try lia. by intros [].
Qed.

Lemma map_end_layout_witness :
  ∃ (c' : ctx.t) (h' : heap) (a e : loc) (n ne : opcode.t),
    newMapEndCode (ctx.mk None false 0 5 0) (Some 1%positive) map_end_graph
    = Ret (c', h', a)
    ∧ h' = <[a := n]> (<[e := ne]> map_end_graph)
    ∧ map_end_graph !! e = None ∧ map_end_graph !! a = None ∧ a ≠ e
    ∧ opcode.op n = opMapEnd
    ∧ opcode.mapPos n = uintptrSize * 5
    ∧ opcode.idx n = opcode.mapPos n + uintptrSize
    ∧ opcode.length n
      = opcode.length (opcode.set_mapPos 8
                         (node opMapEnd 16 (Some 2%positive) None))
    ∧ opcode.headIdx n = 0 ∧ opcode.elemIdx n = 0 ∧ opcode.mapIter n = 0
    ∧ opcode.next n = Some e
    ∧ opcode.op ne = opEnd
    ∧ opcode.idx ne = opcode.idx n
    ∧ no_links ne
    ∧ ctx.ptrIndex c' = 5 + 1.
Proof.
  apply (map_end_layout (ctx.mk None false 0 5 0) map_end_graph 1%positive
           (opcode.set_mapPos 8 (node opMapEnd 16 (Some 2%positive) None)));
    [simpl; lia|simpl; lia|vm_compute; reflexivity].
Defined.

(** The slots an array element shares with its header; its indent is
    left at 0 whatever the context says. *)
Definition mirrors_array_header (length size : Z) (hd n : opcode.t) : Prop :=
  opcode.op n = opArrayElem
  ∧ opcode.headIdx n = opcode.headIdx hd
  ∧ opcode.elemIdx n = opcode.elemIdx hd
  ∧ opcode.length n = length
  ∧ opcode.size n = size
  ∧ opcode.indent n = 0
  ∧ no_links n.

(** X5. An array element built from an array header carries the head and
    element slots of the header; its length is the element count passed
    to the constructor, which is that of the header when the caller passes
    the same count; the header is left as it is. *)
Theorem array_elem_mirrors_header
    (c c1 ce : ctx.t) (alen size : Z) (h h1 he : heap) (head : loc) :
  0 <= alen < 2 ^ 63 ->
  newArrayHeaderCode c alen h = (c1, h1, head) ->
  h1 ⊆ he ->
  built_from (mirrors_array_header alen size)
    (newArrayElemCode ce (Some head) alen size he) he head
  ∧ ∃ hd, he !! head = Some hd ∧ opcode.length hd = alen.
Proof.
  unfold newArrayHeaderCode. intros Hlen Hh Hsub.
  match type of Hh with context [alloc h ?n] =>
    pose proof (alloc_lookup_new h n) as L;
    destruct (alloc h n) as [h0 a0] eqn:Ea end.
  simpl in L. injection Hh as <- <- <-.
  eapply (lookup_weaken _ he) in L; [|done]. split.
  - unfold newArrayElemCode. rewrite (deref_Some _ _ _ L).
    cbn [mbind res_bind].
    eapply built_from_alloc; [exact L|].
    unfold mirrors_array_header, no_links. opcode_fields.
    rewrite (wrap_uintptr_small alen) by lia.
    repeat split. by intros [].
  - eexists. split; [exact L|]. opcode_fields.
    apply wrap_uintptr_small. lia.
Qed.

Lemma array_elem_mirrors_header_witness :
  built_from (mirrors_array_header 3 8)
    (newArrayElemCode ctx0 (Some (newArrayHeaderCode ctx0 3 ∅).2) 3 8
       (newArrayHeaderCode ctx0 3 ∅).1.2)
    (newArrayHeaderCode ctx0 3 ∅).1.2 (newArrayHeaderCode ctx0 3 ∅).2
  ∧ ∃ hd, (newArrayHeaderCode ctx0 3 ∅).1.2 !! (newArrayHeaderCode ctx0 3 ∅).2
          = Some hd ∧ opcode.length hd = 3.
Proof.
  refine (array_elem_mirrors_header ctx0 (newArrayHeaderCode ctx0 3 ∅).1.1
            ctx0 3 8 ∅ (newArrayHeaderCode ctx0 3 ∅).1.2
            (newArrayHeaderCode ctx0 3 ∅).1.2
            (newArrayHeaderCode ctx0 3 ∅).2 _ _ _).
  - lia.
  - by destruct (newArrayHeaderCode ctx0 3 ∅) as [[??]?].
  - reflexivity.
Defined.

(** ** Walks: [beforeLastCode] and [totalLength] *)

Lemma last_cons_default {A} (b : A) (l : list A) (a : A) :
  List.last (b :: l) a = List.last l b.
Proof.
  destruct l as [|y l]; [done|].
  change (List.last (y :: l) a = List.last (y :: l) b).
  apply last_nonempty_default.
Qed.

Section Walks.

Variable codeType_of : opType -> codeType.

Lemma chain_last_falls_to_terminal (h : heap) (l : list loc) (e : loc) :
  ∀ a, chain codeType_of h (Some a) (a :: l) e ->
    ∃ cx, h !! List.last l a = Some cx
          ∧ opcode.op cx ≠ opEnd
          ∧ fallthrough codeType_of cx = Some e.
Proof.
  induction l as [|b l IH]; intros a H.
  - inversion H as [|a' c l' e' Hc Ho H' E]; subst.
    inversion H' as [e' c' Hc' Ho' E1|]; subst.
    exists c. simpl. done.
  - inversion H as [|a' c l' e' Hc Ho H' E]; subst.
    assert (fallthrough codeType_of c = Some b) as Eb
      by (inversion H'; congruence).
    rewrite Eb in H'. destruct (IH b H') as (cx & Hx & Hox & Hfx).
    exists cx. split; [|done]. by rewrite last_cons_default.
Qed.

(** X6. On a graph whose walk reaches the terminal node and whose head is not
    the terminal node, [beforeLastCode] returns the node of the walk in
    front of the terminal node: a node of the chain, not itself terminal,
    whose fallthrough edge leads to the terminal node. *)
Theorem beforeLastCode_returns_last
    (h : heap) (a : loc) (l : list loc) (e : loc) :
  chain codeType_of h (Some a) (a :: l) e ->
  ∃ x cx,
    (∀ fuel, (List.length l < fuel)%nat ->
       beforeLastCode codeType_of fuel h (Some a) = Ret (Some x))
    ∧ x ∈ a :: l
    ∧ h !! x = Some cx
    ∧ opcode.op cx ≠ opEnd
    ∧ fallthrough codeType_of cx = Some e.
Proof.
  intros H. destruct (chain_last_falls_to_terminal h l e a H)
    as (cx & Hx & Hox & Hfx).
  exists (List.last l a), cx. split_and!; try done.
  - intros fuel Hf. by apply (beforeLastCode_chain codeType_of h a l e).
  - destruct l as [|b l]; [apply list_elem_of_here|].
    apply list_elem_of_further.
    rewrite (last_nonempty_default b l a b). apply last_elem_of.
Qed.

Lemma beforeLastCode_nil_successor
    (fuel : nat) (h0 : heap) (a : loc) (n : opcode.t) :
  h0 !! a = Some n -> opcode.next n = None -> opcode.end_ n = None ->
  beforeLastCode codeType_of (S fuel) h0 (Some a) = Panic.
Proof.
  intros Hn Hnext Hend. unfold beforeLastCode. cbn [beforeLastCode_loop].
  rewrite (deref_Some _ _ _ Hn). cbn [mbind res_bind].
  unfold fallthrough. rewrite Hnext, Hend.
  by destruct (codeType_of (opcode.op n)).
Qed.

(** X7. [beforeLastCode] dereferences the fallthrough successor of the node
    it is at before it looks at anything else: it panics on nil, on the
    terminal node that [newEndOp] builds and on the nodes without links
    that the header constructors return, whatever the context, the heap
    and the table of kinds. *)
Theorem beforeLastCode_panics_without_successor
    (c : ctx.t) (h : heap) (alen : Z) (withLoad : bool) (fuel : nat) :
  beforeLastCode codeType_of (S fuel) h None = Panic
  ∧ beforeLastCode codeType_of (S fuel) (newEndOp c h).1
      (Some (newEndOp c h).2) = Panic
  ∧ beforeLastCode codeType_of (S fuel) (newSliceHeaderCode c h).1.2
      (Some (newSliceHeaderCode c h).2) = Panic
  ∧ beforeLastCode codeType_of (S fuel) (newArrayHeaderCode c alen h).1.2
      (Some (newArrayHeaderCode c alen h).2) = Panic
  ∧ beforeLastCode codeType_of (S fuel) (newMapHeaderCode c withLoad h).1.2
      (Some (newMapHeaderCode c withLoad h).2) = Panic.
Proof.
  split; [done|]. split_and!;
    (eapply beforeLastCode_nil_successor; [apply lookup_insert_eq|done|done]).
Qed.

(** X8. [totalLength] is 2 plus the slot number of the last node its walk
    visits, whatever the slots of the nodes before it; it is 2 when the
    head is the terminal node. *)
Theorem totalLength_is_last_slot_plus_2 (h : heap) (p : ptr) (l : list loc) :
  length_walk codeType_of h p l ->
  idx_in_range h l ->
  ∀ fuel, (List.length l < fuel)%nat ->
    totalLength codeType_of fuel h p
    = Ret (match l with
           | [] => 2
           | a :: l' => slot_index h (List.last l' a) + 2
           end).
Proof.
  intros H Hr fuel Hf.
  rewrite (totalLength_walk codeType_of h p l H Hr fuel Hf).
  destruct l as [|a l']; [done|]. f_equal. f_equal.
  rewrite fmap_cons, last_cons_default. clear. revert a.
  induction l' as [|b l' IH]; intros a; [done|].
  rewrite fmap_cons, !last_cons_default. apply IH.
Qed.

(** X9. The register file is large enough: when the value slots do not
    decrease along the walk, the slot number of every node the walk visits
    is below the size minus one. *)
Theorem totalLength_covers_slots (h : heap) (p : ptr) (l : list loc) :
  length_walk codeType_of h p l ->
  idx_in_range h l ->
  nondecreasing (slot_index h <$> l) ->
  ∀ fuel, (List.length l < fuel)%nat ->
    ∃ n, totalLength codeType_of fuel h p = Ret n
         ∧ 2 <= n
         ∧ ∀ a c, a ∈ l -> h !! a = Some c ->
             opcode.idx c / uintptrSize + 2 <= n.
Proof.
  intros H Hr Hmono fuel Hf.
  exists (max_slot (slot_index h <$> l) + 2). split_and!.
  - rewrite (totalLength_walk codeType_of h p l H Hr fuel Hf). f_equal. f_equal.
    apply last_nondecreasing; [done|].
    intros z Hz. apply list_elem_of_fmap in Hz as (a & -> & Ha).
    by eapply slot_index_range.
  - assert (0 <= max_slot (slot_index h <$> l)); [|lia].
    clear. induction (slot_index h <$> l) as [|z zs IH]; simpl; lia.
  - intros a c Ha Hc.
    assert (slot_index h a <= max_slot (slot_index h <$> l)) as Hle.
    { apply max_slot_ge. apply list_elem_of_fmap. by exists a. }
    unfold slot_index in Hle at 1. rewrite Hc in Hle. lia.
Qed.

End Walks.

(** ** What [decOpcodeIndex] writes and what it leaves alone *)

Section ReindexFrame.

Variable codeType_of : opType -> codeType.

(** The fields of a node that the loop body never assigns: the node with
    its display index and its value, head, element, iterator and length
    slots cleared. *)
Definition reindex_frame (c : opcode.t) : opcode.t :=
  opcode.set_displayIdx 0
    (opcode.set_idx 0
      (opcode.set_headIdx 0
        (opcode.set_elemIdx 0
          (opcode.set_mapIter 0
            (opcode.set_length 0 c))))).

(** The node [c'] is the node [c] but for the six fields that the loop
    body assigns. *)
Definition only_reindexed (c c' : opcode.t) : Prop :=
  reindex_frame c' = reindex_frame c.

Lemma reindex_frame_set (c : opcode.t) (v : Z) :
  reindex_frame (opcode.set_displayIdx v c) = reindex_frame c
  ∧ reindex_frame (opcode.set_idx v c) = reindex_frame c
  ∧ reindex_frame (opcode.set_headIdx v c) = reindex_frame c
  ∧ reindex_frame (opcode.set_elemIdx v c) = reindex_frame c
  ∧ reindex_frame (opcode.set_mapIter v c) = reindex_frame c
  ∧ reindex_frame (opcode.set_length v c) = reindex_frame c.
Proof. destruct c. vm_compute. by repeat split. Qed.

Lemma decOpcodeIndex_node_only_reindexed (c : opcode.t) :
  only_reindexed c (decOpcodeIndex_node codeType_of c).
Proof.
  unfold only_reindexed, decOpcodeIndex_node. cbv zeta.
  repeat match goal with
  | |- context [reindex_frame (if ?d then _ else _)] => destruct d
  | |- reindex_frame (opcode.set_displayIdx ?v ?x) = _ =>
    rewrite (proj1 (reindex_frame_set x v))
  | |- reindex_frame (opcode.set_idx ?v ?x) = _ =>
    rewrite (proj1 (proj2 (reindex_frame_set x v)))
  | |- reindex_frame (opcode.set_headIdx ?v ?x) = _ =>
    rewrite (proj1 (proj2 (proj2 (reindex_frame_set x v))))
  | |- reindex_frame (opcode.set_elemIdx ?v ?x) = _ =>
    rewrite (proj1 (proj2 (proj2 (proj2 (reindex_frame_set x v)))))
  | |- reindex_frame (opcode.set_mapIter ?v ?x) = _ =>
    rewrite (proj1 (proj2 (proj2 (proj2 (proj2 (reindex_frame_set x v))))))
  | |- reindex_frame (opcode.set_length ?v ?x) = _ =>
    rewrite (proj2 (proj2 (proj2 (proj2 (proj2 (reindex_frame_set x v))))))
  end; reflexivity.
Qed.

(** X10. [decOpcodeIndex] on a graph whose walk reaches the terminal node:
    every node of the heap keeps its kind, its type, its key, its flags,
    its indent, its [mapPos], [offset] and [size], its six links and its
    subroutine reference (the fields of [reindex_frame]); a node off the
    walk and the terminal node are not written at all; a node on the walk gets its display index
    decremented; and the walk from the head is the same afterwards. *)
Theorem decOpcodeIndex_frame (h : heap) (p : ptr) (l : list loc) (e : loc) :
  chain codeType_of h p l e ->
  ∃ h',
    (∀ fuel, (List.length l < fuel)%nat ->
       decOpcodeIndex codeType_of fuel h p = Ret h')
    ∧ (∀ a, h' !! a = None ↔ h !! a = None)
    ∧ (∀ a c, h !! a = Some c ->
         ∃ c', h' !! a = Some c' ∧ only_reindexed c c'
               ∧ (a ∉ l -> c' = c)
               ∧ (a ∈ l ->
                  opcode.displayIdx c' = wrap_int (opcode.displayIdx c - 1)))
    ∧ h' !! e = h !! e
    ∧ chain codeType_of h' p l e.
Proof.
  intros H.
  destruct (decOpcodeIndex_loop_chain codeType_of l e h p H)
    as (h' & Hrun & Hh').
  exists h'. split_and!.
  - exact Hrun.
  - intros a. rewrite Hh'. case_decide; [|done].
    by destruct (h !! a).
  - intros a c Hc. rewrite Hh', Hc. case_decide as Hin.
    + eexists. split; [done|]. split; [|split; [done|]].
      * apply decOpcodeIndex_node_only_reindexed.
      * intros _. unfold decOpcodeIndex_node.
        repeat case_decide; reflexivity.
    + exists c. split; [done|]. split; [reflexivity|done].
  - rewrite Hh'. rewrite decide_False; [done|].
    by apply (chain_terminal_not_in codeType_of h p).
  - eapply chain_frame; [exact H| |].
    + intros x Hx c Hc. rewrite Hh', decide_True, Hc by done.
      eexists. split; [done|]. apply decOpcodeIndex_node_shape.
    + intros c Hc. rewrite Hh', decide_False, Hc.
      * exists c. split; [done|]. apply same_shape_refl.
      * by apply (chain_terminal_not_in codeType_of h p).
Qed.

(** X11. The slots that [decOpcodeIndex] does not shift on a node of the walk:
    a head, element, iterator or length slot that is 0 (unused) stays 0,
    and the position slot [mapPos] is never written; but the value slot is
    decremented without a test: a value slot 0 wraps around to the last
    offset of the [uintptr] range. *)
Theorem decOpcodeIndex_unused_slots (h : heap) (p : ptr) (l : list loc) (e : loc) :
  chain codeType_of h p l e ->
  ∃ h',
    (∀ fuel, (List.length l < fuel)%nat ->
       decOpcodeIndex codeType_of fuel h p = Ret h')
    ∧ ∀ a c, a ∈ l -> h !! a = Some c ->
        ∃ c', h' !! a = Some c'
          ∧ (opcode.headIdx c = 0 -> opcode.headIdx c' = 0)
          ∧ (opcode.elemIdx c = 0 -> opcode.elemIdx c' = 0)
          ∧ (opcode.mapIter c = 0 -> opcode.mapIter c' = 0)
          ∧ (opcode.length c = 0 -> opcode.length c' = 0)
          ∧ opcode.mapPos c' = opcode.mapPos c
          ∧ (opcode.idx c = 0 -> opcode.idx c' = 2 ^ 64 - uintptrSize).
Proof.
  intros H.
  destruct (decOpcodeIndex_loop_chain codeType_of l e h p H)
    as (h' & Hrun & Hh').
  exists h'. split; [exact Hrun|].
  intros a c Ha Hc. rewrite Hh', decide_True, Hc by done.
  eexists. split; [done|]. unfold decOpcodeIndex_node.
  split_and!.
  - intros Hz. repeat case_decide; simpl in *; lia.
  - intros Hz. repeat case_decide; simpl in *; lia.
  - intros Hz. repeat case_decide; simpl in *; lia.
  - intros Hz. repeat case_decide; simpl in *; lia.
  - repeat case_decide; reflexivity.
  - intros Hz. repeat case_decide; simpl; rewrite Hz; reflexivity.
Qed.

End ReindexFrame.

(** ** The copy is an isomorphic image of the original *)

(** [copyOpcode] on a closed graph, with the map it ends with: finished
    copies outside the original heap, one per node and no two alike, and
    the original as it was. *)
Lemma copyOpcode_cloned_inj (h0 : heap) (c : ptr) (fuel : nat) :
  closed h0 ->
  (∀ a, c = Some a -> is_Some (h0 !! a)) ->
  (size (dom h0) <= fuel)%nat ->
  ∃ h' m r,
    copyOpcode fuel h0 c = Ret (h', r)
    ∧ cloned h0 h' m
    ∧ copy_of m c r
    ∧ h0 ⊆ h'
    ∧ (∀ a1 a2 a', m !! a1 = Some a' -> m !! a2 = Some a' -> a1 = a2).
Proof.
  intros Hcl Hc Hsize.
  destruct (copy_enough_fuel h0 Hcl fuel ∅ h0 ∅ c (copy_inv_empty h0) Hc)
    as (h' & m & r & E & Hinv & _ & Hcopy & Hframe).
  { etrans; [|exact Hsize]. apply subseteq_size. set_solver. }
  exists h', m, r. split_and!; [| |done|apply Hinv|apply Hinv].
  - unfold copyOpcode. rewrite E. done.
  - intros a a' Ha. destruct (inv_map _ _ _ _ Hinv _ _ Ha)
      as (Hnone & c0 & c' & Hc0 & Hc' & Hpay & Hfin).
    split; [done|]. exists c0, c'. split_and!; [done|done|done|].
    apply Hfin. set_solver.
Qed.

(** X12. [copyOpcode] never writes to the original: every node of the heap is
    as it was.  The copy has the shape of the original: a path of links
    leads to a node in the copy exactly when it does in the original, and
    the node it leads to has the payload of the original node (kind, type,
    display index, key, flags, indent, slots, offset and size). *)
Theorem copyOpcode_same_shape_and_payload
    (h0 : heap) (head : loc) (fuel : nat) :
  closed h0 ->
  is_Some (h0 !! head) ->
  (size (dom h0) <= fuel)%nat ->
  ∃ h' r,
    copyOpcode fuel h0 (Some head) = Ret (h', Some r)
    ∧ (∀ x c, h0 !! x = Some c -> h' !! x = Some c)
    ∧ (∀ path,
         is_Some (follow h' (Some r) path)
         ↔ is_Some (follow h0 (Some head) path))
    ∧ (∀ path a c a',
         follow h0 (Some head) path = Some a -> h0 !! a = Some c ->
         follow h' (Some r) path = Some a' ->
         ∃ c', h' !! a' = Some c' ∧ payload c' = payload c).
Proof.
  intros Hcl Hhead Hsize.
  destruct (copyOpcode_cloned_inj h0 (Some head) fuel Hcl) as
    (h' & m & r0 & E & Hm & (r & Hr & ->) & Hsub & Hinj); [|done|].
  { by intros a [= <-]. }
  assert (copy_of m (Some head) (Some r)) as Hhr by by exists r.
  exists h', r. split_and!; [done| | |].
  - intros x c Hx. by eapply lookup_weaken.
  - intros path.
    pose proof (follow_copy h0 h' m path Hm _ _ Hhr) as C.
    destruct (follow h0 (Some head) path) as [a|].
    + destruct C as (a' & _ & ->). split; eauto.
    + rewrite C. done.
  - intros path a c a' Hf Hc Hf'.
    pose proof (follow_copy h0 h' m path Hm _ _ Hhr) as C.
    rewrite Hf, Hf' in C. destruct C as (b' & Hb & [= <-]).
    destruct (Hm _ _ Hb) as (_ & c0 & c' & Hc0 & Hc' & Hpay & _).
    exists c'. split; [done|]. congruence.
Qed.

(** X13. The copy does not merge nodes: two paths that lead to one node of the
    copy lead to one node of the original. *)
Theorem copyOpcode_does_not_merge (h0 : heap) (head : loc) (fuel : nat) :
  closed h0 ->
  is_Some (h0 !! head) ->
  (size (dom h0) <= fuel)%nat ->
  ∃ h' r,
    copyOpcode fuel h0 (Some head) = Ret (h', Some r)
    ∧ ∀ path1 path2 n',
        follow h' (Some r) path1 = Some n' ->
        follow h' (Some r) path2 = Some n' ->
        ∃ n, follow h0 (Some head) path1 = Some n
             ∧ follow h0 (Some head) path2 = Some n.
Proof.
  intros Hcl Hhead Hsize.
  destruct (copyOpcode_cloned_inj h0 (Some head) fuel Hcl) as
    (h' & m & r0 & E & Hm & (r & Hr & ->) & Hsub & Hinj); [|done|].
  { by intros a [= <-]. }
  assert (copy_of m (Some head) (Some r)) as Hhr by by exists r.
  exists h', r. split; [done|].
  intros path1 path2 n' H1 H2.
  pose proof (follow_copy h0 h' m path1 Hm _ _ Hhr) as C1.
  pose proof (follow_copy h0 h' m path2 Hm _ _ Hhr) as C2.
  rewrite H1 in C1. rewrite H2 in C2.
  destruct (follow h0 (Some head) path1) as [b1|]; [|done].
  destruct (follow h0 (Some head) path2) as [b2|]; [|done].
  destruct C1 as (x1 & Hx1 & [= <-]). destruct C2 as (x2 & Hx2 & [= <-]).
  exists b1. split; [done|]. f_equal. by eapply Hinj.
Qed.

(** ** The text of [dump] *)

Section DumpLines.

Variable codeType_of : opType -> codeType.
Variable opType_String : opType -> string.

(** The line that [dump] prints for a node: the case of its switch that
    the kind of the node selects. *)
Definition dump_line (c : opcode.t) : res string :=
  match codeType_of (opcode.op c) with
  | codeSliceHead => dumpHead codeType_of opType_String c
  | codeMapHead => dumpMapHead opType_String c
  | codeArrayElem | codeSliceElem => dumpElem codeType_of opType_String c
  | codeMapKey => dumpKey opType_String c
  | codeMapValue => dumpValue opType_String c
  | codeMapEnd => dumpMapEnd opType_String c
  | codeStructField => dumpField opType_String c
  | _ => dumpDefault opType_String c
  end.

Lemma dump_loop_step (fuel : nat) (h : heap) (a : loc) (c : opcode.t)
    (codes : list string) :
  h !! a = Some c -> opcode.op c ≠ opEnd ->
  dump_loop codeType_of opType_String (S fuel) h (Some a) codes
  = (s ← dump_line c;
     dump_loop codeType_of opType_String fuel h (fallthrough codeType_of c)
       (codes ++ [s])).
Proof.
  intros Hc Ho. cbn [dump_loop]. rewrite (deref_Some _ _ _ Hc).
  cbn [mbind res_bind]. rewrite decide_False by done.
  unfold dump_line, fallthrough.
  by destruct (codeType_of (opcode.op c)).
Qed.

Lemma dump_line_indent (c : opcode.t) :
  (0 <= opcode.indent c -> ∃ s, dump_line c = Ret s)
  ∧ (opcode.indent c < 0 -> dump_line c = Panic).
Proof.
  unfold dump_line, dumpHead, dumpMapHead, dumpElem, dumpKey, dumpValue,
    dumpMapEnd, dumpField, dumpDefault, dump_prefix, repeat_dash.
  split; intros Hi.
  - rewrite decide_False by lia. cbn [mbind mret res_bind res_ret].
    destruct (codeType_of (opcode.op c)); eauto.
  - rewrite decide_True by lia. cbn [mbind res_bind].
    by destruct (codeType_of (opcode.op c)).
Qed.

Lemma dump_line_payload (c c' : opcode.t) :
  payload c' = payload c -> dump_line c' = dump_line c.
Proof.
  intros H. unfold dump_line. rewrite (payload_op _ _ H).
  destruct (dump_lines_payload codeType_of opType_String _ _ H)
    as (-> & -> & -> & -> & -> & -> & -> & ->).
  done.
Qed.

(** [line_at h a s]: [s] is the line of the node at [a]. *)
Definition line_at (h : heap) (a : loc) (s : string) : Prop :=
  ∃ c, h !! a = Some c ∧ dump_line c = Ret s.

Lemma dump_loop_chain (h : heap) (l : list loc) (e : loc) :
  ∀ p, chain codeType_of h p l e ->
    (∀ a c, a ∈ l -> h !! a = Some c -> 0 <= opcode.indent c) ->
    ∃ lines,
      Forall2 (line_at h) l lines
      ∧ ∀ fuel codes, (List.length l < fuel)%nat ->
          dump_loop codeType_of opType_String fuel h p codes
          = Ret (codes ++ lines).
Proof.
  induction l as [|a l IH]; intros p H Hind.
  - inversion H as [e' c Hc Ho|]; subst. exists []. split; [constructor|].
    intros fuel codes Hf. destruct fuel as [|fuel]; [simpl in Hf; lia|].
    cbn [dump_loop]. rewrite (deref_Some _ _ _ Hc). cbn [mbind res_bind].
    rewrite decide_True by done. by rewrite app_nil_r.
  - inversion H as [|a' c l' e' Hc Ho H' E]; subst.
    destruct (proj1 (dump_line_indent c)) as [s Hs].
    { apply (Hind a c); [apply list_elem_of_here|done]. }
    destruct (IH _ H') as (lines & Hlines & Hrun).
    { intros x cx Hx. apply Hind. by apply list_elem_of_further. }
    exists (s :: lines). split.
    + constructor; [by exists c|done].
    + intros fuel codes Hf. destruct fuel as [|fuel]; [simpl in Hf; lia|].
      rewrite (dump_loop_step fuel h a c codes Hc Ho), Hs.
      cbn [mbind res_bind]. rewrite Hrun by (simpl in Hf; lia).
      by rewrite <- app_assoc.
Qed.

(** X14. On a graph whose walk reaches the terminal node and whose nodes have
    no negative indent, [dump] returns: its text is the lines of the
    non-terminal nodes of the walk, one per node and in the order of the
    walk, joined by newlines; it is the empty text when the head is the
    terminal node. *)
Theorem dump_one_line_per_node (h : heap) (p : ptr) (l : list loc) (e : loc) :
  chain codeType_of h p l e ->
  (∀ a c, a ∈ l -> h !! a = Some c -> 0 <= opcode.indent c) ->
  ∃ lines,
    Forall2 (line_at h) l lines
    ∧ List.length lines = List.length l
    ∧ (l = [] -> String.concat newline lines = ""%string)
    ∧ ∀ fuel, (List.length l < fuel)%nat ->
        dump codeType_of opType_String fuel h p
        = Ret (String.concat newline lines).
Proof.
  intros H Hind. destruct (dump_loop_chain h l e p H Hind)
    as (lines & Hlines & Hrun).
  exists lines. split_and!; [done| | |].
  - symmetry. by eapply Forall2_length.
  - intros ->. by inversion Hlines.
  - intros fuel Hf. unfold dump. by rewrite Hrun.
Qed.

(** X15. [strings.Repeat] panics on a negative count: on a graph whose walk
    reaches the terminal node, [dump] panics when a node of the walk has a
    negative indent (the first such node is [a], after the nodes [l1]). *)
Theorem dump_panics_on_negative_indent
    (h : heap) (l1 l2 : list loc) (a e : loc) (c : opcode.t) (p : ptr) :
  chain codeType_of h p (l1 ++ a :: l2) e ->
  (∀ x cx, x ∈ l1 -> h !! x = Some cx -> 0 <= opcode.indent cx) ->
  h !! a = Some c -> opcode.indent c < 0 ->
  ∀ fuel, (List.length l1 < fuel)%nat ->
    dump codeType_of opType_String fuel h p = Panic.
Proof.
  intros H Hind Hc Hneg fuel Hf. unfold dump.
  assert (dump_loop codeType_of opType_String fuel h p [] = Panic) as ->;
    [|done].
  generalize (@nil string) as codes. revert p H Hind fuel Hf.
  induction l1 as [|x l1 IH]; intros p H Hind fuel Hf codes;
    (destruct fuel as [|fuel]; [simpl in Hf; lia|]).
  - inversion H as [|a' c' l' e' Hc' Ho H' E]; subst.
    assert (c' = c) as -> by congruence.
    rewrite (dump_loop_step fuel h a c codes Hc Ho).
    by rewrite (proj2 (dump_line_indent c) Hneg).
  - inversion H as [|x' cx l' e' Hcx Ho H' E]; subst.
    destruct (proj1 (dump_line_indent cx)) as [s Hs].
    { apply (Hind x cx); [apply list_elem_of_here|done]. }
    rewrite (dump_loop_step fuel h x cx codes Hcx Ho), Hs.
    cbn [mbind res_bind]. apply IH; [done| |simpl in Hf; lia].
    intros y cy Hy. apply Hind. by apply list_elem_of_further.
Qed.

End DumpLines.

(** ** Splicing and the dump; constructors and the register file *)

Section SpliceDump.

Variable codeType_of : opType -> codeType.
Variable opType_String : opType -> string.

(** The heap after [linkPrevToNextField] takes [b] out of the chain of
    [a], when the node [p] in front of [b] and [b] itself fall through by
    their [next] links: only links are written, and the walk from [a]
    skips [b]. *)
Lemma linkPrevToNextField_spliced
    (h : heap) (a b p : loc) (na nb np : opcode.t)
    (l1 l2 : list loc) (e : loc) :
  chain codeType_of h (Some a) (l1 ++ p :: b :: l2) e ->
  h !! a = Some na -> h !! b = Some nb -> h !! p = Some np ->
  follows_next codeType_of (opcode.op np) ->
  follows_next codeType_of (opcode.op nb) ->
  ∃ h',
    (∀ fuel, (List.length l1 < fuel)%nat ->
       linkPrevToNextField codeType_of fuel h (Some a) (Some b) = Ret h')
    ∧ (∀ x c, h !! x = Some c ->
         ∃ c', h' !! x = Some c' ∧ payload c' = payload c)
    ∧ chain codeType_of h' (Some a) (l1 ++ p :: l2) e.
Proof.
  intros H Ha Hb Hp Hnp Hnb.
  pose proof (chain_NoDup _ _ _ _ _ H) as Hnd.
  assert (b ∉ l1 ++ [p]) as Hbnot.
  { intros Hin. apply NoDup_app in Hnd as (_ & Hd & Hnd).
    apply NoDup_cons in Hnd as [Hpn _].
    apply elem_of_app in Hin as [Hin|Hin].
    - apply (Hd _ Hin). apply list_elem_of_further, list_elem_of_here.
    - apply list_elem_of_singleton in Hin. apply Hpn. rewrite <- Hin.
      apply list_elem_of_here. }
  assert (a ∈ l1 ++ [p]) as Hain.
  { inversion H as [e' ce Hce Hoe E1 E2|a' ca l' e' Hca Hoa H' E1 E2].
    - by destruct l1.
    - destruct l1 as [|w l1]; simplify_eq/=; set_solver. }
  assert (a ≠ b) as Hab by (intros E; apply Hbnot; by rewrite <- E).
  set (na1 := opcode.set_nextField (opcode.nextField nb) na).
  set (h1 := <[a := na1]> h).
  set (np1 := if decide (p = a) then na1 else np).
  assert (h1 !! p = Some np1) as Hp1.
  { unfold h1, np1. case_decide as E; [subst; apply lookup_insert_eq|].
    by rewrite lookup_insert_ne. }
  assert (h1 !! b = Some nb) as Hb1
    by (unfold h1; by rewrite lookup_insert_ne).
  assert (same_shape na na1) as Hsa by by repeat split.
  assert (∀ x, shape_at h h1 x) as Hsh1
    by (intros x; eapply shape_at_insert; [exact Ha|exact Hsa]).
  assert (chain codeType_of h1 (Some a) (l1 ++ p :: b :: l2) e) as H1
    by (eapply chain_frame; [exact H| |]; eauto).
  set (np' := opcode.set_next (opcode.next nb) np1).
  set (h' := <[p := np']> h1).
  assert (opcode.op np1 = opcode.op np) as Hop1.
  { unfold np1. case_decide as E; [|done]. subst. simpl. congruence. }
  assert (opcode.op np ≠ opEnd) as Hopn.
  { eapply (chain_nonterminal _ _ _ _ _ p np H); [|done].
    apply elem_of_app. right. apply list_elem_of_here. }
  assert (payload na1 = payload na) as Hpa
    by apply (payload_set_link LnextField).
  assert (payload np' = payload np) as Hpp.
  { unfold np'. rewrite (payload_set_link Lnext). unfold np1.
    case_decide as E; [|done]. subst. congruence. }
  exists h'. split_and!.
  - intros fuel Hf. unfold linkPrevToNextField.
    rewrite (deref_Some _ _ _ Hb). cbn [mbind res_bind].
    rewrite (store_Some _ _ _ _ Ha). cbn [mbind res_bind].
    by apply (linkPrevToNextField_loop_found _ h1 p b np1 nb l2 e Hp1 Hb1 l1).
  - intros x c Hx. unfold h'. destruct (decide (x = p)) as [->|Hxp].
    + exists np'. rewrite lookup_insert_eq. split; [done|]. congruence.
    + rewrite lookup_insert_ne by done. unfold h1.
      destruct (decide (x = a)) as [->|Hxa].
      * exists na1. rewrite lookup_insert_eq. split; [done|]. congruence.
      * exists c. by rewrite lookup_insert_ne.
  - apply (chain_splice _ h1 h' p b np' nb l2 e); try done.
    + apply lookup_insert_eq.
    + simpl. by rewrite Hop1.
    + rewrite !fallthrough_next; [done|done|simpl; by rewrite Hop1].
    + intros x Hx. by apply shape_at_insert_ne.
Qed.

Lemma line_at_payload (h h' : heap) (l : list loc) (lines : list string) :
  (∀ x c, h !! x = Some c -> ∃ c', h' !! x = Some c' ∧ payload c' = payload c) ->
  Forall2 (line_at codeType_of opType_String h) l lines ->
  Forall2 (line_at codeType_of opType_String h') l lines.
Proof.
  intros Hpay. induction 1 as [|x s l lines (c & Hc & Hs) _ IH]; constructor;
    [|done].
  destruct (Hpay x c Hc) as (c' & Hc' & Hp). exists c'. split; [done|].
  by rewrite (dump_line_payload codeType_of opType_String c c' Hp).
Qed.

Lemma line_at_functional (h : heap) (l : list loc) (ls ls' : list string) :
  Forall2 (line_at codeType_of opType_String h) l ls ->
  Forall2 (line_at codeType_of opType_String h) l ls' -> ls = ls'.
Proof.
  intros H. revert ls'. induction H as [|x s l ls (c & Hc & Hs) _ IH];
    intros ls' H'; inversion H' as [|x' s' l' ls0 (c' & Hc' & Hs') H0]; subst;
    [done|].
  f_equal; [congruence|by apply IH].
Qed.

(** X16. The dump after a field is spliced out, under the conditions in which
    the splice works (the node in front of [b] and [b] fall through by
    [next]) and with no negative indent on the chain: the text before the
    call has one line per node of the chain of [a]; the text after the call
    has the same lines, in the same order, but for the line of [b]. *)
Theorem dump_after_linkPrevToNextField
    (h : heap) (a b p : loc) (na nb np : opcode.t)
    (l1 l2 : list loc) (e : loc) :
  chain codeType_of h (Some a) (l1 ++ p :: b :: l2) e ->
  h !! a = Some na -> h !! b = Some nb -> h !! p = Some np ->
  follows_next codeType_of (opcode.op np) ->
  follows_next codeType_of (opcode.op nb) ->
  (∀ x c, x ∈ l1 ++ p :: b :: l2 -> h !! x = Some c -> 0 <= opcode.indent c) ->
  ∃ (lines1 lines2 : list string) (lineP lineB : string) (h' : heap),
    Forall2 (line_at codeType_of opType_String h) l1 lines1
    ∧ line_at codeType_of opType_String h p lineP
    ∧ line_at codeType_of opType_String h b lineB
    ∧ Forall2 (line_at codeType_of opType_String h) l2 lines2
    ∧ ∀ fuel, (List.length (l1 ++ p :: b :: l2) < fuel)%nat ->
        dump codeType_of opType_String fuel h (Some a)
        = Ret (String.concat newline (lines1 ++ lineP :: lineB :: lines2))
        ∧ linkPrevToNextField codeType_of fuel h (Some a) (Some b) = Ret h'
        ∧ dump codeType_of opType_String fuel h' (Some a)
          = Ret (String.concat newline (lines1 ++ lineP :: lines2)).
Proof.
  intros H Ha Hb Hp Hnp Hnb Hind.
  destruct (dump_loop_chain codeType_of opType_String h _ e _ H Hind)
    as (lines & Hlines & Hrun).
  apply Forall2_app_inv_l in Hlines as (lines1 & rest & H1 & Hrest & ->).
  apply Forall2_cons_inv_l in Hrest as (lineP & rest' & HP & Hrest & ->).
  apply Forall2_cons_inv_l in Hrest as (lineB & lines2 & HB & H2 & ->).
  destruct (linkPrevToNextField_spliced h a b p na nb np l1 l2 e
              H Ha Hb Hp Hnp Hnb) as (h' & Hlink & Hpay & Hchain').
  assert (Forall2 (line_at codeType_of opType_String h')
            (l1 ++ p :: l2) (lines1 ++ lineP :: lines2)) as Hl'.
  { apply (line_at_payload h h'); [done|].
    apply Forall2_app; [done|]. by constructor. }
  destruct (dump_loop_chain codeType_of opType_String h' _ e _ Hchain')
    as (lines' & Hlines' & Hrun').
  { intros x c' Hx Hc'.
    assert (x ∈ l1 ++ p :: b :: l2) as Hx0.
    { apply elem_of_app in Hx as [?|Hx]; apply elem_of_app; [by left|right].
      apply elem_of_cons in Hx as [->|?]; [apply list_elem_of_here|].
      by do 2 apply list_elem_of_further. }
    destruct (chain_lookup _ _ _ _ _ x H Hx0) as [c Hc].
    destruct (Hpay x c Hc) as (c'' & Hc'' & Hpc).
    assert (c'' = c') as -> by congruence.
    replace (opcode.indent c') with (opcode.indent c);
      [by apply (Hind x)|].
    exact (eq_sym (f_equal opcode.indent Hpc)). }
  rewrite (line_at_functional h' _ _ _ Hlines' Hl') in Hrun'.
  exists lines1, lines2, lineP, lineB, h'. split_and!; try done.
  intros fuel Hf. split_and!.
  - unfold dump. by rewrite Hrun.
  - apply Hlink. rewrite length_app in Hf. lia.
  - unfold dump. rewrite Hrun'; [done|].
    rewrite !length_app in *. simpl in *. lia.
Qed.

(** X17. On the graph that [newOpCode], [newInterfaceCode] or
    [newRecursiveCode] builds in a context whose next free slot is [k], the
    register file size is [k + 2]: the slot of the node, one for the
    terminal node and one to turn the slot number into a count. *)
Theorem totalLength_of_single_node
    (c : ctx.t) (h : heap) (o : opType) (jmp : option positive) (fuel : nat) :
  0 <= ctx.ptrIndex c < 2 ^ 61 ->
  o ≠ opEnd ->
  follows_next codeType_of o ->
  follows_next codeType_of opInterface ->
  follows_next codeType_of opStructFieldRecursive ->
  totalLength codeType_of (S (S fuel)) (newOpCode c o h).1
    (Some (newOpCode c o h).2) = Ret (ctx.ptrIndex c + 2)
  ∧ totalLength codeType_of (S (S fuel)) (newInterfaceCode c h).1
      (Some (newInterfaceCode c h).2) = Ret (ctx.ptrIndex c + 2)
  ∧ totalLength codeType_of (S (S fuel)) (newRecursiveCode c jmp h).1
      (Some (newRecursiveCode c jmp h).2) = Ret (ctx.ptrIndex c + 2).
Proof.
  intros Hk Ho Hfo Hfi Hfr.
  assert (∀ (mk : ptr -> opcode.t),
    (∀ p, opcode.op (mk p) ≠ opEnd) ->
    (∀ p, fallthrough codeType_of (mk p) = p) ->
    (∀ p, opcode.idx (mk p) = opcodeOffset (ctx.ptrIndex c)) ->
    let r := (let '(h1, e) := newEndOp c h in alloc h1 (mk (Some e))) in
    totalLength codeType_of (S (S fuel)) r.1 (Some r.2)
    = Ret (ctx.ptrIndex c + 2)) as Hgen.
  { intros mk Hop Hft Hidx. unfold newEndOp, newOpCodeWithNext, alloc.
    cbv zeta.
    set (e := fresh (dom h)). set (ne := literal opEnd _).
    set (h1 := <[e := ne]> h). set (a := fresh (dom h1)).
    set (n := mk (Some e)). cbn [fst snd].
    assert (h1 !! a = None) as Ha by apply not_elem_of_dom, is_fresh.
    assert (a ≠ e) as Hne
      by (intros E; unfold h1 in Ha; rewrite E, lookup_insert_eq in Ha; done).
    assert (<[a := n]> h1 !! a = Some n) as Hn by apply lookup_insert_eq.
    assert (<[a := n]> h1 !! e = Some ne) as Hne'.
    { rewrite lookup_insert_ne by done. apply lookup_insert_eq. }
    assert (length_walk codeType_of (<[a := n]> h1) (Some a) [a]) as Hw.
    { destruct (decide (stops_length (opcode.op n))) as [Hs|Hs].
      - by eapply length_walk_stop.
      - eapply length_walk_step; [done|apply Hop|done|].
        unfold n. rewrite Hft. by eapply length_walk_end. }
    assert (opcode.idx n = uintptrSize * ctx.ptrIndex c) as Hi
      by (unfold n; rewrite Hidx; by apply opcodeOffset_small).
    rewrite (totalLength_walk codeType_of _ _ [a] Hw).
    - simpl. unfold slot_index. rewrite Hn, Hi. unfold uintptrSize.
      rewrite Z.mul_comm, Z.div_mul by lia. done.
    - intros x cx Hx Hcx. apply list_elem_of_singleton in Hx as ->.
      assert (cx = n) as -> by congruence. rewrite Hi.
      unfold uintptrSize. lia.
    - simpl. lia. }
  split_and!.
  - apply (Hgen (λ p, literal o
      [ opcode.set_typ (ctx.typ c);
        opcode.set_displayIdx (ctx.opcodeIndex c);
        opcode.set_indent (ctx.indent c);
        opcode.set_idx (opcodeOffset (ctx.ptrIndex c));
        opcode.set_next p ])); [done| |done].
    intros p. by rewrite fallthrough_next.
  - apply (Hgen (λ p, literal opInterface
      [ opcode.set_typ (ctx.typ c);
        opcode.set_displayIdx (ctx.opcodeIndex c);
        opcode.set_idx (opcodeOffset (ctx.ptrIndex c));
        opcode.set_indent (ctx.indent c);
        opcode.set_root (ctx.root c);
        opcode.set_next p ])); [done| |done].
    intros p. by rewrite fallthrough_next.
  - apply (Hgen (λ p, literal opStructFieldRecursive
      [ opcode.set_typ (ctx.typ c);
        opcode.set_displayIdx (ctx.opcodeIndex c);
        opcode.set_idx (opcodeOffset (ctx.ptrIndex c));
        opcode.set_indent (ctx.indent c);
        opcode.set_next p;
        opcode.set_jmp jmp ])); [done| |done].
    intros p. by rewrite fallthrough_next.
Qed.

End SpliceDump.

(** ** The further properties on concrete graphs *)

(** A slice as the compiler wires it: the header 1, the code of the
    element value 2, the element node 3, which loops back to 2 by its
    [next] link and leaves by its [end] link, and the terminal node 4. *)
Definition slice_graph : heap :=
  <[1%positive := opcode.set_elem (Some 3%positive)
                    (node opSliceHead 0 (Some 2%positive) (Some 4%positive))]>
  (<[2%positive := node (opOther 0) 24 (Some 3%positive) None]>
  (<[3%positive := node opSliceElem 24 (Some 2%positive) (Some 4%positive)]>
  (<[4%positive := node opEnd 32 None None]> ∅))).

(** A field with a negative indent in front of the terminal node. *)
Definition negative_indent_graph : heap :=
  <[1%positive := opcode.set_indent (-1)
                    (node opStructField 8 (Some 2%positive) None)]>
  (<[2%positive := node opEnd 16 None None]> ∅).

(** A field whose value slot is 0 in front of the terminal node. *)
Definition zero_slot_graph : heap :=
  <[1%positive := node opStructField 0 (Some 2%positive) None]>
  (<[2%positive := node opEnd 8 None None]> ∅).

Lemma slice_graph_closed : closed slice_graph.
Proof.
  intros a c l b Ha Hl. unfold slice_graph in Ha.
  repeat (apply lookup_insert_Some in Ha as [[<- <-]|[_ Ha]];
          [destruct l; vm_compute in Hl; simplify_eq; vm_compute; eauto|]).
  by rewrite lookup_empty in Ha.
Qed.

Lemma slice_graph_size : (size (dom slice_graph) <= 4)%nat.
Proof. vm_compute. lia. Qed.

Lemma beforeLastCode_returns_last_witness :
  ∃ x cx,
    (∀ fuel, (3 < fuel)%nat ->
       beforeLastCode codeType_std fuel field_chain (Some 1%positive)
       = Ret (Some x))
    ∧ x ∈ [1%positive; 2%positive; 3%positive; 4%positive]
    ∧ field_chain !! x = Some cx
    ∧ opcode.op cx ≠ opEnd
    ∧ fallthrough codeType_std cx = Some 5%positive.
Proof.
  apply (beforeLastCode_returns_last codeType_std field_chain 1%positive
           [2%positive; 3%positive; 4%positive] 5%positive).
  apply (chain_of_sound codeType_std 5). vm_compute. reflexivity.
Defined.

Lemma descending_graph_walk :
  length_walk codeType_std descending_graph (Some 1%positive)
    [1%positive; 2%positive]
  ∧ idx_in_range descending_graph [1%positive; 2%positive].
Proof.
  split.
  - eapply length_walk_step;
      [vm_compute; reflexivity|discriminate|intros [?|?]; discriminate|].
    eapply length_walk_step;
      [vm_compute; reflexivity|discriminate|intros [?|?]; discriminate|].
    eapply length_walk_end; [vm_compute; reflexivity|reflexivity].
  - intros a c Ha Hc.
    apply elem_of_cons in Ha as [->|Ha];
      [|apply list_elem_of_singleton in Ha as ->];
      vm_compute in Hc; injection Hc as <-; vm_compute; split; congruence.
Qed.

(** The size of the descending graph is 3, from the last slot 1, although
    the walk sees the slot 3. *)
Lemma totalLength_is_last_slot_plus_2_witness :
  totalLength codeType_std 3 descending_graph (Some 1%positive)
  = Ret (slot_index descending_graph (List.last [2%positive] 1%positive) + 2)
  ∧ slot_index descending_graph (List.last [2%positive] 1%positive) + 2 = 3
  ∧ slot_index descending_graph 1%positive = 3.
Proof.
  split; [|split; vm_compute; reflexivity].
  apply (totalLength_is_last_slot_plus_2 codeType_std descending_graph
           (Some 1%positive) [1%positive; 2%positive]
           (proj1 descending_graph_walk) (proj2 descending_graph_walk)).
  simpl. lia.
Defined.

Lemma record_graph_walk :
  length_walk codeType_std record_graph (Some 1%positive)
    [1%positive; 2%positive]
  ∧ idx_in_range record_graph [1%positive; 2%positive]
  ∧ nondecreasing (slot_index record_graph <$> [1%positive; 2%positive]).
Proof.
  split; [|split].
  - eapply length_walk_step;
      [vm_compute; reflexivity|discriminate|intros [?|?]; discriminate|].
    eapply length_walk_step;
      [vm_compute; reflexivity|discriminate|intros [?|?]; discriminate|].
    eapply length_walk_end; [vm_compute; reflexivity|reflexivity].
  - intros a c Ha Hc.
    apply elem_of_cons in Ha as [->|Ha];
      [|apply list_elem_of_singleton in Ha as ->];
      vm_compute in Hc; injection Hc as <-; vm_compute; split; congruence.
  - intros i j x y Hij Hi Hj. vm_compute in Hi, Hj.
    destruct i as [|[|i]], j as [|[|j]]; simplify_eq; lia.
Qed.

Lemma totalLength_covers_slots_witness :
  ∃ n, totalLength codeType_std 3 record_graph (Some 1%positive) = Ret n
       ∧ 2 <= n
       ∧ ∀ a c, a ∈ [1%positive; 2%positive] -> record_graph !! a = Some c ->
           opcode.idx c / uintptrSize + 2 <= n.
Proof.
  apply (totalLength_covers_slots codeType_std record_graph
           (Some 1%positive) [1%positive; 2%positive]
           (proj1 record_graph_walk) (proj1 (proj2 record_graph_walk))
           (proj2 (proj2 record_graph_walk))).
  simpl. lia.
Defined.

Lemma decOpcodeIndex_frame_witness :
  ∃ h',
    (∀ fuel, (2 < fuel)%nat ->
       decOpcodeIndex codeType_std fuel record_graph (Some 1%positive) = Ret h')
    ∧ (∀ a, h' !! a = None ↔ record_graph !! a = None)
    ∧ (∀ a c, record_graph !! a = Some c ->
         ∃ c', h' !! a = Some c' ∧ only_reindexed c c'
               ∧ (a ∉ [1%positive; 2%positive] -> c' = c)
               ∧ (a ∈ [1%positive; 2%positive] ->
                  opcode.displayIdx c' = wrap_int (opcode.displayIdx c - 1)))
    ∧ h' !! 3%positive = record_graph !! 3%positive
    ∧ chain codeType_std h' (Some 1%positive) [1%positive; 2%positive]
        3%positive.
Proof.
  apply (decOpcodeIndex_frame codeType_std record_graph (Some 1%positive)
           [1%positive; 2%positive] 3%positive).
  apply (chain_of_sound codeType_std 3). vm_compute. reflexivity.
Defined.

Lemma decOpcodeIndex_unused_slots_witness :
  ∃ h',
    (∀ fuel, (1 < fuel)%nat ->
       decOpcodeIndex codeType_std fuel zero_slot_graph (Some 1%positive)
       = Ret h')
    ∧ ∀ a c, a ∈ [1%positive] -> zero_slot_graph !! a = Some c ->
        ∃ c', h' !! a = Some c'
          ∧ (opcode.headIdx c = 0 -> opcode.headIdx c' = 0)
          ∧ (opcode.elemIdx c = 0 -> opcode.elemIdx c' = 0)
          ∧ (opcode.mapIter c = 0 -> opcode.mapIter c' = 0)
          ∧ (opcode.length c = 0 -> opcode.length c' = 0)
          ∧ opcode.mapPos c' = opcode.mapPos c
          ∧ (opcode.idx c = 0 -> opcode.idx c' = 2 ^ 64 - uintptrSize).
Proof.
  apply (decOpcodeIndex_unused_slots codeType_std zero_slot_graph
           (Some 1%positive) [1%positive] 2%positive).
  apply (chain_of_sound codeType_std 2). vm_compute. reflexivity.
Defined.

(** The copy of the slice graph, which has a cycle. *)
Lemma copyOpcode_same_shape_and_payload_witness :
  ∃ h' r,
    copyOpcode 4 slice_graph (Some 1%positive) = Ret (h', Some r)
    ∧ (∀ x c, slice_graph !! x = Some c -> h' !! x = Some c)
    ∧ (∀ path,
         is_Some (follow h' (Some r) path)
         ↔ is_Some (follow slice_graph (Some 1%positive) path))
    ∧ (∀ path a c a',
         follow slice_graph (Some 1%positive) path = Some a ->
         slice_graph !! a = Some c ->
         follow h' (Some r) path = Some a' ->
         ∃ c', h' !! a' = Some c' ∧ payload c' = payload c).
Proof.
  apply (copyOpcode_same_shape_and_payload slice_graph 1%positive 4).
  - exact slice_graph_closed.
  - vm_compute. eauto.
  - exact slice_graph_size.
Defined.

Lemma copyOpcode_does_not_merge_witness :
  ∃ h' r,
    copyOpcode 4 slice_graph (Some 1%positive) = Ret (h', Some r)
    ∧ ∀ path1 path2 n',
        follow h' (Some r) path1 = Some n' ->
        follow h' (Some r) path2 = Some n' ->
        ∃ n, follow slice_graph (Some 1%positive) path1 = Some n
             ∧ follow slice_graph (Some 1%positive) path2 = Some n.
Proof.
  apply (copyOpcode_does_not_merge slice_graph 1%positive 4).
  - exact slice_graph_closed.
  - vm_compute. eauto.
  - exact slice_graph_size.
Defined.

Lemma record_graph_indents (a : loc) (c : opcode.t) :
  record_graph !! a = Some c -> 0 <= opcode.indent c.
Proof.
  intros Ha. unfold record_graph in Ha.
  repeat (apply lookup_insert_Some in Ha as [[<- <-]|[_ Ha]];
          [vm_compute; discriminate|]).
  by rewrite lookup_empty in Ha.
Qed.

Lemma dump_one_line_per_node_witness :
  ∃ lines,
    Forall2 (line_at codeType_std (λ _, "Field"%string) record_graph)
      [1%positive; 2%positive] lines
    ∧ List.length lines = 2%nat
    ∧ ([1%positive; 2%positive] = [] -> String.concat newline lines = ""%string)
    ∧ ∀ fuel, (2 < fuel)%nat ->
        dump codeType_std (λ _, "Field"%string) fuel record_graph
          (Some 1%positive)
        = Ret (String.concat newline lines).
Proof.
  apply (dump_one_line_per_node codeType_std (λ _, "Field"%string)
           record_graph (Some 1%positive) [1%positive; 2%positive] 3%positive).
  - apply (chain_of_sound codeType_std 3). vm_compute. reflexivity.
  - intros a c _. apply record_graph_indents.
Defined.

Lemma dump_panics_on_negative_indent_witness :
  dump codeType_std (λ _, "Field"%string) 1 negative_indent_graph
    (Some 1%positive) = Panic.
Proof.
  apply (dump_panics_on_negative_indent codeType_std (λ _, "Field"%string)
           negative_indent_graph [] [] 1%positive 2%positive
           (opcode.set_indent (-1)
              (node opStructField 8 (Some 2%positive) None))
           (Some 1%positive)).
  - apply (chain_of_sound codeType_std 2). vm_compute. reflexivity.
  - intros x cx Hx. by apply elem_of_nil in Hx.
  - vm_compute. reflexivity.
  - vm_compute. reflexivity.
  - simpl. lia.
Defined.

Lemma field_chain_indents (a : loc) (c : opcode.t) :
  field_chain !! a = Some c -> 0 <= opcode.indent c.
Proof.
  intros Ha. unfold field_chain in Ha.
  repeat (apply lookup_insert_Some in Ha as [[<- <-]|[_ Ha]];
          [vm_compute; discriminate|]).
  by rewrite lookup_empty in Ha.
Qed.

Lemma dump_after_linkPrevToNextField_witness :
  ∃ (lines1 lines2 : list string) (lineP lineB : string) (h' : heap),
    Forall2 (line_at codeType_std (λ _, "op"%string) field_chain)
      [1%positive] lines1
    ∧ line_at codeType_std (λ _, "op"%string) field_chain 2%positive lineP
    ∧ line_at codeType_std (λ _, "op"%string) field_chain 3%positive lineB
    ∧ Forall2 (line_at codeType_std (λ _, "op"%string) field_chain)
        [4%positive] lines2
    ∧ ∀ fuel,
        (List.length ([1%positive] ++ 2%positive :: 3%positive :: [4%positive])
         < fuel)%nat ->
        dump codeType_std (λ _, "op"%string) fuel field_chain (Some 1%positive)
        = Ret (String.concat newline (lines1 ++ lineP :: lineB :: lines2))
        ∧ linkPrevToNextField codeType_std fuel field_chain
            (Some 1%positive) (Some 3%positive) = Ret h'
        ∧ dump codeType_std (λ _, "op"%string) fuel h' (Some 1%positive)
          = Ret (String.concat newline (lines1 ++ lineP :: lines2)).
Proof.
  apply (dump_after_linkPrevToNextField codeType_std (λ _, "op"%string)
           field_chain 1%positive 3%positive 2%positive
           (opcode.set_nextField (Some 3%positive)
              (node opStructField 8 (Some 2%positive) None))
           (opcode.set_nextField (Some 4%positive)
              (node opStructField 16 (Some 4%positive) None))
           (node (opOther 0) 8 (Some 3%positive) None)
           [1%positive] [4%positive] 5%positive).
  - apply (chain_of_sound codeType_std 5). vm_compute. reflexivity.
  - vm_compute. reflexivity.
  - vm_compute. reflexivity.
  - vm_compute. reflexivity.
  - repeat split; discriminate.
  - repeat split; discriminate.
  - intros x c _. apply field_chain_indents.
Defined.

Lemma totalLength_of_single_node_witness :
  totalLength codeType_std 2 (newOpCode (ctx.mk None false 0 5 0) opStructField ∅).1
    (Some (newOpCode (ctx.mk None false 0 5 0) opStructField ∅).2) = Ret (5 + 2)
  ∧ totalLength codeType_std 2 (newInterfaceCode (ctx.mk None false 0 5 0) ∅).1
      (Some (newInterfaceCode (ctx.mk None false 0 5 0) ∅).2) = Ret (5 + 2)
  ∧ totalLength codeType_std 2
      (newRecursiveCode (ctx.mk None false 0 5 0) None ∅).1
      (Some (newRecursiveCode (ctx.mk None false 0 5 0) None ∅).2)
    = Ret (5 + 2).
Proof.
  apply (totalLength_of_single_node codeType_std
           (ctx.mk None false 0 5 0) ∅ opStructField None 0).
  - simpl. lia.
  - discriminate.
  - repeat split; discriminate.
  - repeat split; discriminate.
  - repeat split; discriminate.
Defined.
